(** * GrantHunter: the discovery run, its response parser and its
      deduplication, embedded from [services/gemini.ts] and [App.tsx].

    Conventions of the embedding.
    - A JavaScript string is a Rocq [string]; where the program works on
      single code units (trim, the two fence patterns, indexOf,
      lastIndexOf, substring, JSON.parse) the text is taken as its
      [list ascii], one [ascii] per code unit, so the embedding covers
      texts whose code units are below 256.
    - A JavaScript number is the rational it denotes; every arithmetic
      result and every numeric literal goes through the rounding [fl] of
      the platform's number format.
    - An object is a finite map from property names to values.
    - React state setters are applied to the component state in program
      order; the state is threaded explicitly through the handlers.
    - What the platform or the network answers (uuidv4, Math.random, the
      clock, the extraction provider, the notification service) is read
      from a [Platform] and a [World] passed to the run. *)

From Stdlib Require Import ZArith QArith Qround Lqa String Ascii List Bool Lia Floats.
From stdpp Require Import base option list strings pretty gmap.

Local Open Scope string_scope.
Local Open Scope list_scope.

(** ** Code units *)

Module Chars.

(** WhiteSpace and LineTerminator code units below 256: what
    [String.prototype.trim] removes and what [\s] matches. *)
Definition isWhiteSpace (c : ascii) : bool :=
  match N_of_ascii c with
  | 9 | 10 | 11 | 12 | 13 | 32 | 160 => true
  | _ => false
  end%N.

(** The four whitespace code units of the JSON grammar. *)
Definition isJsonSpace (c : ascii) : bool :=
  match N_of_ascii c with
  | 9 | 10 | 13 | 32 => true
  | _ => false
  end%N.

Definition isDigit (c : ascii) : bool :=
  let n := N_of_ascii c in (48 <=? n)%N && (n <=? 57)%N.

Definition digitValue (c : ascii) : Z := Z.of_N (N_of_ascii c) - 48.

Definition hexValue (c : ascii) : option N :=
  let n := N_of_ascii c in
  if (48 <=? n)%N && (n <=? 57)%N then Some (n - 48)%N
  else if (65 <=? n)%N && (n <=? 70)%N then Some (n - 55)%N
  else if (97 <=? n)%N && (n <=? 102)%N then Some (n - 87)%N
  else None.

(** [String.prototype.toLowerCase] on one code unit below 256: the
    letters A-Z and the accented capitals U+00C0-U+00DE, except the
    multiplication sign U+00D7. *)
Definition lowerChar (c : ascii) : ascii :=
  let n := N_of_ascii c in
  if ((65 <=? n)%N && (n <=? 90)%N)
     || ((192 <=? n)%N && (n <=? 222)%N && negb (n =? 215)%N)
  then ascii_of_N (n + 32) else c.

End Chars.

(** The double quote character. *)
Abbreviation dquote := (Ascii.Ascii false true false false false true false false).

Fixpoint dropWhile {A} (p : A -> bool) (l : list A) : list A :=
  match l with
  | [] => []
  | x :: r => if p x then dropWhile p r else l
  end.

Fixpoint takeWhile {A} (p : A -> bool) (l : list A) : list A :=
  match l with
  | [] => []
  | x :: r => if p x then x :: takeWhile p r else []
  end.

(** ** The string operations of the response clean-up *)

Module JsString.

Definition chars (s : string) : list ascii := list_ascii_of_string s.
Definition str (l : list ascii) : string := string_of_list_ascii l.

(** [s.trim()] *)
Definition trimStart (l : list ascii) : list ascii :=
  dropWhile Chars.isWhiteSpace l.
Definition trimEnd (l : list ascii) : list ascii :=
  rev (dropWhile Chars.isWhiteSpace (rev l)).
Definition trim (l : list ascii) : list ascii := trimEnd (trimStart l).

(** [s.replace(/^```json\s*/, '')]: the pattern matches when the text
    starts with the seven characters of the opening fence. *)
Definition opening_fence : list ascii := list_ascii_of_string "```json".
Definition replace_opening_fence (l : list ascii) : list ascii :=
  if decide (take 7 l = opening_fence)
  then dropWhile Chars.isWhiteSpace (drop 7 l)
  else l.

(** [s.replace(/\s*```$/, '')]: the pattern matches when the text ends
    with three backquotes, from the start of the whitespace run before
    them. *)
Definition closing_fence : list ascii := list_ascii_of_string "```".
Definition replace_closing_fence (l : list ascii) : list ascii :=
  if decide (take 3 (rev l) = closing_fence)
  then rev (dropWhile Chars.isWhiteSpace (drop 3 (rev l)))
  else l.

Fixpoint find_first (c : ascii) (l : list ascii) : option nat :=
  match l with
  | [] => None
  | x :: r => if Ascii.eqb x c then Some 0 else S <$> find_first c r
  end.

Definition find_last (c : ascii) (l : list ascii) : option nat :=
  (fun i => length l - 1 - i) <$> find_first c (rev l).

(** [s.indexOf(c)] and [s.lastIndexOf(c)] for a one-character pattern:
    the position, or -1. *)
Definition indexOf (l : list ascii) (c : ascii) : Z :=
  match find_first c l with Some i => Z.of_nat i | None => -1 end.
Definition lastIndexOf (l : list ascii) (c : ascii) : Z :=
  match find_last c l with Some i => Z.of_nat i | None => -1 end.

(** [s.substring(start, end)]: both bounds are clamped to the text and
    swapped when [start] is the larger. *)
Definition substring (l : list ascii) (start end_ : Z) : list ascii :=
  let len := Z.of_nat (length l) in
  let a := Z.min (Z.max start 0) len in
  let b := Z.min (Z.max end_ 0) len in
  let lo := Z.min a b in
  let hi := Z.max a b in
  take (Z.to_nat (hi - lo)) (drop (Z.to_nat lo) l).

(** [s.toLowerCase()] *)
Definition toLowerCase (s : string) : string :=
  str (map Chars.lowerChar (chars s)).

End JsString.

(** ** JSON values and [JSON.parse] *)

#[warnings="-register-all"]
Inductive JValue : Type :=
| JNull
| JBool (b : bool)
| JNumber (n : Q)
| JString (s : string)
| JArray (items : list JValue)
| JObject (members : list (string * JValue)).

Module Json.

Import Chars.

Definition skip_ws (l : list ascii) : list ascii := dropWhile isJsonSpace l.

(** The characters of a string literal after its opening quote, up to the
    closing quote; the escapes of the grammar are decoded, a raw control
    character is refused. An escaped code unit above 00FF is outside the
    texts covered and is refused as well. *)
Fixpoint string_body (l : list ascii) : option (list ascii * list ascii) :=
  match l with
  | [] => None
  | dquote :: r => Some ([], r)
  | "\"%char :: e :: r =>
      let plain (c : ascii) :=
        match string_body r with
        | Some (cs, rest) => Some (c :: cs, rest)
        | None => None
        end in
      match e with
      | dquote => plain dquote
      | "\"%char => plain "\"%char
      | "/"%char => plain "/"%char
      | "b"%char => plain (ascii_of_N 8)
      | "f"%char => plain (ascii_of_N 12)
      | "n"%char => plain (ascii_of_N 10)
      | "r"%char => plain (ascii_of_N 13)
      | "t"%char => plain (ascii_of_N 9)
      | "u"%char =>
          match r with
          | h1 :: h2 :: h3 :: h4 :: r' =>
              match hexValue h1, hexValue h2, hexValue h3, hexValue h4 with
              | Some a, Some b, Some c, Some d =>
                  let u := (((a * 16 + b) * 16 + c) * 16 + d)%N in
                  if (u <? 256)%N then
                    match string_body r' with
                    | Some (cs, rest) => Some (ascii_of_N u :: cs, rest)
                    | None => None
                    end
                  else None
              | _, _, _, _ => None
              end
          | _ => None
          end
      | _ => None
      end
  | c :: r =>
      if (N_of_ascii c <? 32)%N then None
      else match string_body r with
           | Some (cs, rest) => Some (c :: cs, rest)
           | None => None
           end
  end.

Definition digits_value (ds : list ascii) : Z :=
  fold_left (fun acc d => acc * 10 + digitValue d)%Z ds 0%Z.

(** The rational written by a number literal: [m] scaled by ten to the
    power [e]. *)
Definition decimal (m e : Z) : Q :=
  if (0 <=? e)%Z then Qred (inject_Z (m * 10 ^ e))
  else Qred (Qmake m (Z.to_pos (10 ^ (- e)))).

(** A number literal: [-? int frac? exp?], where [int] has no leading
    zero. *)
Definition number (fl : Q -> Q) (l : list ascii) : option (JValue * list ascii) :=
  let '(neg, l1) :=
    match l with "-"%char :: r => (true, r) | _ => (false, l) end in
  let ip := takeWhile isDigit l1 in
  let l2 := dropWhile isDigit l1 in
  match ip with
  | [] => None
  | d :: ds =>
      if Ascii.eqb d "0" && negb (match ds with [] => true | _ => false end)
      then
        (* a leading zero ends the literal: what follows is not part of it *)
        let v := fl 0%Q in
        Some (JNumber (if neg then Qopp v else v), ds ++ l2)
      else
        let '(fp, l3, okf) :=
          match l2 with
          | "."%char :: r =>
              let f := takeWhile isDigit r in
              (f, dropWhile isDigit r, negb (match f with [] => true | _ => false end))
          | _ => ([], l2, true)
          end in
        let '(ex, l4, oke) :=
          match l3 with
          | c :: r =>
              if Ascii.eqb c "e" || Ascii.eqb c "E" then
                let '(eneg, r1) :=
                  match r with
                  | "-"%char :: r' => (true, r')
                  | "+"%char :: r' => (false, r')
                  | _ => (false, r)
                  end in
                let e := takeWhile isDigit r1 in
                ((if eneg then - digits_value e else digits_value e)%Z,
                 dropWhile isDigit r1,
                 negb (match e with [] => true | _ => false end))
              else (0%Z, l3, true)
          | [] => (0%Z, l3, true)
          end in
        if okf && oke then
          let m := digits_value (ip ++ fp) in
          let v := fl (decimal m (ex - Z.of_nat (length fp))) in
          Some (JNumber (if neg then Qopp v else v), l4)
        else None
  end.

Definition literal (w : string) (v : JValue) (l : list ascii)
  : option (JValue * list ascii) :=
  let cs := list_ascii_of_string w in
  if decide (take (length cs) l = cs) then Some (v, drop (length cs) l) else None.

(** A value, the elements of an array after its opening bracket, and
    the members of an object after its opening brace. [fuel] bounds the
    depth of the calls; every call reads at least one character, so the
    fuel [parse] gives, one more than the length of the text, is never
    used up ([FuelFacts.parse_fuel_enough]). *)
Fixpoint value (fl : Q -> Q) (fuel : nat) (l : list ascii)
  : option (JValue * list ascii) :=
  match fuel with
  | O => None
  | S fuel' =>
      match skip_ws l with
      | "["%char :: r =>
          match skip_ws r with
          | "]"%char :: r' => Some (JArray [], r')
          | _ =>
              match elements fl fuel' r with
              | Some (vs, r') => Some (JArray vs, r')
              | None => None
              end
          end
      | "{"%char :: r =>
          match skip_ws r with
          | "}"%char :: r' => Some (JObject [], r')
          | _ =>
              match members fl fuel' r with
              | Some (ms, r') => Some (JObject ms, r')
              | None => None
              end
          end
      | dquote :: r =>
          match string_body r with
          | Some (cs, r') => Some (JString (string_of_list_ascii cs), r')
          | None => None
          end
      | "t"%char :: _ => literal "true" (JBool true) (skip_ws l)
      | "f"%char :: _ => literal "false" (JBool false) (skip_ws l)
      | "n"%char :: _ => literal "null" JNull (skip_ws l)
      | c :: _ =>
          if Ascii.eqb c "-" || isDigit c then number fl (skip_ws l) else None
      | [] => None
      end
  end
with elements (fl : Q -> Q) (fuel : nat) (l : list ascii)
  : option (list JValue * list ascii) :=
  match fuel with
  | O => None
  | S fuel' =>
      match value fl fuel' l with
      | Some (v, r) =>
          match skip_ws r with
          | ","%char :: r' =>
              match elements fl fuel' r' with
              | Some (vs, r'') => Some (v :: vs, r'')
              | None => None
              end
          | "]"%char :: r' => Some ([v], r')
          | _ => None
          end
      | None => None
      end
  end
with members (fl : Q -> Q) (fuel : nat) (l : list ascii)
  : option (list (string * JValue) * list ascii) :=
  match fuel with
  | O => None
  | S fuel' =>
      match skip_ws l with
      | dquote :: r =>
          match string_body r with
          | Some (k, r1) =>
              match skip_ws r1 with
              | ":"%char :: r2 =>
                  match value fl fuel' r2 with
                  | Some (v, r3) =>
                      match skip_ws r3 with
                      | ","%char :: r4 =>
                          match members fl fuel' r4 with
                          | Some (ms, r5) =>
                              Some ((string_of_list_ascii k, v) :: ms, r5)
                          | None => None
                          end
                      | "}"%char :: r4 => Some ([(string_of_list_ascii k, v)], r4)
                      | _ => None
                      end
                  | None => None
                  end
              | _ => None
              end
          | None => None
          end
      | _ => None
      end
  end.

(** [JSON.parse(text)]: one value between optional whitespace, nothing
    else; [None] stands for the SyntaxError. *)
Definition parse (fl : Q -> Q) (l : list ascii) : option JValue :=
  match value fl (S (length l)) l with
  | Some (v, r) => match skip_ws r with [] => Some v | _ => None end
  | None => None
  end.

End Json.


(** ** The records of [types.ts] *)

Inductive Level := INFO | SUCCESS | WARNING | ERROR.

Record LogEntry := {
  log_id : string;
  timestamp : string;
  level : Level;
  message : string
}.

Record SearchConfig := {
  keywords : list string;
  year : Z;
  emailRecipient : string;
  notificationEnabled : bool
}.

(** A Grant at run time is the object built by the parser: whatever
    properties the payload element had, plus [id] and
    [confidence_score]. The interface [Grant] of [types.ts] is not
    checked against it. *)
Abbreviation Grant := (gmap string JValue).

(** ** Errors, the platform and the outside world *)

Inductive ErrorName := PlainError | SyntaxError | TypeError.

Record JsError := { err_name : ErrorName; err_message : string }.

(** The faults raised by the engine rather than by a [throw] of the
    program; the engine chooses the message. *)
Inductive Fault :=
| BadJson (source : list ascii)
| BadCall (callee : string)
| BadUrl (uri : string).

Record Platform := {
  API_KEY : option string;            (* process.env.API_KEY *)
  uuidv4_nth : nat -> string;         (* the n-th result of uuidv4() *)
  random_nth : nat -> Q;              (* the n-th result of Math.random() *)
  clock_nth : nat -> string;          (* the n-th new Date().toLocaleTimeString() *)
  fl : Q -> Q;                        (* rounding to the number format *)
  hostname_of : string -> option string;  (* new URL(uri).hostname *)
  display : JValue -> string;         (* a value inside a template string *)
  fault_message : Fault -> string
}.

Record WebSource := { uri : option string; title : option string }.
Record GroundingChunk := { web : option WebSource }.

Record GenerateContentResponse := {
  text : option string;
  groundingChunks : option (list GroundingChunk)
}.

Record GenerateContentRequest := {
  model : string;
  prompt_year : Z;
  prompt_keywords : list string;
  googleSearch : bool;
  temperature : Q
}.

Record NotifyResult := {
  notify_logs : list LogEntry;
  notify_error : option JsError
}.

(** What the network answers during one run. [sendNotification] stands
    for the notification service of [services/notification]: it is
    given the recipient and the new Grants, reports through the log
    callback and either resolves or rejects. *)
Record World := {
  generateContent : GenerateContentRequest -> JsError + GenerateContentResponse;
  sendNotification : string -> list Grant -> NotifyResult
}.

Inductive Effect :=
| Alert (msg : string)
| ConsoleErrorText (label : string) (detail : string)
| ConsoleErrorValue (error : JsError)
| CallGenerateContent (req : GenerateContentRequest)
| CallSendNotification (recipient : string) (newGrants : list Grant).

(** ** Component state and the monad of a handler *)

Record Host := {
  isScanning : bool;
  logs : list LogEntry;
  grants : list Grant;
  uuid_calls : nat;
  random_calls : nat;
  clock_calls : nat;
  effects : list Effect
}.

Inductive Outcome (A : Type) : Type :=
| Return (a : A)
| Throw (e : JsError).
Arguments Return {A} a.
Arguments Throw {A} e.

Definition M (A : Type) : Type := Host -> Host * Outcome A.

Definition ret {A} (a : A) : M A := fun h => (h, Return a).
Definition throw {A} (e : JsError) : M A := fun h => (h, Throw e).
Definition bind {A B} (m : M A) (k : A -> M B) : M B :=
  fun h => match m h with
           | (h', Return a) => k a h'
           | (h', Throw e) => (h', Throw e)
           end.

Declare Scope js_scope.
Delimit Scope js_scope with js.
Notation "x <- m ;; k" := (bind m (fun x => k))
  (at level 100, m at next level, right associativity) : js_scope.
Notation "m ;; k" := (bind m (fun _ => k))
  (at level 100, right associativity) : js_scope.
Local Open Scope js_scope.

(** [try { body } catch (e) { handler e }] *)
Definition try_catch {A} (body : M A) (handler : JsError -> M A) : M A :=
  fun h => match body h with
           | (h', Return a) => (h', Return a)
           | (h', Throw e) => handler e h'
           end.

(** [try { ... } finally { fin }]: [fin] runs either way; the outcome
    of the protected part stands unless [fin] throws. *)
Definition try_finally {A} (body : M A) (fin : M unit) : M A :=
  fun h => match body h with
           | (h', r) =>
               match fin h' with
               | (h'', Return _) => (h'', r)
               | (h'', Throw e) => (h'', Throw e)
               end
           end.

Fixpoint mapM {A B} (f : A -> M B) (l : list A) : M (list B) :=
  match l with
  | [] => ret []
  | x :: r => y <- f x ;; ys <- mapM f r ;; ret (y :: ys)
  end.

Fixpoint filterM {A} (p : A -> M bool) (l : list A) : M (list A) :=
  match l with
  | [] => ret []
  | x :: r => b <- p x ;; ys <- filterM p r ;; ret (if b then x :: ys else ys)
  end.

Fixpoint forEach {A} (f : A -> nat -> M unit) (l : list A) (idx : nat) : M unit :=
  match l with
  | [] => ret tt
  | x :: r => f x idx ;; forEach f r (S idx)
  end.

Definition set_isScanning (b : bool) (h : Host) : Host :=
  {| isScanning := b; logs := logs h; grants := grants h;
     uuid_calls := uuid_calls h; random_calls := random_calls h;
     clock_calls := clock_calls h; effects := effects h |}.
Definition set_logs (l : list LogEntry) (h : Host) : Host :=
  {| isScanning := isScanning h; logs := l; grants := grants h;
     uuid_calls := uuid_calls h; random_calls := random_calls h;
     clock_calls := clock_calls h; effects := effects h |}.
Definition set_grants (g : list Grant) (h : Host) : Host :=
  {| isScanning := isScanning h; logs := logs h; grants := g;
     uuid_calls := uuid_calls h; random_calls := random_calls h;
     clock_calls := clock_calls h; effects := effects h |}.
Definition set_effects (e : list Effect) (h : Host) : Host :=
  {| isScanning := isScanning h; logs := logs h; grants := grants h;
     uuid_calls := uuid_calls h; random_calls := random_calls h;
     clock_calls := clock_calls h; effects := e |}.

Definition setIsScanning (b : bool) : M unit :=
  fun h => (set_isScanning b h, Return tt).
Definition setLogs (f : list LogEntry -> list LogEntry) : M unit :=
  fun h => (set_logs (f (logs h)) h, Return tt).
Definition perform (e : Effect) : M unit :=
  fun h => (set_effects (effects h ++ [e]) h, Return tt).

Definition uuidv4 (P : Platform) : M string :=
  fun h => ({| isScanning := isScanning h; logs := logs h; grants := grants h;
               uuid_calls := S (uuid_calls h); random_calls := random_calls h;
               clock_calls := clock_calls h; effects := effects h |},
            Return (uuidv4_nth P (uuid_calls h))).
Definition Math_random (P : Platform) : M Q :=
  fun h => ({| isScanning := isScanning h; logs := logs h; grants := grants h;
               uuid_calls := uuid_calls h; random_calls := S (random_calls h);
               clock_calls := clock_calls h; effects := effects h |},
            Return (random_nth P (random_calls h))).
Definition toLocaleTimeString (P : Platform) : M string :=
  fun h => ({| isScanning := isScanning h; logs := logs h; grants := grants h;
               uuid_calls := uuid_calls h; random_calls := random_calls h;
               clock_calls := S (clock_calls h); effects := effects h |},
            Return (clock_nth P (clock_calls h))).

(** Truthiness of a string and of [process.env.API_KEY]. *)
Definition truthy (s : string) : bool :=
  match s with EmptyString => false | _ => true end.
Definition truthy_opt (o : option string) : bool :=
  match o with Some s => truthy s | None => false end.

Definition engine_error (P : Platform) (n : ErrorName) (f : Fault) : JsError :=
  {| err_name := n; err_message := fault_message P f |}.
Definition new_Error (msg : string) : JsError :=
  {| err_name := PlainError; err_message := msg |}.

(** ** [services/gemini.ts] *)

Module Gemini.

Import JsString.

Definition getClient (P : Platform) : M unit :=
  if truthy_opt (API_KEY P) then ret tt
  else throw (new_Error "API Key not found").

Definition modelId : string := "gemini-2.5-flash".

(** The local [addLog] of [discoverGrants]. *)
Definition addLog (P : Platform) (onLog : LogEntry -> M unit)
    (message : string) (level : Level) : M unit :=
  id <- uuidv4 P ;;
  ts <- toLocaleTimeString P ;;
  onLog {| log_id := id; timestamp := ts; level := level; message := message |}.

Definition request (config : SearchConfig) : GenerateContentRequest :=
  {| model := modelId;
     prompt_year := year config;
     prompt_keywords := keywords config;
     googleSearch := true;
     temperature := 1 # 10 |}.

(** [await ai.models.generateContent(...)] *)
Definition await_generateContent (W : World) (req : GenerateContentRequest)
  : M GenerateContentResponse :=
  perform (CallGenerateContent req) ;;
  match generateContent W req with
  | inl e => throw e
  | inr response => ret response
  end.

Definition show_opt (o : option string) : string :=
  match o with Some s => s | None => "undefined" end.

(** The body of [chunks.forEach]. *)
Definition logChunk (P : Platform) (onLog : LogEntry -> M unit)
    (chunk : GroundingChunk) (idx : nat) : M unit :=
  match web chunk with
  | Some w =>
      match uri w with
      | Some u =>
          if truthy u && (idx <? 3)%nat then
            match hostname_of P u with
            | Some host =>
                addLog P onLog
                  ("Crawled: " +:+ show_opt (title w) +:+ " (" +:+ host +:+ ")") INFO
            | None => throw (engine_error P TypeError (BadUrl u))
            end
          else ret tt
      | None => ret tt
      end
  | None => ret tt
  end.

(** The own enumerable properties that [...item] copies. *)
Definition ownProperties (item : JValue) : gmap string JValue :=
  match item with
  | JObject members => fold_left (fun m kv => <[kv.1 := kv.2]> m) members ∅
  | JArray items => list_to_map (imap (fun i x => (pretty i, x)) items)
  | JString s =>
      list_to_map (imap (fun i c => (pretty i, JString (String c EmptyString))) (chars s))
  | _ => ∅
  end.

(** [0.9 + (r * 0.09)] in the number format. *)
Definition confidence_score (fl : Q -> Q) (r : Q) : Q :=
  fl (fl (9 # 10) + fl (r * fl (9 # 100)))%Q.

(** [{ id: uuidv4(), ...item, confidence_score: 0.9 + (Math.random() * 0.09) }] *)
Definition toGrant (P : Platform) (item : JValue) : M Grant :=
  id <- uuidv4 P ;;
  r <- Math_random P ;;
  ret (<["confidence_score" := JNumber (confidence_score (fl P) r)]>
         (ownProperties item ∪ {["id" := JString id]})).

(** [parsedData.length] inside the template string. *)
Definition show_length (P : Platform) (parsedData : JValue) : string :=
  match parsedData with
  | JArray items => pretty (length items)
  | JString s => pretty (String.length s)
  | JObject _ =>
      match ownProperties parsedData !! "length" with
      | Some v => display P v
      | None => "undefined"
      end
  | _ => "undefined"
  end.

(** The clean-up of the response text, up to the two bracket
    positions. *)
Definition cleanJson (text : string) : list ascii :=
  replace_closing_fence (replace_opening_fence (trim (chars text))).

(** From [let cleanJson = text.trim()] to [return grants]: the parse
    step of a run. *)
Definition parseGrants (P : Platform) (onLog : LogEntry -> M unit)
    (text : string) : M (list Grant) :=
  let cleanJson := cleanJson text in
  let startIdx := indexOf cleanJson "[" in
  let endIdx := lastIndexOf cleanJson "]" in
  if (startIdx =? -1)%Z || (endIdx =? -1)%Z then
    addLog P onLog "Failed to parse structured data. Raw output received." ERROR ;;
    perform (ConsoleErrorText "Raw AI Output:" text) ;;
    throw (new_Error "Invalid JSON format received from AI")
  else
    let cleanJson := substring cleanJson startIdx (endIdx + 1) in
    match Json.parse (fl P) cleanJson with
    | None => throw (engine_error P SyntaxError (BadJson cleanJson))
    | Some parsedData =>
        addLog P onLog
          ("Successfully extracted " +:+ show_length P parsedData +:+ " opportunities.")
          SUCCESS ;;
        match parsedData with
        | JArray items => mapM (toGrant P) items
        | _ => throw (engine_error P TypeError (BadCall "parsedData.map"))
        end
    end.

Definition discoverGrants (P : Platform) (W : World) (config : SearchConfig)
    (onLog : LogEntry -> M unit) : M (list Grant) :=
  getClient P ;;
  addLog P onLog "Initializing Grant Discovery Protocol v1.0" INFO ;;
  addLog P onLog ("Target Year: " +:+ pretty (year config)) INFO ;;
  addLog P onLog
    ("Keywords: [" +:+ String.concat ", " (keywords config) +:+ "]") INFO ;;
  try_catch
    (addLog P onLog "Executing search query on Google Index..." INFO ;;
     response <- await_generateContent W (request config) ;;
     addLog P onLog "Search complete. Processing results..." SUCCESS ;;
     match groundingChunks response with
     | Some chunks =>
         addLog P onLog
           ("Accessed " +:+ pretty (length chunks)
              +:+ " unique sources for verification.") INFO ;;
         forEach (logChunk P onLog) chunks 0
     | None => ret tt
     end ;;
     match text response with
     | Some text =>
         if truthy text then parseGrants P onLog text
         else throw (new_Error "No response generated from AI.")
     | None => throw (new_Error "No response generated from AI.")
     end)
    (fun error =>
       addLog P onLog ("Error during discovery: " +:+ err_message error) ERROR ;;
       throw error).

End Gemini.

(** ** [App.tsx] *)

Module App.

Import JsString.

Definition addLog (P : Platform) (message : string) (level : Level) : M unit :=
  id <- uuidv4 P ;;
  ts <- toLocaleTimeString P ;;
  let entry := {| log_id := id; timestamp := ts; level := level; message := message |} in
  setLogs (fun prev => prev ++ [entry]).

(** The callback [(log) => setLogs(prev => [...prev, log])]. *)
Definition onLog (log : LogEntry) : M unit :=
  setLogs (fun prev => prev ++ [log]).

(** [g.program_title.toLowerCase()]: defined on a string title only;
    on anything else the call is a TypeError. *)
Definition lowerTitle (g : Grant) : option string :=
  match g !! "program_title" with
  | Some (JString s) => Some (toLowerCase s)
  | _ => None
  end.
Definition title_key (P : Platform) (g : Grant) : M string :=
  match lowerTitle g with
  | Some k => ret k
  | None => throw (engine_error P TypeError (BadCall "g.program_title.toLowerCase"))
  end.

(** The updater passed to [setGrants]: it yields the next [grants] and
    leaves the unique results in [newGrants]. *)
Definition dedupe (P : Platform) (results prev : list Grant)
  : M (list Grant * list Grant) :=
  titles <- mapM (title_key P) prev ;;
  let existingTitles : gset string := list_to_set titles in
  uniqueResults <-
    filterM (fun g => k <- title_key P g ;; ret (negb (bool_decide (k ∈ existingTitles))))
      results ;;
  (if (length uniqueResults <? length results)%nat then
     addLog P ("Filtered " +:+ pretty (length results - length uniqueResults)%nat
                 +:+ " duplicates.") WARNING
   else ret tt) ;;
  ret (uniqueResults, uniqueResults ++ prev).

Definition setGrants_dedupe (P : Platform) (results : list Grant) : M (list Grant) :=
  fun h =>
    match dedupe P results (grants h) h with
    | (h', Return (newGrants, next)) => (set_grants next h', Return newGrants)
    | (h', Throw e) => (h', Throw e)
    end.

(** [await sendNotification(recipient, newGrants, onLog)] *)
Definition await_sendNotification (W : World) (recipient : string)
    (newGrants : list Grant) : M unit :=
  perform (CallSendNotification recipient newGrants) ;;
  let r := sendNotification W recipient newGrants in
  forEach (fun log _ => onLog log) (notify_logs r) 0 ;;
  match notify_error r with
  | Some e => throw e
  | None => ret tt
  end.

(** The notification phase. *)
Definition notifyPhase (P : Platform) (W : World) (config : SearchConfig)
    (newGrants : list Grant) : M unit :=
  if (0 <? length newGrants)%nat && notificationEnabled config
     && truthy (emailRecipient config)
  then await_sendNotification W (emailRecipient config) newGrants
  else if (0 <? length newGrants)%nat
          && (negb (notificationEnabled config) || negb (truthy (emailRecipient config)))
  then addLog P "Skipping email notification (Disabled or no recipient)." INFO
  else ret tt.

(** The [try] block of [handleRunDiscovery]. *)
Definition runPhases (P : Platform) (W : World) (config : SearchConfig) : M unit :=
  results <- Gemini.discoverGrants P W config onLog ;;
  newGrants <- setGrants_dedupe P results ;;
  notifyPhase P W config newGrants.

Definition onError (P : Platform) (error : JsError) : M unit :=
  perform (ConsoleErrorValue error) ;;
  addLog P "Discovery sequence aborted due to critical error." ERROR.

Definition finalize (P : Platform) : M unit :=
  setIsScanning false ;;
  addLog P "Sequence finalized. System Idle." INFO.

(** From [setIsScanning(true)] to the start of the [try]. *)
Definition beginRun (P : Platform) : M unit :=
  setIsScanning true ;;
  setLogs (fun _ => []) ;;
  addLog P "Starting new discovery sequence..." INFO.

Definition handleRunDiscovery (P : Platform) (W : World) (config : SearchConfig)
  : M unit :=
  if negb (truthy_opt (API_KEY P)) then
    addLog P "ERROR: API Key is missing. Please set process.env.API_KEY." ERROR ;;
    perform (Alert "API Key missing! This app requires a Gemini API Key in the environment.")
  else
    fun h =>
      if isScanning h then (h, Return tt)
      else
        (beginRun P ;;
         try_finally (try_catch (runPhases P W config) (onError P)) (finalize P)) h.

End App.

(** ** Concrete platform and worlds for the examples *)

Module Demo.

(** Writes a text with double quotes from one written with apostrophes. *)
Definition quoted (s : string) : string :=
  string_of_list_ascii
    (map (fun c => if Ascii.eqb c "'" then dquote else c) (list_ascii_of_string s)).

Definition platform : Platform :=
  {| API_KEY := Some "key";
     uuidv4_nth := fun n => "uuid-" +:+ pretty n;
     random_nth := fun _ => 1 # 2;
     clock_nth := fun n => "t" +:+ pretty n;
     fl := fun q => q;
     hostname_of := fun u => Some u;
     display := fun _ => "?";
     fault_message := fun _ => "engine fault" |}.

Definition config : SearchConfig :=
  {| keywords := ["grant"; "funding"]; year := 2025;
     emailRecipient := "a@b.c"; notificationEnabled := true |}.

Definition answering (t : string) (mail : NotifyResult) : World :=
  {| generateContent := fun _ => inr {| text := Some t; groundingChunks := None |};
     sendNotification := fun _ _ => mail |}.

Definition delivered : NotifyResult := {| notify_logs := []; notify_error := None |}.
Definition undelivered : NotifyResult :=
  {| notify_logs := []; notify_error := Some (new_Error "mail service down") |}.

Definition idle : Host :=
  {| isScanning := false; logs := []; grants := [];
     uuid_calls := 0; random_calls := 0; clock_calls := 0; effects := [] |}.

Definition grant_titled (t : string) : Grant :=
  {[ "program_title" := JString t ]}.

(** A host whose repository already holds one Grant. *)
Definition stocked : Host :=
  {| isScanning := false; logs := []; grants := [grant_titled "A"];
     uuid_calls := 0; random_calls := 0; clock_calls := 0; effects := [] |}.

(** Candidate batches: two new titles; one title the repository has in
    another case and one new title; the same title twice. *)
Definition batch_AB : string := quoted "[{'program_title':'A'},{'program_title':'B'}]".
Definition batch_aC : string := quoted "[{'program_title':'a'},{'program_title':'C'}]".
Definition batch_Aa : string := quoted "[{'program_title':'A'},{'program_title':'a'}]".

(** A world whose provider cannot be reached. *)
Definition unreachable : World :=
  {| generateContent := fun _ => inl (new_Error "provider unreachable");
     sendNotification := fun _ _ => delivered |}.

End Demo.



(** ** Notions used to state the properties *)

(** What a call of the JSON reader with fuel [n] owes: it reads at least
    one character, and any fuel that is at least the number of
    characters read gives the same result. *)
Definition value_ok (fl : Q -> Q) (n : nat) : Prop :=
  forall l v r, Json.value fl n l = Some (v, r) ->
    length r < length l
    /\ forall m, length l - length r <= m -> Json.value fl m l = Some (v, r).
Definition elements_ok (fl : Q -> Q) (n : nat) : Prop :=
  forall l vs r, Json.elements fl n l = Some (vs, r) ->
    length r < length l
    /\ forall m, length l - length r <= m -> Json.elements fl m l = Some (vs, r).
Definition members_ok (fl : Q -> Q) (n : nat) : Prop :=
  forall l ms r, Json.members fl n l = Some (ms, r) ->
    length r < length l
    /\ forall m, length l - length r <= m -> Json.members fl m l = Some (ms, r).

(** The text from the first opening bracket through the last closing
    bracket, as the specification words the slice: nothing when the
    last closing bracket comes before the first opening one. *)
Definition bracket_span (l : list ascii) : list ascii :=
  match JsString.find_first "[" l, JsString.find_last "]" l with
  | Some i, Some j => take (S j - i) (drop i l)
  | _, _ => []
  end.

(** [l] carries [j] after a prefix without [a] and before a suffix
    without [b]; [j] is written between [a] and [b]. *)
Definition carries (a b : ascii) (j l : list ascii) : Prop :=
  exists p s, l = p ++ j ++ s /\ ~ In a p /\ ~ In b s.

Definition delimited (a b : ascii) (j : list ascii) : Prop :=
  exists body, j = a :: body ++ [b].

(** A text that carries [j] between a prefix without opening bracket and
    a suffix without closing bracket, and a text written between an
    opening and a closing bracket. *)
Definition wraps : list ascii -> list ascii -> Prop := carries "[" "]".
Definition bracketed : list ascii -> Prop := delimited "[" "]".

(** What is asked of the rounding of the number format. *)
Record Rounding (fl : Q -> Q) : Prop := {
  fl_monotone : forall x y, (x <= y)%Q -> (fl x <= fl y)%Q;
  fl_zero : (fl 0 == 0)%Q
}.

(** The greatest number below 1 of the number format, hence the
    greatest value of [Math.random()]. *)
Definition below_one : Q := (1 - (1 # 9007199254740992))%Q.

(** [Math.random()] returns a number of the format in [0, 1). *)
Definition random_in_range (P : Platform) : Prop :=
  forall n, (0 <= random_nth P n)%Q /\ (random_nth P n <= below_one)%Q.

(** The states related by a computation that only appends to the log,
    draws from the platform and calls the network: the repository and
    the scanning flag stay as they are, and the calls made do not
    include the notification service. *)
Definition notification (e : Effect) : bool :=
  match e with CallSendNotification _ _ => true | _ => false end.

Record quiet (h h' : Host) : Prop := {
  quiet_grants : grants h' = grants h;
  quiet_scanning : isScanning h' = isScanning h;
  quiet_effects : exists es, effects h' = effects h ++ es
                             /\ forallb (fun e => negb (notification e)) es = true
}.

Definition Quiet {A} (m : M A) : Prop := forall h, quiet h (fst (m h)).

(** The state in which a run that has passed both guards reaches its
    [try] block. *)
Definition started (P : Platform) (h : Host) : Host := fst (App.beginRun P h).

(** The repository holds Grants with string titles, no two of them
    equal once lower-cased. *)
Definition distinct_titles (gs : list Grant) : Prop :=
  Forall (fun g => is_Some (App.lowerTitle g)) gs
  /\ NoDup (map App.lowerTitle gs).

(** One run and a sequence of runs, each with its own configuration and
    its own answers from the network. *)
Definition run (P : Platform) (wc : World * SearchConfig) (h : Host) : Host :=
  fst (App.handleRunDiscovery P (fst wc) (snd wc) h).

Definition runs (P : Platform) (l : list (World * SearchConfig)) (h : Host) : Host :=
  fold_left (fun h wc => run P wc h) l h.

(** The candidate batches of a world never carry the same lower-cased
    title twice. *)
Definition distinct_batches (P : Platform) (wc : World * SearchConfig) : Prop :=
  forall h h' results,
    Gemini.discoverGrants P (fst wc) (snd wc) App.onLog h = (h', Return results) ->
    NoDup (map App.lowerTitle results).

(** The Grants built from the elements of a parsed array when the
    first element is given the [u]-th identifier and the [r]-th random
    number. *)
Definition grantOf (P : Platform) (u r : nat) (item : JValue) : Grant :=
  <["confidence_score" := JNumber (Gemini.confidence_score (fl P) (random_nth P r))]>
    (Gemini.ownProperties item ∪ {["id" := JString (uuidv4_nth P u)]}).

Fixpoint grantsOf (P : Platform) (u r : nat) (items : list JValue) : list Grant :=
  match items with
  | [] => []
  | item :: rest => grantOf P u r item :: grantsOf P (S u) (S r) rest
  end.

(** The lower-cased titles of a repository, and whether a candidate's
    title is among them. *)
Definition existingTitlesOf (prev : list Grant) : gset string :=
  list_to_set (omap App.lowerTitle prev).

Definition known (existingTitles : gset string) (g : Grant) : bool :=
  match App.lowerTitle g with
  | Some k => bool_decide (k ∈ existingTitles)
  | None => false
  end.

(** The report of the deduplication: the entries it adds to the log. *)
Definition reported (h h' : Host) : list (Level * string) :=
  map (fun entry => (level entry, message entry)) (drop (length (logs h)) (logs h')).

(** The calls to the notification service among the calls made. *)
Definition dispatches (es : list Effect) : list (string * list Grant) :=
  omap (fun e => match e with
                 | CallSendNotification r gs => Some (r, gs)
                 | _ => None
                 end) es.

(** The calls a computation added. *)
Definition performed (h h' : Host) : list Effect :=
  drop (length (effects h)) (effects h').

(** The state after the [catch] block and after the [finally] block. *)
Definition failed (P : Platform) (error : JsError) (h : Host) : Host :=
  fst (App.onError P error h).
Definition finalized (P : Platform) (h : Host) : Host :=
  fst (App.finalize P h).

(** The lower-cased title a payload element gives its Grant. *)
Definition itemTitle (item : JValue) : option string :=
  match Gemini.ownProperties item !! "program_title" with
  | Some (JString s) => Some (JsString.toLowerCase s)
  | _ => None
  end.

(** Whether a run dispatches: the condition of the notification phase. *)
Definition shouldNotify (config : SearchConfig) (newGrants : list Grant) : bool :=
  negb (match newGrants with [] => true | _ => false end)
  && notificationEnabled config
  && negb (String.eqb (emailRecipient config) EmptyString).

(** The score in binary64 itself, with the two constants written as the
    binary64 numbers nearest to 0.9 and 0.09, and the rational a finite
    binary64 number denotes. *)
Definition score64 (r : float) : float :=
  (0x1.ccccccccccccdp-1 + r * 0x1.70a3d70a3d70ap-4)%float.

Definition sf_value (x : spec_float) : option Q :=
  match x with
  | S754_zero _ => Some 0%Q
  | S754_finite s m e =>
      let v := if (0 <=? e)%Z then inject_Z (Z.pos m * 2 ^ e)
               else Qmake (Z.pos m) (Z.to_pos (2 ^ (- e))) in
      Some (if s then Qopp v else v)
  | _ => None
  end.

(** ** The keyword editor of [App.tsx] *)

Module Sidebar.

(** The part of the component state the editor works on. *)
Record State := {
  config : SearchConfig;
  newKeyword : string
}.

Definition trimmed (s : string) : string :=
  JsString.str (JsString.trim (JsString.chars s)).

(** [setConfig(prev => ({...prev, keywords: ks}))] *)
Definition with_keywords (ks : list string) (c : SearchConfig) : SearchConfig :=
  {| keywords := ks; year := year c; emailRecipient := emailRecipient c;
     notificationEnabled := notificationEnabled c |}.

Definition handleAddKeyword (st : State) : State :=
  if truthy (trimmed (newKeyword st)) then
    {| config := with_keywords (keywords (config st) ++ [trimmed (newKeyword st)])
                   (config st);
       newKeyword := EmptyString |}
  else st.

Definition removeKeyword (k : string) (st : State) : State :=
  {| config := with_keywords
                 (List.filter (fun kw => negb (String.eqb kw k)) (keywords (config st)))
                 (config st);
     newKeyword := newKeyword st |}.

(** What the user does in the editor: type in the field
    ([setNewKeyword(e.target.value)]), press the add button or Enter,
    press the remove button of a keyword. *)
Inductive Action :=
| TypeKeyword (s : string)
| AddKeyword
| RemoveKeyword (k : string).

Definition act (a : Action) (st : State) : State :=
  match a with
  | TypeKeyword s => {| config := config st; newKeyword := s |}
  | AddKeyword => handleAddKeyword st
  | RemoveKeyword k => removeKeyword k st
  end.

(** A keyword is not empty and has no whitespace around it. *)
Definition clean (k : string) : Prop :=
  k <> EmptyString /\ trimmed k = k.

End Sidebar.

(** ** [components/GrantCard.tsx] *)

Module GrantCard.

(** [x.toFixed(0)] on a number: the sign, then the integer nearest to
    the magnitude, the larger one when two are as near; from 10^21 on,
    the number as [String] writes it. *)
Definition toFixed0 (P : Platform) (x : Q) : string :=
  let negative := negb (Qle_bool 0 x) in
  let a := if negative then Qopp x else x in
  (if negative then "-" else EmptyString)
    +:+ (if Qle_bool (10 ^ 21) a then display P (JNumber a)
         else pretty (Qfloor (a + (1 # 2)))).

(** [Confidence: {(grant.confidence_score * 100).toFixed(0)}%] for a
    Grant whose [confidence_score] is the number given. *)
Definition confidenceText (P : Platform) (confidence_score : Q) : string :=
  "Confidence: " +:+ toFixed0 P (fl P (confidence_score * fl P 100)) +:+ "%".

End GrantCard.

(** ** Further notions and examples *)

(** A relation between the state before and after a computation holds
    of every state the computation is run from. *)
Definition Keeps (R : Host -> Host -> Prop) {A} (m : M A) : Prop :=
  forall h, R h (fst (m h)).

(** The log only grew. *)
Definition log_grows (h h' : Host) : Prop :=
  exists l, logs h' = logs h ++ l.

(** The calls to the extraction provider among the calls made. *)
Definition provider_calls (es : list Effect) : list GenerateContentRequest :=
  omap (fun e => match e with
                 | CallGenerateContent req => Some req
                 | _ => None
                 end) es.

(** No call to the extraction provider was added. *)
Definition no_provider_call (h h' : Host) : Prop :=
  exists es, effects h' = effects h ++ es /\ provider_calls es = [].

(** The [try] block of [discoverGrants] from the response on, and its
    [catch] block. *)
Definition afterResponse (P : Platform) (response : GenerateContentResponse)
  : M (list Grant) :=
  Gemini.addLog P App.onLog "Search complete. Processing results..." SUCCESS ;;
  match groundingChunks response with
  | Some chunks =>
      Gemini.addLog P App.onLog
        ("Accessed " +:+ pretty (length chunks)
           +:+ " unique sources for verification.") INFO ;;
      forEach (Gemini.logChunk P App.onLog) chunks 0
  | None => ret tt
  end ;;
  match text response with
  | Some text =>
      if truthy text then Gemini.parseGrants P App.onLog text
      else throw (new_Error "No response generated from AI.")
  | None => throw (new_Error "No response generated from AI.")
  end.

Definition onDiscoveryError (P : Platform) (error : JsError) : M (list Grant) :=
  Gemini.addLog P App.onLog ("Error during discovery: " +:+ err_message error) ERROR ;;
  throw error.

(** A grounding chunk whose address the URL parser is given and
    refuses. *)
Definition bad_source (P : Platform) (chunk : GroundingChunk) : Prop :=
  exists w u, web chunk = Some w /\ uri w = Some u /\ truthy u = true
              /\ hostname_of P u = None.

(** Two outcomes are alike when both return, with related values, or
    both throw the same error; two computations are alike when their
    outcomes are, from whatever states they are run. *)
Definition alike {A} (eqv : A -> A -> Prop) (o o' : Outcome A) : Prop :=
  match o, o' with
  | Return a, Return a' => eqv a a'
  | Throw e, Throw e' => e = e'
  | _, _ => False
  end.

Definition Alike {A} (eqv : A -> A -> Prop) (m m' : M A) : Prop :=
  forall h k, alike eqv (snd (m h)) (snd (m' k)).

Definition same_titles (gs gs' : list Grant) : Prop :=
  map App.lowerTitle gs = map App.lowerTitle gs'.

(** The slice the parse step takes from a text. *)
Definition slice (l : list ascii) : list ascii :=
  JsString.substring l (JsString.indexOf l "[") (JsString.lastIndexOf l "]" + 1).

(** The identifiers of the log are values of [uuidv4], drawn at
    different calls already made. *)
Definition log_ids_drawn (P : Platform) (h : Host) : Prop :=
  exists calls : list nat,
    map log_id (logs h) = map (uuidv4_nth P) calls
    /\ NoDup calls
    /\ Forall (fun i => i < uuid_calls h) calls.

(** A step keeps the identifiers of the log drawn. *)
Definition ids_kept (P : Platform) (h h' : Host) : Prop :=
  log_ids_drawn P h -> log_ids_drawn P h'.

Module Cases.

(** A platform without API key. *)
Definition keyless : Platform :=
  {| API_KEY := None;
     uuidv4_nth := uuidv4_nth Demo.platform;
     random_nth := random_nth Demo.platform;
     clock_nth := clock_nth Demo.platform;
     fl := fl Demo.platform;
     hostname_of := hostname_of Demo.platform;
     display := display Demo.platform;
     fault_message := fault_message Demo.platform |}.

(** A platform whose URL parser refuses every address. *)
Definition strict_urls : Platform :=
  {| API_KEY := API_KEY Demo.platform;
     uuidv4_nth := uuidv4_nth Demo.platform;
     random_nth := random_nth Demo.platform;
     clock_nth := clock_nth Demo.platform;
     fl := fl Demo.platform;
     hostname_of := fun _ => None;
     display := display Demo.platform;
     fault_message := fault_message Demo.platform |}.

(** A batch whose second element has no title. *)
Definition batch_untitled : string :=
  Demo.quoted "[{'program_title':'B'},{'agency_name':'X'}]".

Definition source (u : string) : GroundingChunk :=
  {| web := Some {| uri := Some u; title := Some "page" |} |}.

(** A world that answers with the text [t] and the grounding chunks
    [chunks]. *)
Definition grounded (t : option string) (chunks : list GroundingChunk) : World :=
  {| generateContent := fun _ => inr {| text := t; groundingChunks := Some chunks |};
     sendNotification := fun _ _ => Demo.delivered |}.

(** A configuration with notifications switched off. *)
Definition muted : SearchConfig :=
  {| keywords := keywords Demo.config; year := year Demo.config;
     emailRecipient := emailRecipient Demo.config; notificationEnabled := false |}.

(** A host that has a log from an earlier run. *)
Definition used : Host :=
  {| isScanning := false;
     logs := [{| log_id := "old"; timestamp := "then"; level := INFO;
                 message := "earlier" |}];
     grants := [Demo.grant_titled "A"];
     uuid_calls := 0; random_calls := 0; clock_calls := 0; effects := [] |}.

Definition editor : Sidebar.State :=
  {| Sidebar.config := Demo.config; Sidebar.newKeyword := "  climate  " |}.

End Cases.

(** * Properties *)

(** ** Facts on the string operations *)

Module TextFacts.

Import JsString.

Lemma chars_append (a b : string) : chars (a +:+ b) = chars a ++ chars b.
Proof.
  unfold chars. induction a as [|c a IH]; simpl; [reflexivity|].
  now rewrite IH.
Qed.

Lemma dropWhile_app_stop {A} (p : A -> bool) (l : list A) x r :
  p x = false -> dropWhile p (l ++ x :: r) = dropWhile p l ++ x :: r.
Proof.
  intros Hx. induction l as [|y l IH]; simpl.
  - now rewrite Hx.
  - destruct (p y); [exact IH | reflexivity].
Qed.

Lemma dropWhile_In {A} (p : A -> bool) (l : list A) x :
  In x (dropWhile p l) -> In x l.
Proof.
  induction l as [|y l IH]; simpl; [tauto|].
  destruct (p y); simpl; intuition.
Qed.

Lemma find_first_None c l : find_first c l = None <-> ~ In c l.
Proof.
  induction l as [|x l IH]; simpl; [tauto|].
  destruct (Ascii.eqb_spec x c) as [->|Hne].
  - split; [discriminate | intros H; exfalso; apply H; now left].
  - destruct (find_first c l) as [n|]; simpl.
    + split; [discriminate|]. intros H. exfalso.
      assert (Hn : ~ In c l) by tauto. apply IH in Hn. discriminate.
    + split; [|reflexivity]. intros _ [H|H]; [congruence|]. now apply IH.
Qed.

Lemma find_first_app c p r :
  ~ In c p -> find_first c (p ++ c :: r) = Some (length p).
Proof.
  induction p as [|x p IH]; simpl; intros Hp.
  - now rewrite Ascii.eqb_refl.
  - destruct (Ascii.eqb_spec x c) as [->|Hne]; [tauto|].
    rewrite IH by tauto. reflexivity.
Qed.

Lemma find_first_Some c l i :
  find_first c l = Some i ->
  exists p r, l = p ++ c :: r /\ length p = i /\ ~ In c p.
Proof.
  revert i. induction l as [|x l IH]; simpl; intros i; [discriminate|].
  destruct (Ascii.eqb_spec x c) as [->|Hne].
  - intros [= <-]. exists [], l. simpl. tauto.
  - destruct (find_first c l) as [n|]; simpl; [|discriminate].
    intros [= <-]. destruct (IH n eq_refl) as (p & r & -> & <- & Hp).
    exists (x :: p), r. simpl. split; [reflexivity|]. split; [reflexivity|].
    intros [H|H]; tauto.
Qed.

Lemma find_last_None c l : find_last c l = None <-> ~ In c l.
Proof.
  unfold find_last. rewrite in_rev.
  rewrite <- find_first_None. destruct (find_first c (rev l)); simpl; split; congruence.
Qed.

Lemma find_last_app c p r :
  ~ In c r -> find_last c (p ++ c :: r) = Some (length p).
Proof.
  intros Hr. unfold find_last.
  rewrite rev_app_distr. simpl. rewrite <- app_assoc. simpl.
  rewrite find_first_app by (now rewrite <- in_rev).
  simpl. f_equal. rewrite length_app, length_rev. simpl. lia.
Qed.

Lemma find_last_Some c l j :
  find_last c l = Some j ->
  exists p r, l = p ++ c :: r /\ length p = j /\ ~ In c r.
Proof.
  unfold find_last. destruct (find_first c (rev l)) as [i|] eqn:E; simpl; [|discriminate].
  intros [= <-]. destruct (find_first_Some _ _ _ E) as (p & r & Hl & <- & Hp).
  apply (f_equal (@rev ascii)) in Hl. rewrite rev_involutive in Hl.
  rewrite rev_app_distr in Hl. simpl in Hl. rewrite <- app_assoc in Hl. simpl in Hl.
  exists (rev r), (rev p). split; [exact Hl|]. split.
  - subst l. rewrite length_app. simpl. rewrite !length_rev. lia.
  - now rewrite <- in_rev.
Qed.

Lemma substring_span l (i j : nat) :
  i <= j -> j <= length l ->
  substring l (Z.of_nat i) (Z.of_nat j) = take (j - i) (drop i l).
Proof.
  intros Hij Hj. unfold substring.
  replace (Z.min (Z.max (Z.of_nat i) 0) (Z.of_nat (length l))) with (Z.of_nat i) by lia.
  replace (Z.min (Z.max (Z.of_nat j) 0) (Z.of_nat (length l))) with (Z.of_nat j) by lia.
  replace (Z.min (Z.of_nat i) (Z.of_nat j)) with (Z.of_nat i) by lia.
  replace (Z.max (Z.of_nat i) (Z.of_nat j)) with (Z.of_nat j) by lia.
  rewrite Nat2Z.id. f_equal. lia.
Qed.

Lemma substring_swapped l (i j : nat) :
  j <= i -> i <= length l ->
  substring l (Z.of_nat i) (Z.of_nat j) = take (i - j) (drop j l).
Proof.
  intros Hij Hj. unfold substring.
  replace (Z.min (Z.max (Z.of_nat i) 0) (Z.of_nat (length l))) with (Z.of_nat i) by lia.
  replace (Z.min (Z.max (Z.of_nat j) 0) (Z.of_nat (length l))) with (Z.of_nat j) by lia.
  replace (Z.min (Z.of_nat i) (Z.of_nat j)) with (Z.of_nat j) by lia.
  replace (Z.max (Z.of_nat i) (Z.of_nat j)) with (Z.of_nat i) by lia.
  rewrite Nat2Z.id. f_equal. lia.
Qed.

Lemma carries_rev a b j l : carries a b j l -> carries b a (rev j) (rev l).
Proof.
  intros (p & s & -> & Hp & Hs). exists (rev s), (rev p).
  rewrite !rev_app_distr, <- app_assoc, <- !in_rev. tauto.
Qed.

Lemma delimited_rev a b j : delimited a b j -> delimited b a (rev j).
Proof.
  intros (body & ->). exists (rev body). simpl.
  now rewrite rev_app_distr.
Qed.

Lemma carries_dropWhile f a b j l :
  f a = false -> delimited a b j -> carries a b j l ->
  carries a b j (dropWhile f l).
Proof.
  intros Hf (body & ->) (p & s & -> & Hp & Hs).
  exists (dropWhile f p), s. split; [|split; [|exact Hs]].
  - simpl. now rewrite dropWhile_app_stop.
  - intros H. apply Hp. now apply dropWhile_In in H.
Qed.

Lemma carries_drop a b j l n :
  ~ In a (take n l) -> n <= length l -> delimited a b j -> carries a b j l ->
  carries a b j (drop n l).
Proof.
  intros Hn Hlen (body & ->) (p & s & -> & Hp & Hs).
  assert (Hle : n <= length p).
  { destruct (le_lt_dec n (length p)) as [|Hlt]; [assumption|]. exfalso. apply Hn.
    apply list_elem_of_In, list_elem_of_lookup. exists (length p).
    rewrite lookup_take_lt by assumption.
    rewrite lookup_app_r by lia. now rewrite Nat.sub_diag. }
  exists (drop n p), s. split; [|split; [|exact Hs]].
  - rewrite drop_app_le by assumption. reflexivity.
  - intros H. apply Hp. rewrite <- (take_drop n p). apply in_or_app. now right.
Qed.

Lemma wraps_trim j l : bracketed j -> wraps j l -> wraps j (trim l).
Proof.
  intros Hj Hl. unfold trim, trimEnd, trimStart.
  rewrite <- (rev_involutive j). apply carries_rev.
  apply carries_dropWhile; [reflexivity | now apply delimited_rev |].
  apply carries_rev. now apply carries_dropWhile.
Qed.

Lemma wraps_replace_opening_fence j l :
  bracketed j -> wraps j l -> wraps j (replace_opening_fence l).
Proof.
  intros Hj Hl. unfold replace_opening_fence.
  destruct (decide (take 7 l = opening_fence)) as [E|_]; [|exact Hl].
  apply carries_dropWhile; [reflexivity | exact Hj |].
  apply carries_drop; try assumption.
  - rewrite E. unfold opening_fence. simpl. intuition discriminate.
  - assert (H7 : length (take 7 l) = 7) by (rewrite E; reflexivity).
    rewrite length_take in H7. lia.
Qed.

Lemma wraps_replace_closing_fence j l :
  bracketed j -> wraps j l -> wraps j (replace_closing_fence l).
Proof.
  intros Hj Hl. unfold replace_closing_fence.
  destruct (decide (take 3 (rev l) = closing_fence)) as [E|_]; [|exact Hl].
  rewrite <- (rev_involutive j). apply carries_rev.
  apply carries_dropWhile; [reflexivity | now apply delimited_rev |].
  apply carries_drop; [| | now apply delimited_rev | now apply carries_rev].
  - rewrite E. unfold closing_fence. simpl. intuition discriminate.
  - assert (H3 : length (take 3 (rev l)) = 3) by (rewrite E; reflexivity).
    rewrite length_take in H3. lia.
Qed.

Lemma wraps_cleanJson j text :
  bracketed j -> wraps j (chars text) -> wraps j (Gemini.cleanJson text).
Proof.
  intros Hj Hl. unfold Gemini.cleanJson.
  now apply wraps_replace_closing_fence, wraps_replace_opening_fence, wraps_trim.
Qed.

(** In a text that wraps a bracketed [j], the two bracket positions
    are found and the slice between them is [j]. *)
Lemma wraps_slice j l :
  bracketed j -> wraps j l ->
  indexOf l "[" <> (-1)%Z /\ lastIndexOf l "]" <> (-1)%Z
  /\ substring l (indexOf l "[") (lastIndexOf l "]" + 1) = j.
Proof.
  intros (body & ->) (p & s & -> & Hp & Hs).
  unfold indexOf, lastIndexOf.
  assert (E1 : find_first "[" (p ++ ("["%char :: body ++ ["]"%char]) ++ s)
               = Some (length p)).
  { simpl. now apply find_first_app. }
  assert (E2 : find_last "]" (p ++ ("["%char :: body ++ ["]"%char]) ++ s)
               = Some (length (p ++ "["%char :: body))).
  { replace (p ++ ("["%char :: body ++ ["]"%char]) ++ s)
      with ((p ++ "["%char :: body) ++ "]"%char :: s)
      by (repeat (rewrite <- app_assoc; simpl); reflexivity).
    now apply find_last_app. }
  rewrite E1, E2. split; [lia|]. split; [lia|].
  replace (Z.of_nat (length (p ++ "["%char :: body)) + 1)%Z
    with (Z.of_nat (S (length (p ++ "["%char :: body)))) by lia.
  rewrite substring_span.
  - rewrite drop_app_length. rewrite length_app. simpl.
    replace (S (length p + S (length body)) - length p)
      with (length ("["%char :: body ++ ["]"%char])) by (simpl; rewrite length_app; simpl; lia).
    apply (take_app_length ("["%char :: body ++ ["]"%char]) s).
  - rewrite length_app. lia.
  - rewrite !length_app. simpl. rewrite length_app. simpl. lia.
Qed.

End TextFacts.

(** ** Facts on [JSON.parse] *)

Module JsonFacts.

Import Json.

Lemma parse_empty fl : parse fl [] = None.
Proof. reflexivity. Qed.

Lemma number_is_number fl l v r : number fl l = Some (v, r) -> exists q, v = JNumber q.
Proof.
  unfold number.
  repeat match goal with
         | |- context [match ?x with _ => _ end] => destruct x
         | |- context [if ?x then _ else _] => destruct x
         end;
    intros [= <- <-] || discriminate; eauto.
Qed.

Lemma literal_is_value w v0 l v r : literal w v0 l = Some (v, r) -> v = v0.
Proof. unfold literal. destruct (decide _); [now intros [= <- <-] | discriminate]. Qed.

(** A value is an array exactly when its first character after the
    whitespace is an opening bracket. *)
Lemma value_array_iff fl fuel l v r :
  value fl fuel l = Some (v, r) ->
  (exists vs, v = JArray vs) <-> (exists r0, skip_ws l = "["%char :: r0).
Proof.
  destruct fuel as [|fuel]; [discriminate|].
  cbn [value]. destruct (skip_ws l) as [|c r0] eqn:E; [discriminate|].
  destruct c as [[] [] [] [] [] [] [] []];
    cbn -[number literal elements members string_body skip_ws Chars.isDigit];
    intros H;
    try discriminate;
    try (apply number_is_number in H; destruct H as [q ->];
         split; intros [? [=]]);
    try (apply literal_is_value in H; subst v; split; intros [? [=]]).
  all: repeat match type of H with
         | context [match ?x with _ => _ end] => destruct x
         end; try discriminate; injection H as <- <-;
       solve [split; intros [? [=]]] || (split; intros _; eauto).
Qed.

Lemma skip_ws_In l c r0 : skip_ws l = c :: r0 -> In c l.
Proof.
  intros E. apply (TextFacts.dropWhile_In Chars.isJsonSpace). fold (skip_ws l).
  rewrite E. now left.
Qed.

(** The text of an array contains an opening bracket. *)
Lemma parse_array_bracket fl l vs : parse fl l = Some (JArray vs) -> In "["%char l.
Proof.
  unfold parse. destruct (value fl (S (length l)) l) as [[v r]|] eqn:E; [|discriminate].
  destruct (skip_ws r); [|discriminate]. intros [= ->].
  apply value_array_iff in E. destruct (proj1 E) as [r0 Hr0]; [eauto|].
  eapply skip_ws_In, Hr0.
Qed.

(** A text that starts with an opening bracket parses to an array or
    not at all. *)
Lemma parse_bracket_array fl r v :
  parse fl ("["%char :: r) = Some v -> exists vs, v = JArray vs.
Proof.
  unfold parse.
  destruct (value fl (S (length ("["%char :: r))) ("["%char :: r)) as [[v' r']|] eqn:E;
    [|discriminate].
  destruct (skip_ws r'); [|discriminate]. intros [= ->].
  apply value_array_iff in E. apply E. now exists r.
Qed.

End JsonFacts.

(** ** The fuel of the JSON reader *)

Module FuelFacts.

Import Json.

Lemma dropWhile_length {A} (p : A -> bool) (l : list A) :
  length (dropWhile p l) <= length l.
Proof. induction l as [|x l IH]; simpl; [lia|]. destruct (p x); simpl; lia. Qed.

Lemma takeWhile_dropWhile_length {A} (p : A -> bool) (l : list A) :
  length (takeWhile p l) + length (dropWhile p l) = length l.
Proof. induction l as [|x l IH]; simpl; [lia|]. destruct (p x); simpl; lia. Qed.

Lemma skip_ws_length l : length (skip_ws l) <= length l.
Proof. apply dropWhile_length. Qed.

Lemma string_body_shorter l cs r : string_body l = Some (cs, r) -> length r < length l.
Proof.
  remember (length l) as n eqn:Hn. revert l cs r Hn.
  induction n as [n IH] using lt_wf_ind. intros l cs r -> H.
  destruct l as [|c l]; [discriminate|].
  assert (Hplain : forall c' l' cs' r',
            length l' < length (c :: l) ->
            match string_body l' with
            | Some (cs0, rest) => Some (c' :: cs0, rest)
            | None => None
            end = Some (cs', r') -> length r' < length (c :: l)).
  { intros c' l' cs' r' Hl' E.
    destruct (string_body l') as [[cs0 rest]|] eqn:E'; [|discriminate].
    injection E as _ <-. pose proof (IH _ Hl' _ _ _ eq_refl E'). lia. }
  cbn [string_body] in H.
  destruct c as [[] [] [] [] [] [] [] []];
    try (injection H as _ <-; simpl; lia);
    try (destruct (N_of_ascii _ <? 32)%N; [discriminate|];
         eapply Hplain; [|exact H]; simpl; lia).
  destruct l as [|e l].
  - destruct (N_of_ascii _ <? 32)%N; [discriminate|].
    simpl in H. discriminate.
  - destruct e as [[] [] [] [] [] [] [] []]; try discriminate;
      try (eapply Hplain; [|exact H]; simpl; lia).
    destruct l as [|h1 [|h2 [|h3 [|h4 l]]]]; try discriminate.
    destruct (Chars.hexValue h1), (Chars.hexValue h2), (Chars.hexValue h3),
      (Chars.hexValue h4); try discriminate.
    destruct (_ <? 256)%N; [|discriminate].
    eapply Hplain; [|exact H]. simpl. lia.
Qed.

Lemma number_shorter fl l v r : number fl l = Some (v, r) -> length r < length l.
Proof.
  unfold number.
  assert (H1 : exists neg l1,
            match l with
            | "-"%char :: r0 => (true, r0)
            | _ => (false, l)
            end = (neg, l1) /\ length l1 <= length l).
  { destruct l as [|[[] [] [] [] [] [] [] []] r0]; eexists _, _;
      (split; [reflexivity | simpl; lia]). }
  destruct H1 as (neg & l1 & -> & Hl1).
  pose proof (takeWhile_dropWhile_length Chars.isDigit l1) as Hsplit.
  destruct (takeWhile Chars.isDigit l1) as [|d ds] eqn:Eip; [discriminate|].
  simpl in Hsplit.
  destruct (Ascii.eqb d "0" && negb match ds with [] => true | _ => false end).
  { intros [= _ <-]. rewrite length_app. lia. }
  set (l2 := dropWhile Chars.isDigit l1) in *.
  assert (H2 : exists fp l3 okf,
            match l2 with
            | "."%char :: r0 =>
                (takeWhile Chars.isDigit r0, dropWhile Chars.isDigit r0,
                 negb match takeWhile Chars.isDigit r0 with [] => true | _ => false end)
            | _ => ([], l2, true)
            end = (fp, l3, okf) /\ length l3 <= length l2).
  { destruct l2 as [|[[] [] [] [] [] [] [] []] r0]; eexists _, _, _;
      (split; [reflexivity | simpl; try lia]).
    pose proof (dropWhile_length Chars.isDigit r0). lia. }
  destruct H2 as (fp & l3 & okf & -> & Hl3).
  assert (H3 : exists ex l4 oke,
            match l3 with
            | [] => (0%Z, l3, true)
            | c :: r0 =>
                if Ascii.eqb c "e" || Ascii.eqb c "E"
                then
                  let '(eneg, r1) :=
                    match r0 with
                    | "-"%char :: r' => (true, r')
                    | "+"%char :: r' => (false, r')
                    | _ => (false, r0)
                    end in
                  ((if eneg then (- digits_value (takeWhile Chars.isDigit r1))%Z
                    else digits_value (takeWhile Chars.isDigit r1)),
                   dropWhile Chars.isDigit r1,
                   negb match takeWhile Chars.isDigit r1 with [] => true | _ => false end)
                else (0%Z, l3, true)
            end = (ex, l4, oke) /\ length l4 <= length l3).
  { destruct l3 as [|c r0]; [eexists _, _, _; split; [reflexivity | lia]|].
    destruct (Ascii.eqb c "e" || Ascii.eqb c "E");
      [|eexists _, _, _; split; [reflexivity | lia]].
    assert (H4 : exists eneg r1,
              match r0 with
              | "-"%char :: r' => (true, r')
              | "+"%char :: r' => (false, r')
              | _ => (false, r0)
              end = (eneg, r1) /\ length r1 <= length r0).
    { destruct r0 as [|[[] [] [] [] [] [] [] []] r']; eexists _, _;
        (split; [reflexivity | simpl; lia]). }
    destruct H4 as (eneg & r1 & -> & Hr1).
    eexists _, _, _. split; [reflexivity|].
    pose proof (dropWhile_length Chars.isDigit r1). simpl. lia. }
  destruct H3 as (ex & l4 & oke & -> & Hl4).
  destruct (okf && oke); [|discriminate].
  intros [= _ <-]. lia.
Qed.

Lemma literal_shorter w v0 l v r :
  w <> EmptyString -> literal w v0 l = Some (v, r) -> length r < length l.
Proof.
  intros Hw. unfold literal. destruct (decide _) as [E|]; [|discriminate].
  intros [= _ <-]. apply (f_equal (@length ascii)) in E.
  rewrite length_take in E. rewrite length_drop.
  assert (0 < length (list_ascii_of_string w)) by (destruct w; simpl; [congruence | lia]).
  lia.
Qed.

Lemma value_step fl n : elements_ok fl n -> members_ok fl n -> value_ok fl (S n).
Proof.
  intros IHe IHm l v r H. cbn [value] in H.
  pose proof (skip_ws_length l) as Hws.
  destruct (skip_ws l) as [|c r0] eqn:E; [discriminate|]. simpl in Hws.
  assert (Hfree : forall (b : option (JValue * list ascii)),
            b = Some (v, r) -> length r < length (c :: r0) ->
            (forall m', value fl (S m') l = b) ->
            length r < length l
            /\ forall m, length l - length r <= m -> value fl m l = Some (v, r)).
  { intros b Hb Hr Hm. simpl in Hr. split; [lia|]. intros [|m'] Hle; [lia|].
    rewrite <- Hb. apply Hm. }
  destruct c as [[] [] [] [] [] [] [] []];
    cbn -[number literal elements members string_body skip_ws] in H;
    try match type of H with
        | context [Chars.isDigit ?c] =>
            let b := eval vm_compute in (Chars.isDigit c) in
            change (Chars.isDigit c) with b in H; cbv iota in H
        end;
    try discriminate;
    try (apply (Hfree _ H);
         [ first [ apply number_shorter in H; exact H
                 | apply literal_shorter in H; [exact H | discriminate]
                 | destruct (string_body r0) as [[cs r']|] eqn:Es; [|discriminate];
                   injection H as _ <-; apply string_body_shorter in Es; simpl; lia ]
         | intros m'; cbn [value]; rewrite E; reflexivity ]).
  - (* an object *)
    destruct (skip_ws r0) as [|c2 r2] eqn:E2;
      [|destruct c2 as [[] [] [] [] [] [] [] []]];
      try (destruct (members fl n r0) as [[ms r']|] eqn:Em; [|discriminate];
           injection H as <- <-; destruct (IHm _ _ _ Em) as [Hlt Hm];
           split; [lia|]; intros [|m'] Hle; [lia|];
           cbn [value]; rewrite E; cbn -[members skip_ws]; rewrite E2;
           cbn -[members skip_ws]; rewrite Hm by lia; reflexivity).
    injection H as <- <-. pose proof (skip_ws_length r0) as Hws2.
    rewrite E2 in Hws2. simpl in Hws2.
    split; [lia|]. intros [|m'] Hle; [lia|].
    cbn [value]. rewrite E. cbn -[members skip_ws]. now rewrite E2.
  - (* an array *)
    destruct (skip_ws r0) as [|c2 r2] eqn:E2;
      [|destruct c2 as [[] [] [] [] [] [] [] []]];
      try (destruct (elements fl n r0) as [[vs r']|] eqn:Ee; [|discriminate];
           injection H as <- <-; destruct (IHe _ _ _ Ee) as [Hlt Hm];
           split; [lia|]; intros [|m'] Hle; [lia|];
           cbn [value]; rewrite E; cbn -[elements skip_ws]; rewrite E2;
           cbn -[elements skip_ws]; rewrite Hm by lia; reflexivity).
    injection H as <- <-. pose proof (skip_ws_length r0) as Hws2.
    rewrite E2 in Hws2. simpl in Hws2.
    split; [lia|]. intros [|m'] Hle; [lia|].
    cbn [value]. rewrite E. cbn -[elements skip_ws]. now rewrite E2.
Qed.

Lemma elements_step fl n : value_ok fl n -> elements_ok fl n -> elements_ok fl (S n).
Proof.
  intros IHv IHe l vs r H. cbn [elements] in H.
  destruct (value fl n l) as [[v r1]|] eqn:Ev; [|discriminate].
  destruct (IHv _ _ _ Ev) as [Hlt1 Hm1].
  pose proof (skip_ws_length r1) as Hws.
  destruct (skip_ws r1) as [|c r2] eqn:E; [discriminate|]. simpl in Hws.
  destruct c as [[] [] [] [] [] [] [] []]; try discriminate.
  - (* the closing bracket *)
    injection H as <- <-. split; [lia|]. intros [|m'] Hle; [lia|].
    cbn [elements]. rewrite Hm1 by lia. now rewrite E.
  - (* a comma *)
    destruct (elements fl n r2) as [[vs' r3]|] eqn:Ee; [|discriminate].
    injection H as <- <-. destruct (IHe _ _ _ Ee) as [Hlt2 Hm2].
    split; [lia|]. intros [|m'] Hle; [lia|].
    cbn [elements]. rewrite Hm1 by lia. rewrite E. now rewrite Hm2 by lia.
Qed.

Lemma members_step fl n : value_ok fl n -> members_ok fl n -> members_ok fl (S n).
Proof.
  intros IHv IHm l ms r H. cbn [members] in H.
  pose proof (skip_ws_length l) as Hws0.
  destruct (skip_ws l) as [|c0 r0] eqn:E0; [discriminate|]. simpl in Hws0.
  destruct c0 as [[] [] [] [] [] [] [] []]; try discriminate.
  destruct (string_body r0) as [[k r1]|] eqn:Es; [|discriminate].
  pose proof (string_body_shorter _ _ _ Es) as Hlt0.
  pose proof (skip_ws_length r1) as Hws1.
  destruct (skip_ws r1) as [|c1 r2] eqn:E1; [discriminate|]. simpl in Hws1.
  destruct c1 as [[] [] [] [] [] [] [] []]; try discriminate.
  destruct (value fl n r2) as [[v r3]|] eqn:Ev; [|discriminate].
  destruct (IHv _ _ _ Ev) as [Hlt1 Hm1].
  pose proof (skip_ws_length r3) as Hws.
  destruct (skip_ws r3) as [|c r4] eqn:E; [discriminate|]. simpl in Hws.
  destruct c as [[] [] [] [] [] [] [] []]; try discriminate.
  - (* the closing brace *)
    injection H as <- <-. split; [lia|]. intros [|m'] Hle; [lia|].
    cbn [members]. rewrite E0, Es, E1. rewrite Hm1 by lia. now rewrite E.
  - (* a comma *)
    destruct (members fl n r4) as [[ms' r5]|] eqn:Em; [|discriminate].
    injection H as <- <-. destruct (IHm _ _ _ Em) as [Hlt2 Hm2].
    split; [lia|]. intros [|m'] Hle; [lia|].
    cbn [members]. rewrite E0, Es, E1. rewrite Hm1 by lia. rewrite E.
    now rewrite Hm2 by lia.
Qed.

Lemma fuel_ok fl n : value_ok fl n /\ elements_ok fl n /\ members_ok fl n.
Proof.
  induction n as [|n (IHv & IHe & IHm)].
  - split; [|split]; intros l x r Hcall; discriminate Hcall.
  - split; [now apply value_step|]. split; [now apply elements_step | now apply members_step].
Qed.

(** The fuel that [parse] gives is never what makes it fail: a text that
    some fuel parses is parsed by [parse]. *)
Lemma parse_fuel_enough fl n l v r :
  value fl n l = Some (v, r) -> skip_ws r = [] -> parse fl l = Some v.
Proof.
  intros H Hr. destruct (proj1 (fuel_ok fl n) _ _ _ H) as [_ Hm].
  unfold parse. rewrite Hm by lia. now rewrite Hr.
Qed.

End FuelFacts.

(** ** Facts on the monad and on what a computation may change *)

Module RunFacts.

Lemma bind_Return {A B} (m : M A) (k : A -> M B) h h' a :
  m h = (h', Return a) -> bind m k h = k a h'.
Proof. unfold bind. now intros ->. Qed.

Lemma bind_Throw {A B} (m : M A) (k : A -> M B) h h' e :
  m h = (h', Throw e) -> bind m k h = (h', Throw e).
Proof. unfold bind. now intros ->. Qed.

Lemma quiet_refl h : quiet h h.
Proof.
  split; [reflexivity | reflexivity |].
  exists []. now rewrite app_nil_r.
Qed.

Lemma quiet_trans h1 h2 h3 : quiet h1 h2 -> quiet h2 h3 -> quiet h1 h3.
Proof.
  intros [G1 S1 (es1 & E1 & F1)] [G2 S2 (es2 & E2 & F2)].
  split; [congruence | congruence |].
  exists (es1 ++ es2). rewrite E2, E1, <- app_assoc. split; [reflexivity|].
  rewrite forallb_app. now rewrite F1, F2.
Qed.

Lemma Quiet_ret {A} (a : A) : Quiet (ret a).
Proof. intros h. apply quiet_refl. Qed.

Lemma Quiet_throw {A} e : Quiet (@throw A e).
Proof. intros h. apply quiet_refl. Qed.

Lemma Quiet_bind {A B} (m : M A) (k : A -> M B) :
  Quiet m -> (forall a, Quiet (k a)) -> Quiet (bind m k).
Proof.
  intros Hm Hk h. unfold bind. specialize (Hm h).
  destruct (m h) as [h' [a|e]]; simpl in *; [|exact Hm].
  eapply quiet_trans; [exact Hm | apply Hk].
Qed.

Lemma Quiet_try_catch {A} (m : M A) (k : JsError -> M A) :
  Quiet m -> (forall e, Quiet (k e)) -> Quiet (try_catch m k).
Proof.
  intros Hm Hk h. unfold try_catch. specialize (Hm h).
  destruct (m h) as [h' [a|e]]; simpl in *; [exact Hm|].
  eapply quiet_trans; [exact Hm | apply Hk].
Qed.

Lemma Quiet_mapM {A B} (f : A -> M B) l : (forall a, Quiet (f a)) -> Quiet (mapM f l).
Proof.
  intros Hf. induction l as [|x l IH]; simpl; [apply Quiet_ret|].
  apply Quiet_bind; [apply Hf|]. intros y.
  apply Quiet_bind; [exact IH|]. intros ys. apply Quiet_ret.
Qed.

Lemma Quiet_filterM {A} (p : A -> M bool) l : (forall a, Quiet (p a)) -> Quiet (filterM p l).
Proof.
  intros Hp. induction l as [|x l IH]; simpl; [apply Quiet_ret|].
  apply Quiet_bind; [apply Hp|]. intros b.
  apply Quiet_bind; [exact IH|]. intros ys. apply Quiet_ret.
Qed.

Lemma Quiet_forEach {A} (f : A -> nat -> M unit) l i :
  (forall a n, Quiet (f a n)) -> Quiet (forEach f l i).
Proof.
  intros Hf. revert i. induction l as [|x l IH]; intros i; simpl; [apply Quiet_ret|].
  apply Quiet_bind; [apply Hf | intros _; apply IH].
Qed.

Lemma Quiet_uuidv4 P : Quiet (uuidv4 P).
Proof. intros h. split; simpl; try reflexivity. exists []. now rewrite app_nil_r. Qed.

Lemma Quiet_Math_random P : Quiet (Math_random P).
Proof. intros h. split; simpl; try reflexivity. exists []. now rewrite app_nil_r. Qed.

Lemma Quiet_toLocaleTimeString P : Quiet (toLocaleTimeString P).
Proof. intros h. split; simpl; try reflexivity. exists []. now rewrite app_nil_r. Qed.

Lemma Quiet_setLogs f : Quiet (setLogs f).
Proof. intros h. split; simpl; try reflexivity. exists []. now rewrite app_nil_r. Qed.

Lemma Quiet_perform e : notification e = false -> Quiet (perform e).
Proof.
  intros He h. split; simpl; try reflexivity. exists [e]. split; [reflexivity|].
  simpl. now rewrite He.
Qed.

Create HintDb quiet.
#[export] Hint Resolve Quiet_ret Quiet_throw Quiet_uuidv4 Quiet_Math_random
  Quiet_toLocaleTimeString Quiet_setLogs : quiet.

Ltac quiet_step :=
  first
    [ apply Quiet_bind; [|intros ?]
    | apply Quiet_try_catch; [|intros ?]
    | apply Quiet_mapM; intros ?
    | apply Quiet_filterM; intros ?
    | apply Quiet_forEach; intros ? ?
    | apply Quiet_perform; reflexivity
    | solve [auto with quiet] ].

Lemma Quiet_onLog log : Quiet (App.onLog log).
Proof. apply Quiet_setLogs. Qed.

Lemma Quiet_App_addLog P msg lvl : Quiet (App.addLog P msg lvl).
Proof. unfold App.addLog. repeat quiet_step. Qed.

Lemma Quiet_Gemini_addLog P msg lvl : Quiet (Gemini.addLog P App.onLog msg lvl).
Proof. unfold Gemini.addLog. repeat quiet_step. apply Quiet_onLog. Qed.

#[export] Hint Resolve Quiet_onLog Quiet_App_addLog Quiet_Gemini_addLog : quiet.

Lemma Quiet_toGrant P item : Quiet (Gemini.toGrant P item).
Proof. unfold Gemini.toGrant. repeat quiet_step. Qed.

Lemma Quiet_parseGrants P text : Quiet (Gemini.parseGrants P App.onLog text).
Proof.
  unfold Gemini.parseGrants.
  destruct (_ || _).
  - repeat quiet_step.
  - destruct (Json.parse _ _) as [v|]; [|auto with quiet].
    repeat quiet_step. destruct v; auto with quiet.
    apply Quiet_mapM. intros ?. apply Quiet_toGrant.
Qed.

Lemma Quiet_logChunk P chunk idx : Quiet (Gemini.logChunk P App.onLog chunk idx).
Proof.
  unfold Gemini.logChunk.
  repeat match goal with
         | |- context [match ?x with _ => _ end] => destruct x
         end; auto with quiet.
Qed.

Lemma Quiet_discoverGrants P W config :
  Quiet (Gemini.discoverGrants P W config App.onLog).
Proof.
  unfold Gemini.discoverGrants, Gemini.getClient, Gemini.await_generateContent.
  repeat quiet_step.
  - destruct (truthy_opt _); auto with quiet.
  - destruct (generateContent _ _); auto with quiet.
  - destruct (groundingChunks _); [|auto with quiet].
    repeat quiet_step. apply Quiet_logChunk.
  - destruct (text _) as [t|]; [|auto with quiet].
    destruct (truthy t); [apply Quiet_parseGrants | auto with quiet].
Qed.

End RunFacts.

(** ** The parse step *)

Module ParseProps.

Import JsString TextFacts JsonFacts RunFacts.

Lemma toGrant_run P item h :
  exists h', Gemini.toGrant P item h
             = (h', Return (grantOf P (uuid_calls h) (random_calls h) item))
    /\ uuid_calls h' = S (uuid_calls h) /\ random_calls h' = S (random_calls h).
Proof. eexists. split; [reflexivity|]. split; reflexivity. Qed.

(** Building the Grants never throws. *)
Lemma mapM_toGrant_run P items h :
  exists h', mapM (Gemini.toGrant P) items h
             = (h', Return (grantsOf P (uuid_calls h) (random_calls h) items)).
Proof.
  revert h. induction items as [|item items IH]; intros h; simpl.
  - eexists. reflexivity.
  - destruct (toGrant_run P item h) as (h1 & E1 & U1 & R1).
    rewrite (bind_Return _ _ _ _ _ E1).
    destruct (IH h1) as (h2 & E2). rewrite (bind_Return _ _ _ _ _ E2).
    rewrite U1, R1. eexists. reflexivity.
Qed.

Lemma addLog_run P msg lvl h :
  exists h', Gemini.addLog P App.onLog msg lvl h = (h', Return tt)
    /\ uuid_calls h' = S (uuid_calls h) /\ random_calls h' = random_calls h.
Proof. eexists. split; [reflexivity|]. split; reflexivity. Qed.

(** The parse step when a bracket is missing. *)
Lemma parseGrants_no_bracket P text h :
  let c := Gemini.cleanJson text in
  indexOf c "[" = (-1)%Z \/ lastIndexOf c "]" = (-1)%Z ->
  exists h', Gemini.parseGrants P App.onLog text h
             = (h', Throw (new_Error "Invalid JSON format received from AI")).
Proof.
  intros c Hc. unfold Gemini.parseGrants. fold c.
  assert (E : ((indexOf c "[" =? -1)%Z || (lastIndexOf c "]" =? -1)%Z) = true).
  { destruct Hc as [-> | ->]; [reflexivity | apply orb_true_r]. }
  rewrite E. eexists. reflexivity.
Qed.

(** The parse step when both brackets are there: it succeeds exactly on
    a slice that parses to an array. *)
Lemma parseGrants_sliced P text h :
  let c := Gemini.cleanJson text in
  let slice := substring c (indexOf c "[") (lastIndexOf c "]" + 1) in
  indexOf c "[" <> (-1)%Z -> lastIndexOf c "]" <> (-1)%Z ->
  match Json.parse (fl P) slice with
  | Some (JArray items) =>
      exists h', Gemini.parseGrants P App.onLog text h
                 = (h', Return (grantsOf P (S (uuid_calls h)) (random_calls h) items))
  | Some _ =>
      exists h', Gemini.parseGrants P App.onLog text h
                 = (h', Throw (engine_error P TypeError (BadCall "parsedData.map")))
  | None =>
      Gemini.parseGrants P App.onLog text h
      = (h, Throw (engine_error P SyntaxError (BadJson slice)))
  end.
Proof.
  intros c slice H1 H2. unfold Gemini.parseGrants. fold c.
  apply Z.eqb_neq in H1, H2. rewrite H1, H2. cbn [orb]. fold slice.
  destruct (Json.parse (fl P) slice) as [v|]; [|reflexivity].
  destruct v as [| b | n | s0 | items | ms];
    try solve [eexists; reflexivity].
  destruct (addLog_run P
              ("Successfully extracted " +:+ Gemini.show_length P (JArray items)
                 +:+ " opportunities.") SUCCESS h) as (h1 & E1 & U1 & R1).
  rewrite (bind_Return _ _ _ _ _ E1).
  destruct (mapM_toGrant_run P items h1) as (h2 & E2). rewrite E2, U1, R1.
  eexists. reflexivity.
Qed.

(** Whatever the parse step returns was built from the elements of the
    array its slice parses to. *)
Lemma parseGrants_Return P text h h' gs :
  Gemini.parseGrants P App.onLog text h = (h', Return gs) ->
  exists items,
    Json.parse (fl P)
      (substring (Gemini.cleanJson text) (indexOf (Gemini.cleanJson text) "[")
         (lastIndexOf (Gemini.cleanJson text) "]" + 1))
    = Some (JArray items)
    /\ gs = grantsOf P (S (uuid_calls h)) (random_calls h) items.
Proof.
  intros H. set (c := Gemini.cleanJson text).
  destruct (Z.eq_dec (indexOf c "[") (-1)%Z) as [E1|N1].
  { destruct (parseGrants_no_bracket P text h (or_introl E1)) as (h1 & E).
    rewrite E in H. discriminate. }
  destruct (Z.eq_dec (lastIndexOf c "]") (-1)%Z) as [E2|N2].
  { destruct (parseGrants_no_bracket P text h (or_intror E2)) as (h1 & E).
    rewrite E in H. discriminate. }
  pose proof (parseGrants_sliced P text h N1 N2) as Hs. cbv zeta in Hs. fold c in Hs.
  destruct (Json.parse _ _) as [v|]; [|rewrite Hs in H; discriminate].
  destruct v as [| b | n | s0 | items | ms];
    destruct Hs as (h1 & E); rewrite E in H; try discriminate.
  injection H as _ <-. now exists items.
Qed.

Lemma bind_Return_inv {A B} (m : M A) (k : A -> M B) h h' b :
  bind m k h = (h', Return b) ->
  exists h1 a, m h = (h1, Return a) /\ k a h1 = (h', Return b).
Proof.
  unfold bind. destruct (m h) as [h1 [a|e]]; [eauto | discriminate].
Qed.

Lemma try_catch_rethrow_inv {A} (m : M A) (l : JsError -> M unit) h h' a :
  try_catch m (fun e => bind (l e) (fun _ => throw e)) h = (h', Return a) ->
  m h = (h', Return a).
Proof.
  unfold try_catch, bind, throw. destruct (m h) as [h1 [a1|e]]; [trivial|].
  destruct (l e h1) as [h2 [[]|e2]]; discriminate.
Qed.

(** A discovery that returns was given a response with a text, and
    returns the Grants built from the array in that text. *)
Lemma discoverGrants_Return P W config h h' results :
  Gemini.discoverGrants P W config App.onLog h = (h', Return results) ->
  exists response t items u r,
    generateContent W (Gemini.request config) = inr response
    /\ text response = Some t
    /\ Json.parse (fl P)
         (substring (Gemini.cleanJson t) (indexOf (Gemini.cleanJson t) "[")
            (lastIndexOf (Gemini.cleanJson t) "]" + 1))
       = Some (JArray items)
    /\ results = grantsOf P u r items
    /\ exists h0, Gemini.parseGrants P App.onLog t h0 = (h', Return results).
Proof.
  unfold Gemini.discoverGrants. intros H.
  repeat (apply bind_Return_inv in H; destruct H as (? & ? & _ & H)).
  apply try_catch_rethrow_inv in H.
  apply bind_Return_inv in H. destruct H as (? & ? & _ & H).
  apply bind_Return_inv in H. destruct H as (? & response & Hgen & H).
  apply bind_Return_inv in H. destruct H as (? & ? & _ & H).
  apply bind_Return_inv in H. destruct H as (? & ? & _ & H).
  unfold Gemini.await_generateContent in Hgen.
  apply bind_Return_inv in Hgen. destruct Hgen as (? & ? & _ & Hgen).
  destruct (generateContent W (Gemini.request config)) as [e|resp] eqn:Eg;
    [discriminate|]. injection Hgen as _ ->.
  destruct (text response) as [t|] eqn:Et; [|discriminate].
  destruct (truthy t); [|discriminate].
  pose proof H as Hstep.
  apply parseGrants_Return in H. destruct H as (items & Hparse & ->).
  exists response, t, items. eauto 12.
Qed.

(** The payload fields of a built Grant are those of its element, and
    its score is the parser's. *)
Lemma grantOf_payload P u r item k :
  k <> "confidence_score" -> is_Some (Gemini.ownProperties item !! k) ->
  grantOf P u r item !! k = Gemini.ownProperties item !! k.
Proof.
  intros Hk [v Hv]. unfold grantOf.
  rewrite lookup_insert_ne by congruence.
  rewrite Hv. now apply lookup_union_Some_l.
Qed.

Lemma grantOf_score P u r item :
  grantOf P u r item !! "confidence_score"
  = Some (JNumber (Gemini.confidence_score (fl P) (random_nth P r))).
Proof. unfold grantOf. apply lookup_insert_eq. Qed.

Lemma grantOf_id_payload P u r item v :
  Gemini.ownProperties item !! "id" = Some v -> grantOf P u r item !! "id" = Some v.
Proof.
  intros Hv. unfold grantOf. rewrite lookup_insert_ne by discriminate.
  now apply lookup_union_Some_l.
Qed.

Lemma grantOf_id_generated P u r item :
  Gemini.ownProperties item !! "id" = None ->
  grantOf P u r item !! "id" = Some (JString (uuidv4_nth P u)).
Proof.
  intros Hv. unfold grantOf. rewrite lookup_insert_ne by discriminate.
  rewrite lookup_union_r by assumption. apply lookup_singleton_eq.
Qed.

Lemma grantsOf_length P u r items : length (grantsOf P u r items) = length items.
Proof. revert u r. induction items; intros; simpl; [reflexivity | now rewrite IHitems]. Qed.

Lemma grantsOf_lookup P u r items i item :
  items !! i = Some item -> grantsOf P u r items !! i = Some (grantOf P (u + i) (r + i) item).
Proof.
  revert u r i. induction items as [|x items IH]; intros u r [|i]; simpl; try discriminate.
  - intros [= ->]. now rewrite !Nat.add_0_r.
  - intros H. rewrite (IH (S u) (S r) i H). f_equal. f_equal; lia.
Qed.

End ParseProps.

(** ** The run *)

Module RunProps.

Import RunFacts.

Lemma beginRun_started P h : App.beginRun P h = (started P h, Return tt).
Proof. reflexivity. Qed.

Lemma started_grants P h : grants (started P h) = grants h.
Proof. reflexivity. Qed.

Lemma started_scanning P h : isScanning (started P h) = true.
Proof. reflexivity. Qed.

(** A run that passes both guards is the [try] block from the started
    state. *)
Lemma handleRunDiscovery_runs P W config h :
  truthy_opt (API_KEY P) = true -> isScanning h = false ->
  App.handleRunDiscovery P W config h
  = try_finally (try_catch (App.runPhases P W config) (App.onError P))
      (App.finalize P) (started P h).
Proof.
  intros Hkey Hidle. unfold App.handleRunDiscovery. rewrite Hkey.
  cbn [negb]. cbv beta. rewrite Hidle. reflexivity.
Qed.

Lemma set_logs_same h : set_logs (logs h) h = h.
Proof. now destruct h. Qed.

Lemma forEach_onLog l i h :
  forEach (fun log _ => App.onLog log) l i h = (set_logs (logs h ++ l) h, Return tt).
Proof.
  revert i h. induction l as [|x l IH]; intros i h; simpl.
  - unfold ret. now rewrite app_nil_r, set_logs_same.
  - unfold bind at 1. simpl. rewrite IH. simpl. now rewrite <- app_assoc.
Qed.

(** What the [catch] and [finally] blocks make of any protected part:
    the handler returns, with the state finalized after the failure
    was recorded, if there was one. *)
Lemma closing_run P (m : M unit) h :
  try_finally (try_catch m (App.onError P)) (App.finalize P) h
  = (finalized P (match snd (m h) with
                  | Return _ => fst (m h)
                  | Throw e => failed P e (fst (m h))
                  end),
     Return tt).
Proof.
  unfold try_finally, try_catch. destruct (m h) as [h' [[]|e]]; reflexivity.
Qed.

Lemma finalized_grants P h : grants (finalized P h) = grants h.
Proof. reflexivity. Qed.
Lemma finalized_scanning P h : isScanning (finalized P h) = false.
Proof. reflexivity. Qed.
Lemma finalized_effects P h : effects (finalized P h) = effects h.
Proof. reflexivity. Qed.
Lemma finalized_logs P h :
  exists e, logs (finalized P h) = logs h ++ [e]
            /\ level e = INFO /\ message e = "Sequence finalized. System Idle.".
Proof. eexists. split; [reflexivity|]. now split. Qed.

Lemma failed_grants P e h : grants (failed P e h) = grants h.
Proof. reflexivity. Qed.
Lemma failed_effects P e h : effects (failed P e h) = effects h ++ [ConsoleErrorValue e].
Proof. reflexivity. Qed.
Lemma failed_logs P e h :
  exists e1, logs (failed P e h) = logs h ++ [e1] /\ level e1 = ERROR.
Proof. eexists. split; reflexivity. Qed.

Lemma shouldNotify_cond config newGrants :
  ((0 <? length newGrants)%nat && notificationEnabled config
     && truthy (emailRecipient config))
  = shouldNotify config newGrants.
Proof.
  unfold shouldNotify. destruct newGrants; simpl; [reflexivity|].
  destruct (notificationEnabled config); simpl; [|reflexivity].
  now destruct (emailRecipient config).
Qed.

(** The notification phase, by cases. *)
Lemma notifyPhase_dispatch P W config newGrants h :
  shouldNotify config newGrants = true ->
  App.notifyPhase P W config newGrants h
  = (set_logs (logs h ++ notify_logs (sendNotification W (emailRecipient config) newGrants))
       (set_effects (effects h ++ [CallSendNotification (emailRecipient config) newGrants]) h),
     match notify_error (sendNotification W (emailRecipient config) newGrants) with
     | Some e => Throw e
     | None => Return tt
     end).
Proof.
  intros Hc. unfold App.notifyPhase. rewrite shouldNotify_cond, Hc.
  unfold App.await_sendNotification, bind, perform. rewrite forEach_onLog. simpl.
  now destruct (notify_error _).
Qed.

Lemma notifyPhase_skip P W config newGrants h :
  shouldNotify config newGrants = false ->
  snd (App.notifyPhase P W config newGrants h) = Return tt
  /\ effects (fst (App.notifyPhase P W config newGrants h)) = effects h
  /\ grants (fst (App.notifyPhase P W config newGrants h)) = grants h.
Proof.
  intros Hc. unfold App.notifyPhase. rewrite shouldNotify_cond, Hc.
  destruct (_ && _); simpl; auto.
Qed.

End RunProps.

(** C1. When the extraction call or the parse step fails, that is when
    [discoverGrants] throws, the run merges nothing: the repository
    after the run is the repository before it. The run still returns,
    idle again, after an ERROR entry and the closing entry. *)
Theorem C1_failed_discovery_merges_nothing P W config h h' e :
  truthy_opt (API_KEY P) = true ->
  isScanning h = false ->
  Gemini.discoverGrants P W config App.onLog (started P h) = (h', Throw e) ->
  grants (fst (App.handleRunDiscovery P W config h)) = grants h
  /\ snd (App.handleRunDiscovery P W config h) = Return tt
  /\ isScanning (fst (App.handleRunDiscovery P W config h)) = false
  /\ exists e1 e2,
       logs (fst (App.handleRunDiscovery P W config h)) = logs h' ++ [e1; e2]
       /\ level e1 = ERROR
       /\ message e2 = "Sequence finalized. System Idle.".
Proof.
  intros Hkey Hidle Hfail.
  rewrite RunProps.handleRunDiscovery_runs by assumption.
  unfold try_finally, try_catch, App.runPhases.
  rewrite (RunFacts.bind_Throw _ _ _ _ _ Hfail). simpl.
  split; [|split; [reflexivity|split; [reflexivity|]]].
  - pose proof (RunFacts.Quiet_discoverGrants P W config (started P h)) as Hq.
    rewrite Hfail in Hq. simpl in Hq. now rewrite (quiet_grants _ _ Hq).
  - eexists _, _. rewrite <- app_assoc. simpl. split; [reflexivity|]. now split.
Qed.

Lemma C1_witness :
  grants (fst (App.handleRunDiscovery Demo.platform Demo.unreachable Demo.config
                 Demo.stocked))
  = grants Demo.stocked.
Proof.
  eapply (C1_failed_discovery_merges_nothing Demo.platform Demo.unreachable
            Demo.config Demo.stocked).
  - reflexivity.
  - reflexivity.
  - vm_compute. reflexivity.
Defined.

(** ** The slice between the brackets *)

Module SpanFacts.

Import JsString TextFacts.

(** When the first opening bracket is not after the last closing one,
    the slice the program takes is the span, and it starts with the
    bracket. *)
Lemma slice_forward l i j :
  find_first "[" l = Some i -> find_last "]" l = Some j -> i <= j ->
  substring l (Z.of_nat i) (Z.of_nat j + 1) = bracket_span l
  /\ exists r, bracket_span l = "["%char :: r.
Proof.
  intros Hi Hj Hij. unfold bracket_span. rewrite Hi, Hj.
  destruct (find_first_Some _ _ _ Hi) as (p & r & -> & <- & Hp).
  destruct (find_last_Some _ _ _ Hj) as (p' & r' & E & <- & Hr').
  assert (Hlen : S (length p') <= length (p ++ "["%char :: r)).
  { rewrite E, length_app. simpl. lia. }
  replace (Z.of_nat (length p') + 1)%Z with (Z.of_nat (S (length p'))) by lia.
  rewrite substring_span by lia. split; [reflexivity|].
  rewrite drop_app_length.
  destruct (S (length p') - length p) as [|n] eqn:En; [lia|].
  simpl. eauto.
Qed.

(** When the last closing bracket comes first, the span is empty and
    the program takes the text between the two brackets, which holds
    no opening bracket. *)
Lemma slice_swapped l i j :
  find_first "[" l = Some i -> find_last "]" l = Some j -> j < i ->
  bracket_span l = []
  /\ ~ In "["%char (substring l (Z.of_nat i) (Z.of_nat j + 1)).
Proof.
  intros Hi Hj Hij. unfold bracket_span. rewrite Hi, Hj.
  replace (S j - i) with 0 by lia. split; [reflexivity|].
  destruct (find_first_Some _ _ _ Hi) as (p & r & -> & <- & Hp).
  replace (Z.of_nat j + 1)%Z with (Z.of_nat (S j)) by lia.
  rewrite substring_swapped; [| lia | rewrite length_app; simpl; lia].
  rewrite take_drop_commute.
  replace (S j + (length p - S j)) with (length p) by lia.
  rewrite take_app_length. intros H. apply Hp.
  rewrite <- (take_drop (S j) p). apply in_or_app. now right.
Qed.

End SpanFacts.




(** ** When the parse step throws *)

Module ParseFailure.

(** The parse step throws on a text whose cleaned form lacks a bracket
    or whose span between the brackets is not valid JSON, and returns
    on every other text. *)
Lemma parseGrants_cases P text h :
  let c := Gemini.cleanJson text in
  ((~ In "["%char c \/ ~ In "]"%char c \/ Json.parse (fl P) (bracket_span c) = None)
   /\ exists h' e, Gemini.parseGrants P App.onLog text h = (h', Throw e))
  \/ ((In "["%char c /\ In "]"%char c /\ Json.parse (fl P) (bracket_span c) <> None)
      /\ exists h' gs, Gemini.parseGrants P App.onLog text h = (h', Return gs)).
Proof.
  intros c.
  destruct (JsString.find_first "[" c) as [i|] eqn:Hi.
  2: { left. split; [left; now apply TextFacts.find_first_None|].
       destruct (ParseProps.parseGrants_no_bracket P text h) as (h' & E); [|eauto].
       left. fold c. unfold JsString.indexOf. now rewrite Hi. }
  destruct (JsString.find_last "]" c) as [j|] eqn:Hj.
  2: { left. split; [right; left; now apply TextFacts.find_last_None|].
       destruct (ParseProps.parseGrants_no_bracket P text h) as (h' & E); [|eauto].
       right. fold c. unfold JsString.lastIndexOf. now rewrite Hj. }
  assert (In1 : In "["%char c).
  { destruct (in_dec ascii_dec "["%char c) as [|n]; [assumption|].
    apply TextFacts.find_first_None in n. congruence. }
  assert (In2 : In "]"%char c).
  { destruct (in_dec ascii_dec "]"%char c) as [|n]; [assumption|].
    apply TextFacts.find_last_None in n. congruence. }
  assert (N1 : JsString.indexOf c "[" <> (-1)%Z)
    by (unfold JsString.indexOf; rewrite Hi; lia).
  assert (N2 : JsString.lastIndexOf c "]" <> (-1)%Z)
    by (unfold JsString.lastIndexOf; rewrite Hj; lia).
  pose proof (ParseProps.parseGrants_sliced P text h N1 N2) as Hs.
  cbv zeta in Hs. fold c in Hs.
  unfold JsString.indexOf, JsString.lastIndexOf in Hs. rewrite Hi, Hj in Hs.
  destruct (le_lt_dec i j) as [Hij|Hji].
  - (* the slice is the span *)
    destruct (SpanFacts.slice_forward c i j Hi Hj Hij) as (Eslice & r & Espan).
    rewrite Eslice in Hs.
    destruct (Json.parse (fl P) (bracket_span c)) as [v|] eqn:Ev.
    + rewrite Espan in Ev. destruct (JsonFacts.parse_bracket_array _ _ _ Ev) as (vs & ->).
      destruct Hs as (h' & E). right. split; [|eauto]. repeat split; congruence.
    + left. split; [tauto | eauto].
  - (* the brackets are in the other order: the span is empty *)
    destruct (SpanFacts.slice_swapped c i j Hi Hj Hji) as (Espan & Hmid).
    left. rewrite Espan. split; [right; right; reflexivity|].
    destruct (Json.parse (fl P) _) as [v|] eqn:Ev; [|eauto].
    destruct v as [| b | n | s0 | items | ms]; try (destruct Hs as (h' & E); eauto).
    exfalso. apply Hmid. eapply JsonFacts.parse_array_bracket, Ev.
Qed.

(** A discovery whose extraction call rejects throws. *)
Lemma extraction_failure_throws P W config h e :
  generateContent W (Gemini.request config) = inl e ->
  exists h' e', Gemini.discoverGrants P W config App.onLog h = (h', Throw e').
Proof.
  intros Hgen.
  destruct (Gemini.discoverGrants P W config App.onLog h) as [h' [results|e']] eqn:E;
    [|eauto].
  apply ParseProps.discoverGrants_Return in E.
  destruct E as (response & _ & _ & _ & _ & Hgen' & _). congruence.
Qed.

(** A discovery whose response text fails the parse step throws. *)
Lemma parse_failure_throws P W config h response t :
  generateContent W (Gemini.request config) = inr response ->
  text response = Some t ->
  (~ In "["%char (Gemini.cleanJson t) \/ ~ In "]"%char (Gemini.cleanJson t)
   \/ Json.parse (fl P) (bracket_span (Gemini.cleanJson t)) = None) ->
  exists h' e', Gemini.discoverGrants P W config App.onLog h = (h', Throw e').
Proof.
  intros Hgen Ht Hbad.
  destruct (Gemini.discoverGrants P W config App.onLog h) as [h' [results|e']] eqn:E;
    [|eauto].
  apply ParseProps.discoverGrants_Return in E.
  destruct E as (response' & t' & _ & _ & _ & Hgen' & Ht' & _ & _ & h0 & Hstep).
  rewrite Hgen in Hgen'. injection Hgen' as <-.
  rewrite Ht in Ht'. injection Ht' as <-.
  destruct (parseGrants_cases P t h0) as [(_ & h1 & e1 & E1)|((H1 & H2 & H3) & _)].
  - rewrite E1 in Hstep. discriminate.
  - tauto.
Qed.

End ParseFailure.


(** With the brackets in the other order the program slices the text
    between them; here that text is the valid JSON [1], and the parse
    step throws all the same, on the call of [map]. *)
Example swapped_brackets_throw :
  JsString.substring (Gemini.cleanJson "]1[") 2 (0 + 1) = ["1"%char]
  /\ bracket_span (Gemini.cleanJson "]1[") = []
  /\ snd (Gemini.parseGrants Demo.platform App.onLog "]1[" Demo.idle)
     = Throw (engine_error Demo.platform TypeError (BadCall "parsedData.map")).
Proof. repeat split; vm_compute; reflexivity. Qed.

(** ** Identifiers and scores of the Grants built *)

Module GrantProps.

Import ParseProps.

(** When no element brings an [id] of its own, the identifiers are the
    generated ones, in the order of the calls. *)
Lemma grantsOf_ids_generated P u r items :
  Forall (fun item => Gemini.ownProperties item !! "id" = None) items ->
  map (fun g : Grant => g !! "id") (grantsOf P u r items)
  = map (fun i => Some (JString (uuidv4_nth P i))) (seq u (length items)).
Proof.
  intros H. revert u r. induction H as [|item items Hx _ IH]; intros u r; simpl.
  - reflexivity.
  - rewrite IH. f_equal. now apply grantOf_id_generated.
Qed.

(** The generated identifiers are pairwise distinct when [uuidv4] never
    repeats a value. *)
Lemma grantsOf_ids_distinct P u r items :
  (forall i j, uuidv4_nth P i = uuidv4_nth P j -> i = j) ->
  Forall (fun item => Gemini.ownProperties item !! "id" = None) items ->
  NoDup (map (fun g : Grant => g !! "id") (grantsOf P u r items)).
Proof.
  intros Hinj Hitems. rewrite grantsOf_ids_generated by assumption.
  generalize (length items). clear Hitems. intros n. revert u.
  induction n as [|n IH]; intros u; simpl; [constructor|].
  apply NoDup_cons. split; [|apply IH].
  intros Hin. apply list_elem_of_In, in_map_iff in Hin.
  destruct Hin as (i & [= Hi] & Hseq). apply Hinj in Hi. subst i.
  apply in_seq in Hseq. lia.
Qed.

Lemma score_monotone fl r1 r2 :
  Rounding fl -> (r1 <= r2)%Q ->
  (Gemini.confidence_score fl r1 <= Gemini.confidence_score fl r2)%Q.
Proof.
  intros [Hmono Hzero] Hr. unfold Gemini.confidence_score.
  assert (Hc : (0 <= fl (9 # 100))%Q).
  { rewrite <- Hzero. apply Hmono. lra. }
  apply Hmono. apply Qplus_le_compat; [apply Qle_refl|].
  apply Hmono. now apply Qmult_le_compat_r.
Qed.

Lemma score_in_range P r :
  Rounding (fl P) -> random_in_range P ->
  (9 # 10 <= Gemini.confidence_score (fl P) 0)%Q ->
  (Gemini.confidence_score (fl P) below_one < 99 # 100)%Q ->
  (9 # 10 <= Gemini.confidence_score (fl P) (random_nth P r))%Q
  /\ (Gemini.confidence_score (fl P) (random_nth P r) < 99 # 100)%Q.
Proof.
  intros Hfl Hrand Hlo Hhi. destruct (Hrand r) as [H0 H1]. split.
  - eapply Qle_trans; [exact Hlo | now apply score_monotone].
  - eapply Qle_lt_trans; [apply score_monotone; eassumption | exact Hhi].
Qed.

(** In binary64 itself the two end scores are where the range needs
    them: the score of 0 denotes a rational not below 9/10, and the
    score of the greatest random number one below 99/100. The latter
    is the binary64 number nearest to 0.99. *)
Example binary64_end_scores :
  (exists lo, sf_value (Prim2SF (score64 0)) = Some lo /\ (9 # 10 <= lo)%Q)
  /\ (exists hi, sf_value (Prim2SF (score64 0x1.fffffffffffffp-1)) = Some hi
                 /\ (hi < 99 # 100)%Q)
  /\ sf_value (Prim2SF 0x1.fffffffffffffp-1) = Some below_one
  /\ PrimFloat.eqb (score64 0x1.fffffffffffffp-1) 0x1.fae147ae147aep-1 = true.
Proof.
  split; [|split; [|split]].
  - eexists. split; [vm_compute; reflexivity|]. unfold Qle. simpl. lia.
  - eexists. split; [vm_compute; reflexivity|]. unfold Qlt. simpl. lia.
  - vm_compute. reflexivity.
  - vm_compute. reflexivity.
Qed.

End GrantProps.

(** C9 at an input where it fails. Two payload elements that bring the
    same [id] give two Grants with that [id]: the generated identifiers
    are overwritten by the spread of the element. *)
Lemma C9_payload_id_overrides :
  let item1 := JObject [("id", JString "x"); ("program_title", JString "A")] in
  let item2 := JObject [("id", JString "x"); ("program_title", JString "B")] in
  let g1 := grantOf Demo.platform 1 0 item1 in
  let g2 := grantOf Demo.platform 2 1 item2 in
  snd (Gemini.parseGrants Demo.platform App.onLog
         (Demo.quoted "[{'id':'x','program_title':'A'},{'id':'x','program_title':'B'}]")
         Demo.idle)
  = Return [g1; g2]
  /\ g1 !! "id" = Some (JString "x")
  /\ g2 !! "id" = Some (JString "x")
  /\ uuidv4_nth Demo.platform 1 <> "x".
Proof.
  cbv zeta. split; [vm_compute; reflexivity|].
  split; [vm_compute; reflexivity|].
  split; [vm_compute; reflexivity | discriminate].
Qed.

(** C10. Every Grant the parse step returns carries a score computed by
    the parser from a value of [Math.random()], whatever the payload
    element held, and the score is at least 0.90 and below 0.99. The
    rounding of the number format is monotone, so the bound is asked
    only of the scores of the least and of the greatest random
    number. *)
Theorem C10_confidence_in_range P text h h' gs :
  Rounding (fl P) ->
  random_in_range P ->
  (9 # 10 <= Gemini.confidence_score (fl P) 0)%Q ->
  (Gemini.confidence_score (fl P) below_one < 99 # 100)%Q ->
  Gemini.parseGrants P App.onLog text h = (h', Return gs) ->
  Forall (fun g : Grant =>
            exists r q,
              g !! "confidence_score" = Some (JNumber q)
              /\ q = Gemini.confidence_score (fl P) (random_nth P r)
              /\ (9 # 10 <= q)%Q /\ (q < 99 # 100)%Q) gs.
Proof.
  intros Hfl Hrand Hlo Hhi Hrun.
  destruct (ParseProps.parseGrants_Return _ _ _ _ _ Hrun) as (items & _ & ->).
  generalize (S (uuid_calls h)) (random_calls h). clear Hrun.
  induction items as [|item items IH]; intros u r; simpl; constructor.
  - exists r. eexists. split; [apply ParseProps.grantOf_score|].
    split; [reflexivity|]. now apply GrantProps.score_in_range.
  - apply IH.
Qed.

Lemma C10_witness :
  Forall (fun g : Grant =>
            exists r q,
              g !! "confidence_score" = Some (JNumber q)
              /\ q = Gemini.confidence_score (fl Demo.platform) (random_nth Demo.platform r)
              /\ (9 # 10 <= q)%Q /\ (q < 99 # 100)%Q)
    (grantsOf Demo.platform 1 0
       [JObject [("program_title", JString "Alpha"); ("confidence_score", JNumber 5)]]).
Proof.
  eapply (C10_confidence_in_range Demo.platform
            (Demo.quoted "[{'program_title':'Alpha','confidence_score':5}]") Demo.idle).
  - split; [intros x y Hxy; exact Hxy | reflexivity].
  - intros n. unfold below_one, Qle. simpl. lia.
  - unfold Qle. simpl. lia.
  - unfold Qlt. simpl. lia.
  - vm_compute. reflexivity.
Defined.

(** ** The deduplication *)

Module DedupProps.

Import RunFacts.

Lemma mapM_title_key_step P g gs h :
  mapM (App.title_key P) (g :: gs) h
  = match App.lowerTitle g with
    | Some k =>
        match mapM (App.title_key P) gs h with
        | (h', Return ks) => (h', Return (k :: ks))
        | (h', Throw e) => (h', Throw e)
        end
    | None => (h, Throw (engine_error P TypeError (BadCall "g.program_title.toLowerCase")))
    end.
Proof.
  simpl. unfold bind, App.title_key.
  destruct (App.lowerTitle g); simpl; [|reflexivity].
  now destruct (mapM _ gs h) as [h' [ks|e]].
Qed.

Lemma mapM_title_key P gs h :
  (Forall (fun g => is_Some (App.lowerTitle g)) gs
   /\ mapM (App.title_key P) gs h = (h, Return (omap App.lowerTitle gs)))
  \/ (~ Forall (fun g => is_Some (App.lowerTitle g)) gs
      /\ exists e, mapM (App.title_key P) gs h = (h, Throw e)).
Proof.
  induction gs as [|g gs IH].
  - left. split; [constructor | reflexivity].
  - rewrite mapM_title_key_step. simpl.
    destruct (App.lowerTitle g) as [k|] eqn:Ek.
    + destruct IH as [[F E]|[F [e E]]]; rewrite E.
      * left. split; [constructor; [rewrite Ek; eauto | exact F] | reflexivity].
      * right. split; [intros H; apply F; now inversion H | eauto].
    + right. split; [|eauto].
      intros H. inversion H as [|? ? [k Hk] _]; congruence.
Qed.

Lemma filterM_title_key_step P (existingTitles : gset string) g gs h :
  let keep := fun g : Grant =>
    k <- App.title_key P g ;; ret (negb (bool_decide (k ∈ existingTitles))) in
  filterM keep (g :: gs) h
  = match App.lowerTitle g with
    | Some k =>
        match filterM keep gs h with
        | (h', Return us) =>
            (h', Return (if negb (known existingTitles g) then g :: us else us))
        | (h', Throw e) => (h', Throw e)
        end
    | None => (h, Throw (engine_error P TypeError (BadCall "g.program_title.toLowerCase")))
    end.
Proof.
  intros keep. simpl. unfold bind at 1. unfold keep at 1. unfold bind at 1.
  unfold App.title_key, known.
  destruct (App.lowerTitle g); simpl; [|reflexivity].
  unfold bind. now destruct (filterM keep gs h) as [h' [us|e]].
Qed.

Lemma filterM_title_key P (existingTitles : gset string) gs h :
  let keep := fun g : Grant =>
    k <- App.title_key P g ;; ret (negb (bool_decide (k ∈ existingTitles))) in
  (Forall (fun g => is_Some (App.lowerTitle g)) gs
   /\ filterM keep gs h
      = (h, Return (List.filter (fun g => negb (known existingTitles g)) gs)))
  \/ (~ Forall (fun g => is_Some (App.lowerTitle g)) gs
      /\ exists e, filterM keep gs h = (h, Throw e)).
Proof.
  intros keep. induction gs as [|g gs IH].
  - left. split; [constructor | reflexivity].
  - unfold keep. rewrite filterM_title_key_step. fold keep. simpl.
    destruct (App.lowerTitle g) as [k|] eqn:Ek.
    + destruct IH as [[F E]|[F [e E]]]; rewrite E.
      * left. split; [constructor; [rewrite Ek; eauto | exact F] | reflexivity].
      * right. split; [intros H; apply F; now inversion H | eauto].
    + right. split; [|eauto].
      intros H. inversion H as [|? ? [k Hk] _]; congruence.
Qed.

(** The deduplication, by cases: on Grants that all have a string title
    it returns the candidates whose title is not known, in their order,
    after a report when some were dropped; otherwise it throws and
    changes nothing. *)
Lemma dedupe_cases P results prev h :
  let u := List.filter (fun g => negb (known (existingTitlesOf prev) g)) results in
  (Forall (fun g => is_Some (App.lowerTitle g)) prev
   /\ Forall (fun g => is_Some (App.lowerTitle g)) results
   /\ App.dedupe P results prev h
      = (if (length u <? length results)%nat
         then fst (App.addLog P ("Filtered " +:+ pretty (length results - length u)%nat
                                   +:+ " duplicates.") WARNING h)
         else h,
         Return (u, u ++ prev)))
  \/ exists e, App.dedupe P results prev h = (h, Throw e).
Proof.
  intros u.
  destruct (mapM_title_key P prev h) as [[F1 E1]|[F1 [e E1]]].
  2: { right. exists e. unfold App.dedupe. now rewrite (bind_Throw _ _ _ _ _ E1). }
  destruct (filterM_title_key P (existingTitlesOf prev) results h)
    as [[F2 E2]|[F2 [e E2]]]; cbv zeta in E2.
  2: { right. exists e. unfold App.dedupe. rewrite (bind_Return _ _ _ _ _ E1).
       cbv beta zeta. fold (existingTitlesOf prev).
       now rewrite (bind_Throw _ _ _ _ _ E2). }
  left. split; [exact F1|]. split; [exact F2|].
  unfold App.dedupe. rewrite (bind_Return _ _ _ _ _ E1).
  cbv beta zeta. fold (existingTitlesOf prev).
  rewrite (bind_Return _ _ _ _ _ E2). fold u. unfold bind.
  destruct (length u <? length results)%nat; reflexivity.
Qed.

Lemma setGrants_dedupe_Return P results h h' newGrants :
  App.setGrants_dedupe P results h = (h', Return newGrants) ->
  Forall (fun g => is_Some (App.lowerTitle g)) (grants h)
  /\ Forall (fun g => is_Some (App.lowerTitle g)) results
  /\ newGrants
     = List.filter (fun g => negb (known (existingTitlesOf (grants h)) g)) results
  /\ grants h' = newGrants ++ grants h
  /\ isScanning h' = isScanning h
  /\ effects h' = effects h.
Proof.
  unfold App.setGrants_dedupe.
  destruct (dedupe_cases P results (grants h) h) as [(F1 & F2 & E)|[e E]];
    rewrite E; [|discriminate].
  intros [= <- <-]. split; [exact F1|]. split; [exact F2|]. split; [reflexivity|].
  destruct (_ <? _)%nat; repeat split.
Qed.

Lemma setGrants_dedupe_Throw P results h h' e :
  App.setGrants_dedupe P results h = (h', Throw e) -> h' = h.
Proof.
  unfold App.setGrants_dedupe.
  destruct (dedupe_cases P results (grants h) h) as [(F1 & F2 & E)|[e1 E]];
    rewrite E; [discriminate|].
  now intros [= <- _].
Qed.

End DedupProps.

(** ** A whole run *)

Module WholeRun.

Import RunFacts RunProps DedupProps.

Lemma dispatches_app es1 es2 : dispatches (es1 ++ es2) = dispatches es1 ++ dispatches es2.
Proof. unfold dispatches. apply omap_app. Qed.

Lemma dispatches_quiet es :
  forallb (fun e => negb (notification e)) es = true -> dispatches es = [].
Proof.
  induction es as [|e es IH]; simpl; [reflexivity|].
  destruct e; simpl; try discriminate; exact IH.
Qed.

Lemma performed_app h h' es : effects h' = effects h ++ es -> performed h h' = es.
Proof. unfold performed. intros ->. apply drop_app_length. Qed.

(** A run whose discovery and deduplication return is the notification
    phase from the state they leave, closed by the two final blocks. *)
Lemma run_reaches_notification P W config h h1 h2 results newGrants :
  truthy_opt (API_KEY P) = true ->
  isScanning h = false ->
  Gemini.discoverGrants P W config App.onLog (started P h) = (h1, Return results) ->
  App.setGrants_dedupe P results h1 = (h2, Return newGrants) ->
  App.handleRunDiscovery P W config h
  = (finalized P
       (match snd (App.notifyPhase P W config newGrants h2) with
        | Return _ => fst (App.notifyPhase P W config newGrants h2)
        | Throw e => failed P e (fst (App.notifyPhase P W config newGrants h2))
        end),
     Return tt)
  /\ grants h2 = newGrants ++ grants h
  /\ exists es, effects h2 = effects h ++ es /\ dispatches es = [].
Proof.
  intros Hkey Hidle Hdisc Hdedupe.
  rewrite handleRunDiscovery_runs by assumption. rewrite closing_run.
  unfold App.runPhases.
  rewrite (bind_Return _ _ _ _ _ Hdisc), (bind_Return _ _ _ _ _ Hdedupe).
  split; [reflexivity|].
  destruct (setGrants_dedupe_Return _ _ _ _ _ Hdedupe) as (_ & _ & _ & Hg & _ & He).
  pose proof (Quiet_discoverGrants P W config (started P h)) as Hq.
  rewrite Hdisc in Hq. destruct Hq as [Hg1 _ (es & Hes & Hquiet)]. simpl in *.
  split; [now rewrite Hg, Hg1|].
  exists es. split; [now rewrite He, Hes | now apply dispatches_quiet].
Qed.

(** The repository after any run: as before, or the unknown candidates
    of a returned batch put in front of it. *)
Lemma run_repository P W config h :
  grants (fst (App.handleRunDiscovery P W config h)) = grants h
  \/ exists h0 h1 results,
       Gemini.discoverGrants P W config App.onLog h0 = (h1, Return results)
       /\ Forall (fun g => is_Some (App.lowerTitle g)) results
       /\ grants (fst (App.handleRunDiscovery P W config h))
          = List.filter (fun g => negb (known (existingTitlesOf (grants h)) g)) results
            ++ grants h.
Proof.
  destruct (truthy_opt (API_KEY P)) eqn:Hkey.
  2: { left. unfold App.handleRunDiscovery. rewrite Hkey. reflexivity. }
  destruct (isScanning h) eqn:Hidle.
  { left. unfold App.handleRunDiscovery. rewrite Hkey. cbn [negb]. cbv beta.
    now rewrite Hidle. }
  destruct (Gemini.discoverGrants P W config App.onLog (started P h))
    as [h1 [results|e]] eqn:Hdisc.
  2: { left. rewrite handleRunDiscovery_runs, closing_run by assumption.
       unfold App.runPhases. rewrite (bind_Throw _ _ _ _ _ Hdisc). simpl.
       pose proof (Quiet_discoverGrants P W config (started P h)) as Hq.
       rewrite Hdisc in Hq. destruct Hq as [Hg1 _ _]. simpl in Hg1.
       now rewrite Hg1. }
  pose proof (Quiet_discoverGrants P W config (started P h)) as Hq.
  rewrite Hdisc in Hq. destruct Hq as [Hg1 _ _]. simpl in Hg1.
  destruct (App.setGrants_dedupe P results h1) as [h2 [newGrants|e]] eqn:Hdedupe.
  2: { left. rewrite handleRunDiscovery_runs, closing_run by assumption.
       unfold App.runPhases.
       rewrite (bind_Return _ _ _ _ _ Hdisc), (bind_Throw _ _ _ _ _ Hdedupe). simpl.
       apply setGrants_dedupe_Throw in Hdedupe. now subst h2. }
  right. exists (started P h), h1, results. split; [exact Hdisc|].
  destruct (setGrants_dedupe_Return _ _ _ _ _ Hdedupe) as (_ & Ht & Hu & Hg & _ & _).
  split; [exact Ht|].
  destruct (run_reaches_notification P W config h h1 h2 results newGrants
              Hkey Hidle Hdisc Hdedupe) as (-> & Hg2 & _).
  cbn [fst]. rewrite finalized_grants.
  rewrite Hg1 in Hu. rewrite <- Hu, <- Hg2.
  destruct (shouldNotify config newGrants) eqn:Hc.
  - rewrite notifyPhase_dispatch by assumption. cbn [fst snd].
    destruct (notify_error _); reflexivity.
  - destruct (notifyPhase_skip P W config newGrants h2 Hc) as (-> & _ & Hg3).
    exact Hg3.
Qed.

End WholeRun.



(** C7. Starting a run while one is in progress changes nothing: the
    handler returns at once, with the repository, the log, the scanning
    flag, the platform counters and the calls made all as they were. A
    run is in progress only after the API key check has passed. *)
Theorem C7_start_while_scanning_is_noop P W config h :
  truthy_opt (API_KEY P) = true ->
  isScanning h = true ->
  App.handleRunDiscovery P W config h = (h, Return tt).
Proof.
  intros Hkey Hscan. unfold App.handleRunDiscovery. rewrite Hkey.
  cbn [negb]. cbv beta. now rewrite Hscan.
Qed.

Lemma C7_witness :
  App.handleRunDiscovery Demo.platform Demo.unreachable Demo.config
    (started Demo.platform Demo.stocked)
  = (started Demo.platform Demo.stocked, Return tt).
Proof.
  apply (C7_start_while_scanning_is_noop Demo.platform Demo.unreachable Demo.config
           (started Demo.platform Demo.stocked)); reflexivity.
Defined.

Module CountFacts.

Lemma filter_split_length {A} (p : A -> bool) (l : list A) :
  length (List.filter (fun x => negb (p x)) l)
  = length l - length (List.filter p l).
Proof.
  assert (H : length (List.filter (fun x => negb (p x)) l)
              + length (List.filter p l) = length l).
  { induction l as [|x l IH]; simpl; [reflexivity|].
    destruct (p x); simpl; lia. }
  lia.
Qed.

Lemma filter_length_le {A} (p : A -> bool) (l : list A) :
  length (List.filter p l) <= length l.
Proof. induction l as [|x l IH]; simpl; [lia|]. destruct (p x); simpl; lia. Qed.

End CountFacts.

(** C5, as the program has it. On candidates and a repository whose
    Grants all have a string title, with M candidates whose lower-cased
    title is in the set of the repository's lower-cased titles, the
    deduplication returns the other candidates, in their input order,
    N - M of them, in front of the repository; it reports M, in a
    WARNING entry, when M is positive and reports nothing when M is
    zero. *)
Theorem C5_dedupe_keeps_unknown_candidates P results prev h M :
  Forall (fun g => is_Some (App.lowerTitle g)) prev ->
  Forall (fun g => is_Some (App.lowerTitle g)) results ->
  M = length (List.filter (known (existingTitlesOf prev)) results) ->
  let u := List.filter (fun g => negb (known (existingTitlesOf prev) g)) results in
  snd (App.dedupe P results prev h) = Return (u, u ++ prev)
  /\ length u = length results - M
  /\ reported h (fst (App.dedupe P results prev h))
     = if (0 <? M)%nat
       then [(WARNING, "Filtered " +:+ pretty M +:+ " duplicates.")]
       else [].
Proof.
  intros Hprev Hres HM u.
  assert (Hlen : length u = length results - M).
  { subst M. apply CountFacts.filter_split_length. }
  assert (HM' : M <= length results).
  { subst M. apply CountFacts.filter_length_le. }
  destruct (DedupProps.dedupe_cases P results prev h) as [(_ & _ & E)|[e E]].
  2: { exfalso.
       destruct (DedupProps.mapM_title_key P prev h) as [[_ E1]|[F _]]; [|tauto].
       destruct (DedupProps.filterM_title_key P (existingTitlesOf prev) results h)
         as [[_ E2]|[F _]]; [|tauto]. cbv zeta in E2.
       unfold App.dedupe in E. rewrite (RunFacts.bind_Return _ _ _ _ _ E1) in E.
       cbv beta zeta in E. fold (existingTitlesOf prev) in E.
       rewrite (RunFacts.bind_Return _ _ _ _ _ E2) in E. unfold bind in E.
       destruct (_ <? _)%nat; discriminate. }
  cbv zeta in E. fold u in E. rewrite E. cbn [fst snd].
  split; [reflexivity|]. split; [exact Hlen|].
  unfold reported. rewrite Hlen.
  destruct (0 <? M)%nat eqn:HM0.
  - apply Nat.ltb_lt in HM0.
    replace (length results - M <? length results)%nat with true
      by (symmetry; apply Nat.ltb_lt; lia).
    replace (length results - (length results - M)) with M by lia.
    simpl. rewrite drop_app_length. reflexivity.
  - apply Nat.ltb_ge in HM0.
    replace (length results - M <? length results)%nat with false
      by (symmetry; apply Nat.ltb_ge; lia).
    now rewrite drop_all.
Qed.

Lemma C5_witness :
  snd (App.dedupe Demo.platform
         [Demo.grant_titled "a"; Demo.grant_titled "C"] [Demo.grant_titled "A"]
         Demo.idle)
  = Return ([Demo.grant_titled "C"], [Demo.grant_titled "C"; Demo.grant_titled "A"])
  /\ reported Demo.idle
       (fst (App.dedupe Demo.platform
               [Demo.grant_titled "a"; Demo.grant_titled "C"] [Demo.grant_titled "A"]
               Demo.idle))
     = [(WARNING, "Filtered 1 duplicates.")].
Proof.
  destruct (C5_dedupe_keeps_unknown_candidates Demo.platform
              [Demo.grant_titled "a"; Demo.grant_titled "C"] [Demo.grant_titled "A"]
              Demo.idle 1) as (H1 & _ & H3).
  - repeat constructor; vm_compute; eauto.
  - repeat constructor; vm_compute; eauto.
  - vm_compute. reflexivity.
  - split; [exact H1 | exact H3].
Defined.

(** C5 as stated fails when no candidate is known: the number filtered
    is 0 and nothing is reported. *)
Lemma C5_counterexample :
  length (List.filter (known (existingTitlesOf [Demo.grant_titled "A"]))
            [Demo.grant_titled "B"]) = 0
  /\ snd (App.dedupe Demo.platform [Demo.grant_titled "B"] [Demo.grant_titled "A"]
            Demo.idle)
     = Return ([Demo.grant_titled "B"], [Demo.grant_titled "B"; Demo.grant_titled "A"])
  /\ reported Demo.idle
       (fst (App.dedupe Demo.platform [Demo.grant_titled "B"] [Demo.grant_titled "A"]
               Demo.idle))
     = [].
Proof. repeat split; vm_compute; reflexivity. Qed.

Module NotifyFacts.

Lemma shouldNotify_iff config (newGrants : list Grant) :
  shouldNotify config newGrants = true
  <-> newGrants <> [] /\ notificationEnabled config = true
      /\ emailRecipient config <> EmptyString.
Proof.
  unfold shouldNotify. rewrite !andb_true_iff, !negb_true_iff.
  rewrite String.eqb_neq. destruct newGrants; simpl; intuition congruence.
Qed.

End NotifyFacts.



(** ** The repository across runs *)

Module Repository.

Lemma lowerTitle_grantOf P u r item :
  App.lowerTitle (grantOf P u r item) = itemTitle item.
Proof.
  unfold App.lowerTitle, itemTitle, grantOf.
  rewrite lookup_insert_ne by discriminate.
  destruct (Gemini.ownProperties item !! "program_title") as [v|] eqn:E.
  - now rewrite (lookup_union_Some_l _ _ _ _ E).
  - rewrite lookup_union_r by assumption.
    now rewrite lookup_singleton_ne by discriminate.
Qed.

Lemma lowerTitle_grantsOf P u r items :
  map App.lowerTitle (grantsOf P u r items) = map itemTitle items.
Proof.
  revert u r. induction items as [|item items IH]; intros u r; simpl; [reflexivity|].
  now rewrite lowerTitle_grantOf, IH.
Qed.

Lemma NoDup_map_filter {A B} (f : A -> B) (p : A -> bool) (l : list A) :
  NoDup (map f l) -> NoDup (map f (List.filter p l)).
Proof.
  induction l as [|x l IH]; simpl; [trivial|].
  intros H. apply NoDup_cons in H. destruct H as [Hx Hl].
  destruct (p x); simpl; [|now apply IH].
  apply NoDup_cons. split; [|now apply IH].
  intros Hin. apply Hx. apply list_elem_of_In in Hin. apply list_elem_of_In.
  apply in_map_iff in Hin. destruct Hin as (y & <- & Hy).
  apply in_map. apply filter_In in Hy. tauto.
Qed.

(** Putting the unknown candidates of a batch without repeated titles
    in front of a repository without repeated titles repeats none. *)
Lemma merge_distinct (results prev : list Grant) :
  distinct_titles prev ->
  Forall (fun g => is_Some (App.lowerTitle g)) results ->
  NoDup (map App.lowerTitle results) ->
  distinct_titles
    (List.filter (fun g => negb (known (existingTitlesOf prev) g)) results ++ prev).
Proof.
  intros [Tprev Nprev] Tres Nres. split.
  - apply Forall_app. split; [|exact Tprev].
    apply Forall_forall. intros g Hg. apply list_elem_of_In, filter_In in Hg.
    rewrite Forall_forall in Tres. apply Tres, list_elem_of_In. tauto.
  - rewrite map_app. apply NoDup_app. split; [now apply NoDup_map_filter|].
    split; [|exact Nprev].
    intros t Hu Hp.
    apply list_elem_of_In, in_map_iff in Hu. destruct Hu as (g & <- & Hg).
    apply filter_In in Hg. destruct Hg as [Hg Hk].
    apply negb_true_iff in Hk. unfold known in Hk.
    destruct (App.lowerTitle g) as [k|] eqn:Ek.
    + apply bool_decide_eq_false in Hk. apply Hk.
      unfold existingTitlesOf. apply elem_of_list_to_set.
      apply list_elem_of_In, in_map_iff in Hp. destruct Hp as (g' & Eg' & Hg').
      apply list_elem_of_omap. exists g'. split; [now apply list_elem_of_In | exact Eg'].
    + rewrite Forall_forall in Tres.
      destruct (Tres g (proj2 (list_elem_of_In _ _) Hg)) as [k Hk']. congruence.
Qed.

(** One run keeps the repository free of repeated titles when its
    batch has none. *)
Lemma run_distinct P wc h :
  distinct_batches P wc -> distinct_titles (grants h) ->
  distinct_titles (grants (run P wc h)).
Proof.
  intros Hb Hd. unfold run.
  destruct (WholeRun.run_repository P (fst wc) (snd wc) h)
    as [-> | (h0 & h1 & results & Hdisc & Tres & ->)]; [exact Hd|].
  apply merge_distinct; [exact Hd | exact Tres | eapply Hb, Hdisc].
Qed.

Lemma runs_distinct P l h :
  Forall (distinct_batches P) l -> distinct_titles (grants h) ->
  distinct_titles (grants (runs P l h)).
Proof.
  intros Hl. revert h. induction Hl as [|wc l Hwc _ IH]; intros h Hd; simpl.
  - exact Hd.
  - apply IH. now apply run_distinct.
Qed.

(** The batches of a world that always answers with the text [t]. *)
Lemma answering_distinct_batches P t mail config items :
  Json.parse (fl P)
    (JsString.substring (Gemini.cleanJson t) (JsString.indexOf (Gemini.cleanJson t) "[")
       (JsString.lastIndexOf (Gemini.cleanJson t) "]" + 1))
  = Some (JArray items) ->
  NoDup (map itemTitle items) ->
  distinct_batches P (Demo.answering t mail, config).
Proof.
  intros Hparse Hnd h h' results Hdisc.
  apply ParseProps.discoverGrants_Return in Hdisc.
  destruct Hdisc as (response & t' & items' & u & r & Hgen & Ht & Hp & -> & _).
  simpl in Hgen. injection Hgen as <-. simpl in Ht. injection Ht as <-.
  rewrite Hparse in Hp. injection Hp as <-.
  now rewrite lowerTitle_grantsOf.
Qed.

End Repository.

(** C8, as the program has it. From an empty repository, and through
    any sequence of runs whose candidate batches each hold no
    lower-cased title twice, the repository never holds two Grants with
    the same lower-cased title. *)
Theorem C8_repository_titles_distinct P l h :
  grants h = [] ->
  Forall (distinct_batches P) l ->
  distinct_titles (grants (runs P l h)).
Proof.
  intros Hempty Hl. apply Repository.runs_distinct; [exact Hl|].
  rewrite Hempty. split; constructor.
Qed.

Lemma C8_witness :
  distinct_titles
    (grants (runs Demo.platform
               [(Demo.answering Demo.batch_AB Demo.delivered, Demo.config);
                (Demo.answering Demo.batch_aC Demo.delivered, Demo.config)]
               Demo.idle)).
Proof.
  apply (C8_repository_titles_distinct Demo.platform
           [(Demo.answering Demo.batch_AB Demo.delivered, Demo.config);
            (Demo.answering Demo.batch_aC Demo.delivered, Demo.config)] Demo.idle).
  - reflexivity.
  - repeat constructor.
    + eapply Repository.answering_distinct_batches; [vm_compute; reflexivity|].
      refine (bool_decide_unpack _ _). vm_compute. exact I.
    + eapply Repository.answering_distinct_batches; [vm_compute; reflexivity|].
      refine (bool_decide_unpack _ _). vm_compute. exact I.
Defined.

(** C8 as stated fails: a batch that holds the same title twice, in two
    cases, puts both Grants in the empty repository. *)
Lemma C8_counterexample :
  map App.lowerTitle
    (grants (runs Demo.platform
               [(Demo.answering Demo.batch_Aa Demo.delivered, Demo.config)] Demo.idle))
  = [Some "a"; Some "a"].
Proof. vm_compute. reflexivity. Qed.

(** ** Relations every step of a run keeps *)

Module FrameFacts.

Import RunFacts RunProps DedupProps.

Lemma addLog_returns P msg lvl h :
  Gemini.addLog P App.onLog msg lvl h = (fst (App.addLog P msg lvl h), Return tt).
Proof. reflexivity. Qed.

Lemma addLog_logs P msg lvl h :
  logs (fst (App.addLog P msg lvl h))
  = logs h ++ [{| log_id := uuidv4_nth P (uuid_calls h);
                  timestamp := clock_nth P (clock_calls h);
                  level := lvl; message := msg |}].
Proof. reflexivity. Qed.

Section Frame.

Variable R : Host -> Host -> Prop.
Hypothesis R_refl : forall h, R h h.
Hypothesis R_trans : forall h1 h2 h3, R h1 h2 -> R h2 h3 -> R h1 h3.

Lemma Keeps_ret {A} (a : A) : Keeps R (ret a).
Proof. intros h. apply R_refl. Qed.

Lemma Keeps_throw {A} e : Keeps R (@throw A e).
Proof. intros h. apply R_refl. Qed.

Lemma Keeps_bind {A B} (m : M A) (k : A -> M B) :
  Keeps R m -> (forall a, Keeps R (k a)) -> Keeps R (bind m k).
Proof.
  intros Hm Hk h. unfold bind. specialize (Hm h).
  destruct (m h) as [h' [a|e]]; simpl in *; [|exact Hm].
  eapply R_trans; [exact Hm | apply Hk].
Qed.

Lemma Keeps_try_catch {A} (m : M A) (k : JsError -> M A) :
  Keeps R m -> (forall e, Keeps R (k e)) -> Keeps R (try_catch m k).
Proof.
  intros Hm Hk h. unfold try_catch. specialize (Hm h).
  destruct (m h) as [h' [a|e]]; simpl in *; [exact Hm|].
  eapply R_trans; [exact Hm | apply Hk].
Qed.

Lemma Keeps_try_finally {A} (m : M A) (fin : M unit) :
  Keeps R m -> Keeps R fin -> Keeps R (try_finally m fin).
Proof.
  intros Hm Hf h. unfold try_finally. specialize (Hm h).
  destruct (m h) as [h' r]; simpl in *. specialize (Hf h').
  destruct (fin h') as [h'' [[]|e]]; simpl in *; eapply R_trans; eauto.
Qed.

Lemma after_bind {A B} (m : M A) (k : A -> M B) h :
  (forall a, Keeps R (k a)) -> R (fst (m h)) (fst (bind m k h)).
Proof.
  intros Hk. unfold bind. destruct (m h) as [h' [a|e]]; simpl; [apply Hk | apply R_refl].
Qed.

Lemma after_try_catch {A} (m : M A) (k : JsError -> M A) h :
  (forall e, Keeps R (k e)) -> R (fst (m h)) (fst (try_catch m k h)).
Proof.
  intros Hk. unfold try_catch.
  destruct (m h) as [h' [a|e]]; simpl; [apply R_refl | apply Hk].
Qed.

Lemma after_try_finally {A} (m : M A) (fin : M unit) h :
  Keeps R fin -> R (fst (m h)) (fst (try_finally m fin h)).
Proof.
  intros Hf. unfold try_finally. destruct (m h) as [h' r]; simpl. specialize (Hf h').
  now destruct (fin h') as [h'' [[]|e]].
Qed.

Lemma Keeps_mapM {A B} (f : A -> M B) l :
  (forall a, Keeps R (f a)) -> Keeps R (mapM f l).
Proof.
  intros Hf. induction l as [|x l IH]; simpl; [apply Keeps_ret|].
  apply Keeps_bind; [apply Hf|]. intros y.
  apply Keeps_bind; [exact IH|]. intros ys. apply Keeps_ret.
Qed.

Lemma Keeps_forEach {A} (f : A -> nat -> M unit) l i :
  (forall a n, Keeps R (f a n)) -> Keeps R (forEach f l i).
Proof.
  intros Hf. revert i. induction l as [|x l IH]; intros i; simpl; [apply Keeps_ret|].
  apply Keeps_bind; [apply Hf | intros _; apply IH].
Qed.

Variable P : Platform.
Hypothesis R_addLog : forall msg lvl, Keeps R (App.addLog P msg lvl).
Hypothesis R_toGrant : forall item, Keeps R (Gemini.toGrant P item).
Hypothesis R_console : forall label detail, Keeps R (perform (ConsoleErrorText label detail)).

Lemma Keeps_Gemini_addLog msg lvl : Keeps R (Gemini.addLog P App.onLog msg lvl).
Proof. exact (R_addLog msg lvl). Qed.

Lemma Keeps_parseGrants text : Keeps R (Gemini.parseGrants P App.onLog text).
Proof.
  unfold Gemini.parseGrants.
  destruct (_ || _).
  - apply Keeps_bind; [apply Keeps_Gemini_addLog | intros _].
    apply Keeps_bind; [apply R_console | intros _; apply Keeps_throw].
  - destruct (Json.parse _ _) as [v|]; [|apply Keeps_throw].
    apply Keeps_bind; [apply Keeps_Gemini_addLog | intros _].
    destruct v; try apply Keeps_throw.
    apply Keeps_mapM, R_toGrant.
Qed.

Lemma Keeps_logChunk chunk idx : Keeps R (Gemini.logChunk P App.onLog chunk idx).
Proof.
  unfold Gemini.logChunk.
  repeat match goal with
         | |- context [match ?x with _ => _ end] => destruct x
         end;
    first [apply Keeps_ret | apply Keeps_throw | apply Keeps_Gemini_addLog].
Qed.

Lemma Keeps_afterResponse response : Keeps R (afterResponse P response).
Proof.
  unfold afterResponse.
  apply Keeps_bind; [apply Keeps_Gemini_addLog | intros _].
  apply Keeps_bind.
  - destruct (groundingChunks response); [|apply Keeps_ret].
    apply Keeps_bind; [apply Keeps_Gemini_addLog | intros _].
    apply Keeps_forEach, Keeps_logChunk.
  - intros _. destruct (text response) as [t|]; [|apply Keeps_throw].
    destruct (truthy t); [apply Keeps_parseGrants | apply Keeps_throw].
Qed.

Lemma Keeps_onDiscoveryError e : Keeps R (onDiscoveryError P e).
Proof.
  unfold onDiscoveryError.
  apply Keeps_bind; [apply Keeps_Gemini_addLog | intros _; apply Keeps_throw].
Qed.

Hypothesis R_provider : forall req, Keeps R (perform (CallGenerateContent req)).

Lemma Keeps_discoverGrants W config :
  Keeps R (Gemini.discoverGrants P W config App.onLog).
Proof.
  unfold Gemini.discoverGrants, Gemini.getClient.
  apply Keeps_bind; [destruct (truthy_opt _); [apply Keeps_ret | apply Keeps_throw]|].
  intros _. do 3 (apply Keeps_bind; [apply Keeps_Gemini_addLog | intros _]).
  apply Keeps_try_catch; [|apply Keeps_onDiscoveryError].
  apply Keeps_bind; [apply Keeps_Gemini_addLog | intros _].
  apply Keeps_bind; [|apply Keeps_afterResponse].
  unfold Gemini.await_generateContent.
  apply Keeps_bind; [apply R_provider | intros _].
  destruct (generateContent _ _); [apply Keeps_throw | apply Keeps_ret].
Qed.

Hypothesis R_setGrants : forall g h, R h (set_grants g h).
Hypothesis R_setIsScanning : forall b h, R h (set_isScanning b h).

Lemma Keeps_setGrants_dedupe results : Keeps R (App.setGrants_dedupe P results).
Proof.
  intros h. unfold App.setGrants_dedupe.
  destruct (dedupe_cases P results (grants h) h) as [(_ & _ & E)|[e E]];
    rewrite E; simpl; [|apply R_refl].
  eapply R_trans; [|apply R_setGrants].
  destruct (_ <? _)%nat; [apply R_addLog | apply R_refl].
Qed.

Variable W : World.
Hypothesis R_dispatch :
  forall recipient gs, Keeps R (App.await_sendNotification W recipient gs).

Lemma Keeps_notifyPhase config newGrants :
  Keeps R (App.notifyPhase P W config newGrants).
Proof.
  unfold App.notifyPhase.
  destruct (_ && _ && _); [apply R_dispatch|].
  destruct (_ && _); [apply R_addLog | apply Keeps_ret].
Qed.

Hypothesis R_failure : forall e, Keeps R (perform (ConsoleErrorValue e)).

Lemma Keeps_onError e : Keeps R (App.onError P e).
Proof.
  unfold App.onError. apply Keeps_bind; [apply R_failure | intros _; apply R_addLog].
Qed.

Lemma Keeps_finalize : Keeps R (App.finalize P).
Proof.
  unfold App.finalize. apply Keeps_bind; [|intros _; apply R_addLog].
  intros h. apply R_setIsScanning.
Qed.

(** What follows the discovery in a run. *)
Lemma after_discovery config h :
  R (fst (Gemini.discoverGrants P W config App.onLog h))
    (fst (try_finally (try_catch (App.runPhases P W config) (App.onError P))
            (App.finalize P) h)).
Proof.
  eapply R_trans; [|apply after_try_finally, Keeps_finalize].
  eapply R_trans; [|apply after_try_catch, Keeps_onError].
  unfold App.runPhases. apply after_bind. intros results.
  apply Keeps_bind; [apply Keeps_setGrants_dedupe | intros newGrants].
  apply Keeps_notifyPhase.
Qed.

Lemma Keeps_runPhases config : Keeps R (App.runPhases P W config).
Proof.
  unfold App.runPhases.
  apply Keeps_bind; [apply Keeps_discoverGrants | intros results].
  apply Keeps_bind; [apply Keeps_setGrants_dedupe | intros newGrants].
  apply Keeps_notifyPhase.
Qed.

Lemma Keeps_guarded config :
  Keeps R (try_catch (App.runPhases P W config) (App.onError P)).
Proof. apply Keeps_try_catch; [apply Keeps_runPhases | apply Keeps_onError]. Qed.

(** From the start entry to the end of the handler. *)
Lemma Keeps_protected config :
  Keeps R (try_finally (try_catch (App.runPhases P W config) (App.onError P))
             (App.finalize P)).
Proof.
  apply Keeps_try_finally; [apply Keeps_guarded | apply Keeps_finalize].
Qed.

End Frame.

(** *** The log grows *)

Lemma log_grows_refl h : log_grows h h.
Proof. exists []. now rewrite app_nil_r. Qed.

Lemma log_grows_trans h1 h2 h3 : log_grows h1 h2 -> log_grows h2 h3 -> log_grows h1 h3.
Proof. intros [l1 E1] [l2 E2]. exists (l1 ++ l2). now rewrite E2, E1, <- app_assoc. Qed.

Lemma log_grows_addLog P msg lvl : Keeps log_grows (App.addLog P msg lvl).
Proof. intros h. eexists. reflexivity. Qed.

Lemma log_grows_toGrant P item : Keeps log_grows (Gemini.toGrant P item).
Proof. intros h. exists []. simpl. now rewrite app_nil_r. Qed.

Lemma log_grows_perform e : Keeps log_grows (perform e).
Proof. intros h. exists []. simpl. now rewrite app_nil_r. Qed.

Lemma log_grows_dispatch W recipient gs :
  Keeps log_grows (App.await_sendNotification W recipient gs).
Proof.
  intros h. unfold App.await_sendNotification, bind, perform.
  rewrite forEach_onLog. simpl.
  destruct (notify_error _); simpl; eexists; reflexivity.
Qed.

Lemma log_grows_guarded P W config :
  Keeps log_grows (try_catch (App.runPhases P W config) (App.onError P)).
Proof.
  apply Keeps_guarded;
    first [ exact log_grows_refl | exact log_grows_trans | apply log_grows_addLog
          | apply log_grows_toGrant | apply log_grows_dispatch
          | intros; apply log_grows_perform
          | intros ? h; exists []; simpl; now rewrite app_nil_r ].
Qed.

(** *** No call to the extraction provider *)

Lemma no_provider_call_refl h : no_provider_call h h.
Proof. exists []. now rewrite app_nil_r. Qed.

Lemma no_provider_call_trans h1 h2 h3 :
  no_provider_call h1 h2 -> no_provider_call h2 h3 -> no_provider_call h1 h3.
Proof.
  intros (es1 & E1 & F1) (es2 & E2 & F2). exists (es1 ++ es2).
  rewrite E2, E1, <- app_assoc. split; [reflexivity|].
  unfold provider_calls in *. now rewrite omap_app, F1, F2.
Qed.

Lemma no_provider_call_performed h h' :
  no_provider_call h h' -> provider_calls (performed h h') = [].
Proof.
  intros (es & E & F). unfold performed. rewrite E, drop_app_length. exact F.
Qed.

Lemma no_provider_call_same h h' : effects h' = effects h -> no_provider_call h h'.
Proof. intros E. exists []. now rewrite app_nil_r. Qed.

Lemma no_provider_call_addLog P msg lvl : Keeps no_provider_call (App.addLog P msg lvl).
Proof. intros h. now apply no_provider_call_same. Qed.

Lemma no_provider_call_toGrant P item : Keeps no_provider_call (Gemini.toGrant P item).
Proof. intros h. now apply no_provider_call_same. Qed.

Lemma no_provider_call_perform e :
  provider_calls [e] = [] -> Keeps no_provider_call (perform e).
Proof. intros He h. now exists [e]. Qed.

Lemma no_provider_call_dispatch W recipient gs :
  Keeps no_provider_call (App.await_sendNotification W recipient gs).
Proof.
  intros h. unfold App.await_sendNotification, bind, perform.
  rewrite forEach_onLog. simpl.
  destruct (notify_error _); simpl; now eexists [_].
Qed.

Ltac no_provider_call_step :=
  first
    [ exact no_provider_call_refl
    | exact no_provider_call_trans
    | apply no_provider_call_addLog
    | apply no_provider_call_toGrant
    | apply no_provider_call_dispatch
    | intros ? ?; apply no_provider_call_same; reflexivity
    | intros; apply no_provider_call_perform; reflexivity ].

(** *** The identifiers of the log *)

Lemma ids_kept_refl P h : ids_kept P h h.
Proof. now intros H. Qed.

Lemma ids_kept_trans P h1 h2 h3 : ids_kept P h1 h2 -> ids_kept P h2 h3 -> ids_kept P h1 h3.
Proof. unfold ids_kept. tauto. Qed.

Lemma ids_kept_same P h h' :
  logs h' = logs h -> uuid_calls h <= uuid_calls h' -> ids_kept P h h'.
Proof.
  intros El Hu (calls & E & N & F). exists calls. rewrite El.
  split; [exact E|]. split; [exact N|].
  eapply Forall_impl; [exact F|]. simpl. intros i Hi. lia.
Qed.

Lemma ids_kept_addLog P msg lvl : Keeps (ids_kept P) (App.addLog P msg lvl).
Proof.
  intros h (calls & E & N & F). exists (calls ++ [uuid_calls h]). simpl.
  split; [now rewrite !map_app, E|]. split.
  - apply NoDup_app. split; [exact N|]. split; [|apply NoDup_singleton].
    intros i Hi Hin. apply list_elem_of_singleton in Hin. subst i.
    rewrite Forall_forall in F. specialize (F _ Hi). simpl in F. lia.
  - apply Forall_app. split.
    + eapply Forall_impl; [exact F|]. simpl. intros i Hi. lia.
    + repeat constructor.
Qed.

Lemma ids_kept_dispatch P W recipient gs :
  notify_logs (sendNotification W recipient gs) = [] ->
  Keeps (ids_kept P) (App.await_sendNotification W recipient gs).
Proof.
  intros Hnone h. unfold App.await_sendNotification, bind, perform.
  rewrite forEach_onLog, Hnone. simpl.
  destruct (notify_error _); simpl; apply ids_kept_same; simpl;
    first [now rewrite app_nil_r | lia].
Qed.

Lemma ids_kept_protected P W config :
  (forall recipient gs, notify_logs (sendNotification W recipient gs) = []) ->
  Keeps (ids_kept P) (try_finally (try_catch (App.runPhases P W config) (App.onError P))
                        (App.finalize P)).
Proof.
  intros Hnone.
  apply Keeps_protected;
    first [ exact (ids_kept_refl P) | exact (ids_kept_trans P) | apply ids_kept_addLog
          | intros; apply ids_kept_dispatch, Hnone
          | intros; first [apply ids_kept_same | intros ?; apply ids_kept_same];
            simpl; first [reflexivity | lia] ].
Qed.

End FrameFacts.

(** ** Further properties of the parse step *)

Module ParseExtras.

Import JsString TextFacts RunFacts ParseProps FrameFacts.

(** The span from the first opening to the last closing bracket, when
    they come in that order, is written between brackets and the text
    wraps it. *)
Lemma span_wraps l i j :
  find_first "[" l = Some i -> find_last "]" l = Some j -> i <= j ->
  bracketed (bracket_span l) /\ wraps (bracket_span l) l.
Proof.
  intros Hi Hj Hij. unfold bracket_span. rewrite Hi, Hj.
  destruct (find_first_Some _ _ _ Hi) as (p & r & El & Lp & Np).
  destruct (find_last_Some _ _ _ Hj) as (p' & r' & El' & Lp' & Nr').
  assert (Hsplit : exists m, l = p ++ "["%char :: m ++ "]"%char :: r' /\ j = i + S (length m)).
  { pose proof El' as E. rewrite El in E.
    apply app_eq_app in E. destruct E as [x [[E1 E2]|[E1 E2]]].
    - exfalso. destruct x as [|c x].
      + simpl in E2. discriminate.
      + assert (H : length p = length p' + length (c :: x))
          by (rewrite E1; apply length_app).
        simpl in H. clear - Hij Lp Lp' H. lia.
    - destruct x as [|c x].
      + simpl in E2. discriminate.
      + simpl in E2. injection E2 as <- ->. exists x. split.
        * now rewrite El.
        * assert (H : length p' = length p + length ("["%char :: x))
            by (rewrite E1; apply length_app).
          simpl in H. clear - Lp Lp' H. lia. }
  destruct Hsplit as (m & -> & Lm).
  assert (Hspan : take (S j - i) (drop i (p ++ "["%char :: m ++ "]"%char :: r'))
                  = "["%char :: m ++ ["]"%char]).
  { rewrite <- Lp, drop_app_length.
    replace (S j - length p) with (length ("["%char :: m ++ ["]"%char])).
    - change ("["%char :: m ++ "]"%char :: r') with (("["%char :: m) ++ ["]"%char] ++ r').
      rewrite app_assoc. apply take_app_length.
    - simpl. rewrite length_app. simpl. clear - Lp Lm Hij. lia. }
  rewrite Hspan. split.
  - now exists m.
  - exists p, r'. split; [|now split].
    simpl. now rewrite <- app_assoc.
Qed.

(** A text with that span has its brackets in that order. *)
Lemma span_ordered l body :
  bracket_span l = "["%char :: body ->
  exists i j, find_first "[" l = Some i /\ find_last "]" l = Some j /\ i <= j.
Proof.
  unfold bracket_span.
  destruct (find_first "[" l) as [i|]; [|discriminate].
  destruct (find_last "]" l) as [j|]; [|discriminate].
  intros H. exists i, j. split; [reflexivity|]. split; [reflexivity|].
  destruct (le_lt_dec i j) as [Hle|Hlt]; [exact Hle|].
  replace (S j - i) with 0 in H by lia. discriminate.
Qed.

Lemma parseGrants_of_span P text h s :
  bracketed s -> wraps s (chars text) ->
  Gemini.parseGrants P App.onLog text h
  = match Json.parse (fl P) s with
    | None => throw (engine_error P SyntaxError (BadJson s)) h
    | Some parsedData =>
        (Gemini.addLog P App.onLog
           ("Successfully extracted " +:+ Gemini.show_length P parsedData
              +:+ " opportunities.") SUCCESS ;;
         match parsedData with
         | JArray items => mapM (Gemini.toGrant P) items
         | _ => throw (engine_error P TypeError (BadCall "parsedData.map"))
         end) h
    end.
Proof.
  intros Hb Hw.
  destruct (wraps_slice _ _ Hb (wraps_cleanJson _ _ Hb Hw)) as (N1 & N2 & Hslice).
  unfold Gemini.parseGrants. cbv zeta.
  apply Z.eqb_neq in N1, N2. rewrite N1, N2. cbn [orb].
  rewrite Hslice. now destruct (Json.parse (fl P) s).
Qed.

(** X18. The parse step reads only the span from the first opening to
    the last closing bracket: two texts with the same span, the
    brackets in that order, are parsed to the same outcome, error or
    Grants, with the same log entries. Fences, prose and anything else
    around the span have no effect. *)
Theorem parse_reads_only_the_span P text text' i j h :
  find_first "[" (chars text) = Some i ->
  find_last "]" (chars text) = Some j ->
  i <= j ->
  bracket_span (chars text') = bracket_span (chars text) ->
  Gemini.parseGrants P App.onLog text' h = Gemini.parseGrants P App.onLog text h.
Proof.
  intros Hi Hj Hij Hsame.
  destruct (span_wraps _ _ _ Hi Hj Hij) as [Hb Hw].
  assert (Hw' : wraps (bracket_span (chars text)) (chars text')).
  { destruct Hb as [body Hbody]. rewrite Hbody in Hsame.
    destruct (span_ordered _ _ Hsame) as (i' & j' & Hi' & Hj' & Hij').
    rewrite Hbody, <- Hsame.
    exact (proj2 (span_wraps _ _ _ Hi' Hj' Hij')). }
  now rewrite (parseGrants_of_span P text h _ Hb Hw),
              (parseGrants_of_span P text' h _ Hb Hw').
Qed.

Lemma parse_reads_only_the_span_witness :
  Gemini.parseGrants Demo.platform App.onLog
    ("```javascript " +:+ Demo.batch_AB +:+ " thanks") Demo.idle
  = Gemini.parseGrants Demo.platform App.onLog Demo.batch_AB Demo.idle.
Proof.
  apply (parse_reads_only_the_span Demo.platform Demo.batch_AB
           ("```javascript " +:+ Demo.batch_AB +:+ " thanks") 0 44 Demo.idle).
  - reflexivity.
  - vm_compute. reflexivity.
  - lia.
  - vm_compute. reflexivity.
Defined.

Lemma mapM_toGrant_state P items h h' gs :
  mapM (Gemini.toGrant P) items h = (h', Return gs) ->
  logs h' = logs h /\ effects h' = effects h
  /\ uuid_calls h' = uuid_calls h + length items
  /\ random_calls h' = random_calls h + length items
  /\ length gs = length items.
Proof.
  revert h h' gs. induction items as [|item items IH]; intros h h' gs H; simpl in H.
  - injection H as <- <-. simpl. repeat split; lia.
  - rewrite (bind_Return _ _ h _ _ eq_refl) in H.
    apply bind_Return_inv in H. destruct H as (h1 & gs1 & H1 & H2).
    injection H2 as <- <-.
    destruct (IH _ _ _ H1) as (L & E & U & R & N).
    rewrite L, E, U, R. simpl. rewrite N. repeat split; lia.
Qed.

(** X19. A parse step that returns keeps an exact account: it adds one
    log entry, a SUCCESS entry with the number of Grants it returns,
    prints nothing on the console, and has drawn one identifier for
    that entry and one identifier and one random number for each
    Grant. *)
Theorem parse_success_is_counted P text h h' gs :
  Gemini.parseGrants P App.onLog text h = (h', Return gs) ->
  reported h h'
  = [(SUCCESS, "Successfully extracted " +:+ pretty (length gs) +:+ " opportunities.")]
  /\ performed h h' = []
  /\ uuid_calls h' = uuid_calls h + 1 + length gs
  /\ random_calls h' = random_calls h + length gs.
Proof.
  unfold Gemini.parseGrants. cbv zeta.
  destruct (_ || _); [discriminate|].
  destruct (Json.parse _ _) as [v|]; [|discriminate].
  rewrite (bind_Return _ _ _ _ _ (addLog_returns _ _ _ _)).
  destruct v as [| b | n | s | items | ms]; try discriminate.
  intros H. destruct (mapM_toGrant_state _ _ _ _ _ H) as (L & E & U & R & N).
  unfold reported, performed. rewrite L, E, U, R, N. simpl.
  rewrite !drop_app_length. simpl. rewrite drop_all. repeat split; lia.
Qed.

Lemma parse_success_is_counted_witness :
  reported Cases.used
    (fst (Gemini.parseGrants Demo.platform App.onLog Demo.batch_AB Cases.used))
  = [(SUCCESS, "Successfully extracted 2 opportunities.")].
Proof.
  pose (h' := fst (Gemini.parseGrants Demo.platform App.onLog Demo.batch_AB Cases.used)).
  apply (parse_success_is_counted Demo.platform Demo.batch_AB Cases.used h'
           (grantsOf Demo.platform 1 0
              [JObject [("program_title", JString "A")];
               JObject [("program_title", JString "B")]])).
  reflexivity.
Defined.

End ParseExtras.

(** ** Further properties of the discovery *)

Module DiscoveryProps.

Import RunFacts ParseProps RunProps DedupProps FrameFacts.

Lemma discoverGrants_eq P W config :
  Gemini.discoverGrants P W config App.onLog
  = (Gemini.getClient P ;;
     Gemini.addLog P App.onLog "Initializing Grant Discovery Protocol v1.0" INFO ;;
     Gemini.addLog P App.onLog ("Target Year: " +:+ pretty (year config)) INFO ;;
     Gemini.addLog P App.onLog
       ("Keywords: [" +:+ String.concat ", " (keywords config) +:+ "]") INFO ;;
     try_catch
       (Gemini.addLog P App.onLog "Executing search query on Google Index..." INFO ;;
        response <- Gemini.await_generateContent W (Gemini.request config) ;;
        afterResponse P response)
       (onDiscoveryError P)).
Proof. reflexivity. Qed.

Lemma await_run W req h :
  Gemini.await_generateContent W req h
  = (set_effects (effects h ++ [CallGenerateContent req]) h,
     match generateContent W req with
     | inl e => Throw e
     | inr response => Return response
     end).
Proof.
  unfold Gemini.await_generateContent, bind, perform.
  now destruct (generateContent W req).
Qed.

Lemma onDiscoveryError_run P e h :
  onDiscoveryError P e h
  = (fst (App.addLog P ("Error during discovery: " +:+ err_message e) ERROR h), Throw e).
Proof. reflexivity. Qed.

(** With an API key the discovery reaches the provider: it asks it
    once, after four log entries, and goes on from the answer. *)
Lemma discovery_reaches_provider P W config h :
  truthy_opt (API_KEY P) = true ->
  exists h1,
    effects h1 = effects h
    /\ Gemini.discoverGrants P W config App.onLog h
       = match generateContent W (Gemini.request config) with
         | inl e =>
             onDiscoveryError P e
               (set_effects (effects h1 ++ [CallGenerateContent (Gemini.request config)]) h1)
         | inr response =>
             try_catch (afterResponse P response) (onDiscoveryError P)
               (set_effects (effects h1 ++ [CallGenerateContent (Gemini.request config)]) h1)
         end.
Proof.
  intros Hkey. rewrite discoverGrants_eq. unfold Gemini.getClient. rewrite Hkey.
  rewrite (bind_Return (ret tt) _ h h tt eq_refl).
  do 3 rewrite (bind_Return _ _ _ _ _ (addLog_returns _ _ _ _)).
  unfold try_catch at 1.
  rewrite (bind_Return _ _ _ _ _ (addLog_returns _ _ _ _)).
  unfold bind at 1. rewrite await_run.
  eexists. split; [|destruct (generateContent W (Gemini.request config)); reflexivity].
  reflexivity.
Qed.

(** The discovery after the provider was asked adds no call to it. *)
Lemma answered_no_provider_call P W config h :
  no_provider_call h
    (fst (match generateContent W (Gemini.request config) with
          | inl e => onDiscoveryError P e h
          | inr response => try_catch (afterResponse P response) (onDiscoveryError P) h
          end)).
Proof.
  assert (Herr : forall e, Keeps no_provider_call (onDiscoveryError P e)).
  { intros e. apply Keeps_onDiscoveryError; no_provider_call_step. }
  assert (Htry : forall response,
            Keeps no_provider_call
              (try_catch (afterResponse P response) (onDiscoveryError P))).
  { intros response.
    apply Keeps_try_catch; [no_provider_call_step | | exact Herr].
    apply Keeps_afterResponse; no_provider_call_step. }
  destruct (generateContent W (Gemini.request config)) as [e|response];
    [apply Herr | apply Htry].
Qed.

(** X11. A run asks the extraction provider exactly once, with the
    model, the search tool, the temperature and the keywords and year
    of the configuration, whatever happens afterwards: there is no
    retry after a failure. A start that is refused, for want of an API
    key or because a run is in progress, does not ask it at all. *)
Theorem provider_is_asked_once P W config h :
  provider_calls (performed h (fst (App.handleRunDiscovery P W config h)))
  = if truthy_opt (API_KEY P) && negb (isScanning h)
    then [Gemini.request config] else [].
Proof.
  destruct (truthy_opt (API_KEY P)) eqn:Hkey.
  2: { unfold App.handleRunDiscovery. rewrite Hkey. cbn [negb andb].
       unfold performed. simpl. now rewrite drop_app_length. }
  destruct (isScanning h) eqn:Hscan.
  { unfold App.handleRunDiscovery. rewrite Hkey. cbn [negb andb]. cbv beta.
    rewrite Hscan. unfold performed. simpl. now rewrite drop_all. }
  cbn [negb andb]. rewrite handleRunDiscovery_runs by assumption.
  destruct (discovery_reaches_provider P W config (started P h) Hkey) as (h1 & E1 & Hd).
  set (hc := set_effects (effects h1 ++ [CallGenerateContent (Gemini.request config)]) h1)
    in Hd.
  assert (Hnp : no_provider_call hc
                  (fst (try_finally
                          (try_catch (App.runPhases P W config) (App.onError P))
                          (App.finalize P) (started P h)))).
  { eapply no_provider_call_trans.
    - pose proof (answered_no_provider_call P W config hc) as H.
      rewrite <- Hd in H. exact H.
    - apply after_discovery; no_provider_call_step. }
  destruct Hnp as (es & Hes & Hnone).
  rewrite (WholeRun.performed_app h _ (CallGenerateContent (Gemini.request config) :: es)).
  - simpl. fold (provider_calls es). now rewrite Hnone.
  - rewrite Hes. unfold hc. simpl. rewrite E1. simpl. now rewrite <- app_assoc.
Qed.

(** X12. A discovery that fails never fails silently: without an API
    key it throws before anything is logged; with one, its last act is
    an ERROR entry that carries the message of the error, and the error
    it throws is the one that was caught. *)
Theorem failed_discovery_is_reported P W config h h' e :
  Gemini.discoverGrants P W config App.onLog h = (h', Throw e) ->
  if truthy_opt (API_KEY P)
  then exists front entry,
         logs h' = front ++ [entry]
         /\ level entry = ERROR
         /\ message entry = "Error during discovery: " +:+ err_message e
  else h' = h /\ e = new_Error "API Key not found".
Proof.
  intros H. destruct (truthy_opt (API_KEY P)) eqn:Hkey.
  2: { rewrite discoverGrants_eq in H. unfold Gemini.getClient in H.
       rewrite Hkey in H. unfold bind, throw in H. now injection H as <- <-. }
  destruct (discovery_reaches_provider P W config h Hkey) as (h1 & _ & Hd).
  rewrite Hd in H. clear Hd.
  assert (Hlast : forall e0 k, onDiscoveryError P e0 k = (h', Throw e) ->
            exists front entry,
              logs h' = front ++ [entry] /\ level entry = ERROR
              /\ message entry = "Error during discovery: " +:+ err_message e).
  { intros e0 k Hk. rewrite onDiscoveryError_run in Hk. injection Hk as <- <-.
    eexists _, _. split; [apply addLog_logs|]. now split. }
  destruct (generateContent W (Gemini.request config)) as [e0|response]; [eauto|].
  unfold try_catch in H.
  destruct (afterResponse P response _) as [h2 [gs|e0]]; [discriminate | eauto].
Qed.

Lemma failed_discovery_is_reported_witness :
  exists front entry,
    logs (fst (Gemini.discoverGrants Demo.platform Demo.unreachable Demo.config
                 App.onLog Demo.idle))
    = front ++ [entry]
    /\ level entry = ERROR
    /\ message entry = "Error during discovery: provider unreachable".
Proof.
  apply (failed_discovery_is_reported Demo.platform Demo.unreachable Demo.config
           Demo.idle _ (new_Error "provider unreachable")).
  vm_compute. reflexivity.
Defined.

(** *** The grounding chunks *)

Lemma logChunk_cases P chunk idx h :
  (exists h', Gemini.logChunk P App.onLog chunk idx h = (h', Return tt))
  \/ (exists u, Gemini.logChunk P App.onLog chunk idx h
                = (h, Throw (engine_error P TypeError (BadUrl u)))
                /\ bad_source P chunk /\ idx < 3).
Proof.
  unfold Gemini.logChunk, bad_source.
  destruct (web chunk) as [w|] eqn:Hw; [|left; eexists; reflexivity].
  destruct (uri w) as [u|] eqn:Hu'; [|left; eexists; reflexivity].
  destruct (truthy u) eqn:Hu; [|left; eexists; reflexivity].
  destruct (idx <? 3)%nat eqn:Hi; [|left; eexists; reflexivity].
  cbn [andb]. destruct (hostname_of P u) as [host|] eqn:Hh;
    [left; eexists; reflexivity|].
  right. exists u. split; [reflexivity|]. apply Nat.ltb_lt in Hi.
  split; [|exact Hi]. exists w, u. auto.
Qed.

Lemma logChunk_late P chunk idx h :
  3 <= idx -> Gemini.logChunk P App.onLog chunk idx h = (h, Return tt).
Proof.
  intros Hi. unfold Gemini.logChunk.
  destruct (web chunk) as [w|]; [|reflexivity].
  destruct (uri w) as [u|]; [|reflexivity].
  apply Nat.ltb_ge in Hi. rewrite Hi, andb_false_r. reflexivity.
Qed.

Lemma forEach_logChunk_late P chunks idx h :
  3 <= idx -> forEach (Gemini.logChunk P App.onLog) chunks idx h = (h, Return tt).
Proof.
  revert idx h. induction chunks as [|c chunks IH]; intros idx h Hi; simpl; [reflexivity|].
  rewrite (bind_Return _ _ _ _ _ (logChunk_late P c idx h Hi)). apply IH. lia.
Qed.

Lemma forEach_logChunk_bad P chunks idx h j chunk :
  chunks !! j = Some chunk -> bad_source P chunk -> idx + j < 3 ->
  exists h' u, forEach (Gemini.logChunk P App.onLog) chunks idx h
               = (h', Throw (engine_error P TypeError (BadUrl u))).
Proof.
  revert idx h j. induction chunks as [|c chunks IH]; intros idx h j Hj Hbad Hlt;
    [discriminate|].
  simpl. destruct (logChunk_cases P c idx h) as [(h1 & E)|(u & E & _)].
  2: { rewrite (bind_Throw _ _ _ _ _ E). eauto. }
  rewrite (bind_Return _ _ _ _ _ E). destruct j as [|j].
  - exfalso. injection Hj as ->.
    destruct Hbad as (w & u & Hw & Hu & Ht & Hh).
    unfold Gemini.logChunk in E. rewrite Hw, Hu, Ht, Hh in E.
    assert (Hi : (idx <? 3)%nat = true) by (apply Nat.ltb_lt; lia).
    rewrite Hi in E. discriminate.
  - apply (IH (S idx) h1 j); [exact Hj | exact Hbad | lia].
Qed.

Lemma forEach_logChunk_cases P chunks idx h :
  (exists h', forEach (Gemini.logChunk P App.onLog) chunks idx h = (h', Return tt))
  \/ (exists h' u, forEach (Gemini.logChunk P App.onLog) chunks idx h
                   = (h', Throw (engine_error P TypeError (BadUrl u)))).
Proof.
  revert idx h. induction chunks as [|c chunks IH]; intros idx h; simpl.
  - left. eexists. reflexivity.
  - destruct (logChunk_cases P c idx h) as [(h1 & E)|(u & E & _)].
    + rewrite (bind_Return _ _ _ _ _ E). apply IH.
    + right. rewrite (bind_Throw _ _ _ _ _ E). eauto.
Qed.

(** X13. Only the first three grounding chunks are looked at: going
    through all of them is going through the first three, so a later
    chunk is neither logged nor given to the URL parser, and a
    malformed address in it cannot fail the discovery. *)
Theorem later_sources_are_ignored P chunks h :
  forEach (Gemini.logChunk P App.onLog) chunks 0 h
  = forEach (Gemini.logChunk P App.onLog) (take 3 chunks) 0 h.
Proof.
  assert (G : forall n idx k,
             idx + n = 3 ->
             forEach (Gemini.logChunk P App.onLog) chunks idx k
             = forEach (Gemini.logChunk P App.onLog) (take n chunks) idx k).
  { induction chunks as [|c chunks IH]; intros n idx k Hn.
    - now rewrite take_nil.
    - destruct n as [|n].
      + simpl take. rewrite forEach_logChunk_late by lia. reflexivity.
      + simpl. unfold bind.
        destruct (Gemini.logChunk P App.onLog c idx k) as [k1 [[]|e]]; [|reflexivity].
        apply IH. lia. }
  now apply G.
Qed.

(** X14. An answer without text fails the discovery, whatever else it
    holds: the error is "No response generated from AI.", unless one of
    the grounding chunks had already failed it with a malformed
    address. *)
Theorem empty_answer_fails_discovery P W config response h :
  truthy_opt (API_KEY P) = true ->
  generateContent W (Gemini.request config) = inr response ->
  truthy_opt (text response) = false ->
  exists h' e,
    Gemini.discoverGrants P W config App.onLog h = (h', Throw e)
    /\ (e = new_Error "No response generated from AI."
        \/ exists u, e = engine_error P TypeError (BadUrl u)).
Proof.
  intros Hkey Hgen Htext.
  destruct (discovery_reaches_provider P W config h Hkey) as (h1 & _ & ->).
  rewrite Hgen. unfold try_catch, afterResponse.
  rewrite (bind_Return _ _ _ _ _ (addLog_returns _ _ _ _)).
  set (k := fst (App.addLog P _ SUCCESS _)).
  assert (Hchunks :
    (exists k', match groundingChunks response with
                | Some chunks =>
                    bind (Gemini.addLog P App.onLog
                            ("Accessed " +:+ pretty (length chunks)
                               +:+ " unique sources for verification.") INFO)
                      (fun _ => forEach (Gemini.logChunk P App.onLog) chunks 0)
                | None => ret tt
                end k = (k', Return tt))
    \/ (exists k' u, match groundingChunks response with
                     | Some chunks =>
                         bind (Gemini.addLog P App.onLog
                                 ("Accessed " +:+ pretty (length chunks)
                                    +:+ " unique sources for verification.") INFO)
                           (fun _ => forEach (Gemini.logChunk P App.onLog) chunks 0)
                     | None => ret tt
                     end k = (k', Throw (engine_error P TypeError (BadUrl u))))).
  { destruct (groundingChunks response) as [chunks|]; [|left; eexists; reflexivity].
    rewrite (bind_Return _ _ _ _ _ (addLog_returns _ _ _ _)).
    apply forEach_logChunk_cases. }
  destruct Hchunks as [(k' & E)|(k' & u & E)].
  - rewrite (bind_Return _ _ _ _ _ E).
    assert (Hthrow : match text response with
                     | Some text =>
                         if truthy text then Gemini.parseGrants P App.onLog text
                         else throw (new_Error "No response generated from AI.")
                     | None => throw (new_Error "No response generated from AI.")
                     end k' = (k', Throw (new_Error "No response generated from AI."))).
    { destruct (text response) as [t|]; [|reflexivity].
      simpl in Htext. now rewrite Htext. }
    rewrite Hthrow. rewrite onDiscoveryError_run.
    eexists _, _. split; [reflexivity | now left].
  - rewrite (bind_Throw _ _ _ _ _ E). rewrite onDiscoveryError_run.
    eexists _, _. split; [reflexivity | right; now exists u].
Qed.

Lemma empty_answer_fails_discovery_witness :
  exists h' e,
    Gemini.discoverGrants Demo.platform (Demo.answering EmptyString Demo.delivered)
      Demo.config App.onLog Demo.idle = (h', Throw e)
    /\ (e = new_Error "No response generated from AI."
        \/ exists u, e = engine_error Demo.platform TypeError (BadUrl u)).
Proof.
  apply (empty_answer_fails_discovery Demo.platform
           (Demo.answering EmptyString Demo.delivered) Demo.config
           {| text := Some EmptyString; groundingChunks := None |} Demo.idle);
    reflexivity.
Defined.

(** X15. A malformed address in one of the first three grounding
    chunks fails the whole discovery with the TypeError of the URL
    parser, even when the text of the answer holds a valid array: the
    chunks are gone through before the text is parsed. *)
Theorem bad_source_fails_discovery P W config response chunks j chunk h :
  truthy_opt (API_KEY P) = true ->
  generateContent W (Gemini.request config) = inr response ->
  groundingChunks response = Some chunks ->
  chunks !! j = Some chunk -> j < 3 -> bad_source P chunk ->
  exists h' u,
    Gemini.discoverGrants P W config App.onLog h
    = (h', Throw (engine_error P TypeError (BadUrl u))).
Proof.
  intros Hkey Hgen Hchunks Hj Hlt Hbad.
  destruct (discovery_reaches_provider P W config h Hkey) as (h1 & _ & ->).
  rewrite Hgen. unfold try_catch, afterResponse. rewrite Hchunks.
  rewrite (bind_Return _ _ _ _ _ (addLog_returns _ _ _ _)).
  unfold bind at 1.
  rewrite (bind_Return _ _ _ _ _ (addLog_returns _ _ _ _)).
  edestruct (forEach_logChunk_bad P chunks 0) as (k' & u & ->);
    [exact Hj | exact Hbad | lia |].
  rewrite onDiscoveryError_run. eauto.
Qed.

Lemma bad_source_fails_discovery_witness :
  exists h' u,
    Gemini.discoverGrants Cases.strict_urls
      (Cases.grounded (Some Demo.batch_AB) [Cases.source "no address"])
      Demo.config App.onLog Demo.idle
    = (h', Throw (engine_error Cases.strict_urls TypeError (BadUrl u))).
Proof.
  apply (bad_source_fails_discovery Cases.strict_urls
           (Cases.grounded (Some Demo.batch_AB) [Cases.source "no address"])
           Demo.config
           {| text := Some Demo.batch_AB;
              groundingChunks := Some [Cases.source "no address"] |}
           [Cases.source "no address"] 0 (Cases.source "no address") Demo.idle).
  - reflexivity.
  - reflexivity.
  - reflexivity.
  - reflexivity.
  - lia.
  - exists {| uri := Some "no address"; title := Some "page" |}, "no address".
    repeat split.
Defined.

End DiscoveryProps.

(** ** The log of a run *)

Module LogProps.

Import RunFacts RunProps FrameFacts.



(** X17. The entries of the log a run leaves have different
    identifiers, as the terminal that lists them by identifier needs,
    when [uuidv4] never gives the same value twice and the notification
    service adds no entries of its own making. *)
Theorem run_log_ids_distinct P W config h :
  truthy_opt (API_KEY P) = true ->
  isScanning h = false ->
  (forall i j, uuidv4_nth P i = uuidv4_nth P j -> i = j) ->
  (forall recipient gs, notify_logs (sendNotification W recipient gs) = []) ->
  NoDup (map log_id (logs (fst (App.handleRunDiscovery P W config h)))).
Proof.
  intros Hkey Hidle Hinj Hnone.
  rewrite handleRunDiscovery_runs by assumption.
  destruct (ids_kept_protected P W config Hnone (started P h)) as (calls & E & N & _).
  { exists [uuid_calls h]. split; [reflexivity|]. split; [apply NoDup_singleton|].
    repeat constructor. }
  rewrite E. exact (NoDup_fmap_2 (uuidv4_nth P) (Inj0 := Hinj) calls N).
Qed.

Lemma run_log_ids_distinct_witness :
  NoDup (map log_id
           (logs (fst (App.handleRunDiscovery Demo.platform
                         (Demo.answering Demo.batch_aC Demo.delivered)
                         Demo.config Demo.stocked)))).
Proof.
  apply (run_log_ids_distinct Demo.platform
           (Demo.answering Demo.batch_aC Demo.delivered) Demo.config Demo.stocked).
  - reflexivity.
  - reflexivity.
  - intros i j H. injection H as H. exact (pretty_nat_inj _ _ H).
  - reflexivity.
Defined.

End LogProps.


(** ** Further properties of a whole run *)

Module RunExtras.

Import RunFacts RunProps DedupProps.

(** X1. The handler never throws: whatever the provider, the parser,
    the deduplication or the notification service do, the call of
    [handleRunDiscovery] returns. *)
Theorem handler_never_throws P W config h :
  snd (App.handleRunDiscovery P W config h) = Return tt.
Proof.
  destruct (truthy_opt (API_KEY P)) eqn:Hkey.
  - destruct (isScanning h) eqn:Hscan.
    + unfold App.handleRunDiscovery. rewrite Hkey. cbn [negb]. cbv beta.
      now rewrite Hscan.
    + rewrite handleRunDiscovery_runs by assumption. now rewrite closing_run.
  - unfold App.handleRunDiscovery. rewrite Hkey. reflexivity.
Qed.

(** X2. Without an API key no run starts, scanning or not: the handler
    adds one ERROR entry to the log it finds, raises one alert, calls
    neither the provider nor the notification service and leaves the
    repository and the scanning flag alone. *)
Theorem missing_key_only_reports P W config h :
  truthy_opt (API_KEY P) = false ->
  grants (fst (App.handleRunDiscovery P W config h)) = grants h
  /\ isScanning (fst (App.handleRunDiscovery P W config h)) = isScanning h
  /\ reported h (fst (App.handleRunDiscovery P W config h))
     = [(ERROR, "ERROR: API Key is missing. Please set process.env.API_KEY.")]
  /\ performed h (fst (App.handleRunDiscovery P W config h))
     = [Alert "API Key missing! This app requires a Gemini API Key in the environment."].
Proof.
  intros Hkey. unfold App.handleRunDiscovery. rewrite Hkey. cbn [negb].
  unfold reported, performed. simpl. rewrite !drop_app_length. repeat split.
Qed.

Lemma missing_key_only_reports_witness :
  reported Cases.used
    (fst (App.handleRunDiscovery Cases.keyless Demo.unreachable Demo.config Cases.used))
  = [(ERROR, "ERROR: API Key is missing. Please set process.env.API_KEY.")].
Proof.
  apply (missing_key_only_reports Cases.keyless Demo.unreachable Demo.config Cases.used).
  reflexivity.
Defined.

(** X3. The repository only grows: after any sequence of runs it is the
    earlier repository with Grants put in front of it; no run removes
    or reorders what was there. *)
Theorem repository_only_grows P l h :
  exists added, grants (runs P l h) = added ++ grants h.
Proof.
  revert h. induction l as [|wc l IH]; intros h; simpl.
  - now exists [].
  - destruct (IH (run P wc h)) as (added & ->). unfold run.
    destruct (WholeRun.run_repository P (fst wc) (snd wc) h)
      as [-> | (_ & _ & results & _ & _ & ->)].
    + now exists added.
    + eexists. now rewrite app_assoc.
Qed.

(** X4. Every Grant a run merges has a string title: a repository whose
    Grants all have one keeps that through any sequence of runs. *)
Theorem repository_stays_titled P l h :
  Forall (fun g => is_Some (App.lowerTitle g)) (grants h) ->
  Forall (fun g => is_Some (App.lowerTitle g)) (grants (runs P l h)).
Proof.
  revert h. induction l as [|wc l IH]; intros h Hh; simpl; [exact Hh|].
  apply IH. unfold run.
  destruct (WholeRun.run_repository P (fst wc) (snd wc) h)
    as [-> | (_ & _ & results & _ & Tres & ->)]; [exact Hh|].
  apply Forall_app. split; [|exact Hh].
  apply Forall_forall. intros g Hg. apply list_elem_of_In, filter_In in Hg.
  rewrite Forall_forall in Tres. apply Tres, list_elem_of_In. tauto.
Qed.

Lemma repository_stays_titled_witness :
  Forall (fun g => is_Some (App.lowerTitle g))
    (grants (runs Demo.platform
               [(Demo.answering Cases.batch_untitled Demo.delivered, Demo.config);
                (Demo.answering Demo.batch_aC Demo.delivered, Demo.config)]
               Demo.stocked)).
Proof.
  apply (repository_stays_titled Demo.platform
           [(Demo.answering Cases.batch_untitled Demo.delivered, Demo.config);
            (Demo.answering Demo.batch_aC Demo.delivered, Demo.config)] Demo.stocked).
  repeat constructor. vm_compute. eauto.
Defined.



Lemma run_keeps_flag P wc h : isScanning (run P wc h) = isScanning h.
Proof.
  unfold run. destruct (truthy_opt (API_KEY P)) eqn:Hkey.
  2: { unfold App.handleRunDiscovery. now rewrite Hkey. }
  destruct (isScanning h) eqn:Hscan.
  - unfold App.handleRunDiscovery. rewrite Hkey. cbn [negb]. cbv beta.
    now rewrite Hscan.
  - rewrite handleRunDiscovery_runs, closing_run by assumption.
    apply finalized_scanning.
Qed.

(** X21. The handler always gives the scanning flag back as it found
    it: a run that starts sets it and clears it again on every path,
    failures included, and a refused start does not touch it. So after
    any sequence of runs from an idle state the state is idle, and no
    run leaves the start button disabled. *)
Theorem scanning_flag_is_restored P l h :
  isScanning (runs P l h) = isScanning h.
Proof.
  revert h. induction l as [|wc l IH]; intros h; simpl; [reflexivity|].
  now rewrite IH, run_keeps_flag.
Qed.

End RunExtras.


(** ** Further properties of the deduplication and the notification phase *)

Module PhaseExtras.

Import RunFacts RunProps DedupProps.

Lemma filter_none {A} (p : A -> bool) (l : list A) :
  (forall x, In x l -> p x = false) -> List.filter p l = [].
Proof.
  induction l as [|x l IH]; simpl; intros H; [reflexivity|].
  rewrite (H x) by now left. apply IH. intros y Hy. apply H. now right.
Qed.

Lemma known_mono (prev more : list Grant) g :
  known (existingTitlesOf prev) g = true ->
  known (existingTitlesOf (more ++ prev)) g = true.
Proof.
  unfold known. destruct (App.lowerTitle g) as [k|]; [|discriminate].
  rewrite !bool_decide_eq_true. unfold existingTitlesOf.
  rewrite !elem_of_list_to_set, omap_app, elem_of_app. tauto.
Qed.

Lemma known_member (gs : list Grant) g g' k :
  In g gs -> App.lowerTitle g = Some k -> App.lowerTitle g' = Some k ->
  known (existingTitlesOf gs) g' = true.
Proof.
  intros Hg Hk Hk'. unfold known. rewrite Hk'. apply bool_decide_eq_true.
  unfold existingTitlesOf. apply elem_of_list_to_set, list_elem_of_omap.
  exists g. split; [now apply list_elem_of_In | exact Hk].
Qed.

Lemma titled_same (results results' : list Grant) :
  same_titles results' results ->
  Forall (fun g => is_Some (App.lowerTitle g)) results ->
  Forall (fun g => is_Some (App.lowerTitle g)) results'.
Proof.
  intros Hsame Hres. apply Forall_forall. intros g' Hg'. apply list_elem_of_In in Hg'.
  apply (in_map App.lowerTitle) in Hg'. rewrite Hsame in Hg'.
  apply in_map_iff in Hg'. destruct Hg' as (g & <- & Hg).
  rewrite Forall_forall in Hres. apply Hres, list_elem_of_In, Hg.
Qed.

Lemma titled_merge (results prev : list Grant) :
  Forall (fun g => is_Some (App.lowerTitle g)) prev ->
  Forall (fun g => is_Some (App.lowerTitle g)) results ->
  Forall (fun g => is_Some (App.lowerTitle g))
    (List.filter (fun g => negb (known (existingTitlesOf prev) g)) results ++ prev).
Proof.
  intros Hprev Hres. apply Forall_app. split; [|exact Hprev].
  apply Forall_forall. intros g Hg.
  apply list_elem_of_In, filter_In in Hg. rewrite Forall_forall in Hres.
  apply Hres, list_elem_of_In. tauto.
Qed.

(** Candidates whose titles were merged are all known afterwards. *)
Lemma filter_merged (results results' prev : list Grant) :
  Forall (fun g => is_Some (App.lowerTitle g)) results ->
  same_titles results' results ->
  let u := List.filter (fun g => negb (known (existingTitlesOf prev) g)) results in
  List.filter (fun g => negb (known (existingTitlesOf (u ++ prev)) g)) results' = [].
Proof.
  intros Hres Hsame u.
  pose proof (titled_same _ _ Hsame Hres) as Hres'.
  apply filter_none. intros g' Hg'. apply negb_false_iff.
  pose proof (in_map App.lowerTitle _ _ Hg') as Ht. rewrite Hsame in Ht.
  apply in_map_iff in Ht. destruct Ht as (g & Eg & Hg).
  rewrite Forall_forall in Hres'.
  destruct (Hres' g' (proj2 (list_elem_of_In _ _) Hg')) as [k Hk].
  rewrite Hk in Eg.
  destruct (known (existingTitlesOf prev) g) eqn:Hkn.
  - apply known_mono. unfold known in *. rewrite Eg in Hkn. now rewrite Hk.
  - apply (known_member _ g g' k); [|exact Eg | exact Hk].
    apply in_or_app. left. apply filter_In. split; [exact Hg|]. now rewrite Hkn.
Qed.

(** On Grants that all have a string title the deduplication returns. *)
Lemma dedupe_titled P (results prev : list Grant) h :
  Forall (fun g => is_Some (App.lowerTitle g)) prev ->
  Forall (fun g => is_Some (App.lowerTitle g)) results ->
  let u := List.filter (fun g => negb (known (existingTitlesOf prev) g)) results in
  snd (App.dedupe P results prev h) = Return (u, u ++ prev).
Proof.
  intros Hprev Hres u.
  destruct (dedupe_cases P results prev h) as [(_ & _ & E)|[e E]].
  - now rewrite E.
  - exfalso.
    destruct (mapM_title_key P prev h) as [[_ E1]|[F _]]; [|tauto].
    destruct (filterM_title_key P (existingTitlesOf prev) results h)
      as [[_ E2]|[F _]]; [|tauto]. cbv zeta in E2.
    unfold App.dedupe in E. rewrite (bind_Return _ _ _ _ _ E1) in E.
    cbv beta zeta in E. fold (existingTitlesOf prev) in E.
    rewrite (bind_Return _ _ _ _ _ E2) in E. unfold bind in E.
    destruct (_ <? _)%nat; discriminate.
Qed.

(** X6. Once a batch has been merged, a batch with the same titles
    merges nothing: all its candidates are filtered, whatever their
    other fields and identifiers are. *)
Theorem merged_titles_are_filtered P (results results' prev : list Grant) h :
  Forall (fun g => is_Some (App.lowerTitle g)) prev ->
  Forall (fun g => is_Some (App.lowerTitle g)) results ->
  map App.lowerTitle results' = map App.lowerTitle results ->
  let u := List.filter (fun g => negb (known (existingTitlesOf prev) g)) results in
  snd (App.dedupe P results' (u ++ prev) h) = Return ([], u ++ prev).
Proof.
  intros Hprev Hres Hsame u.
  rewrite dedupe_titled;
    [| now apply titled_merge | now apply (titled_same results)].
  unfold u. now rewrite (filter_merged results results' prev Hres Hsame).
Qed.

Lemma merged_titles_are_filtered_witness :
  snd (App.dedupe Demo.platform
         [Demo.grant_titled "a"; Demo.grant_titled "C"]
         ([Demo.grant_titled "C"] ++ [Demo.grant_titled "A"]) Demo.idle)
  = Return ([], [Demo.grant_titled "C"] ++ [Demo.grant_titled "A"]).
Proof.
  apply (merged_titles_are_filtered Demo.platform
           [Demo.grant_titled "a"; Demo.grant_titled "C"]
           [Demo.grant_titled "a"; Demo.grant_titled "C"]
           [Demo.grant_titled "A"] Demo.idle).
  - repeat constructor; vm_compute; eauto.
  - repeat constructor; vm_compute; eauto.
  - reflexivity.
Defined.



End PhaseExtras.

(** ** Running again *)

Module RerunProps.

Import RunFacts ParseProps RunProps DedupProps FrameFacts DiscoveryProps PhaseExtras.

(** *** The outcome of a discovery does not depend on the state *)

Lemma Alike_ret {A} (eqv : A -> A -> Prop) a a' : eqv a a' -> Alike eqv (ret a) (ret a').
Proof. intros H h k. exact H. Qed.

Lemma Alike_throw {A} (eqv : A -> A -> Prop) e : Alike eqv (throw e) (throw e).
Proof. intros h k. reflexivity. Qed.

Lemma Alike_bind {A B} (eqA : A -> A -> Prop) (eqB : B -> B -> Prop)
    (m m' : M A) (k k' : A -> M B) :
  Alike eqA m m' -> (forall a a', eqA a a' -> Alike eqB (k a) (k' a')) ->
  Alike eqB (bind m k) (bind m' k').
Proof.
  intros Hm Hk h h'. unfold bind. specialize (Hm h h').
  destruct (m h) as [h1 [a|e]], (m' h') as [h1' [a'|e']]; simpl in *;
    try contradiction; [now apply Hk | exact Hm].
Qed.

Lemma Alike_try_catch {A} (eqv : A -> A -> Prop) (m m' : M A) (k k' : JsError -> M A) :
  Alike eqv m m' -> (forall e, Alike eqv (k e) (k' e)) ->
  Alike eqv (try_catch m k) (try_catch m' k').
Proof.
  intros Hm Hk h h'. unfold try_catch. specialize (Hm h h').
  destruct (m h) as [h1 [a|e]], (m' h') as [h1' [a'|e']]; simpl in *;
    try contradiction; [exact Hm | subst e'; apply Hk].
Qed.

Lemma Alike_addLog P msg lvl :
  Alike (fun _ _ : unit => True)
    (Gemini.addLog P App.onLog msg lvl) (Gemini.addLog P App.onLog msg lvl).
Proof. intros h k. exact I. Qed.

Lemma Alike_logChunk P chunk idx :
  Alike (fun _ _ : unit => True)
    (Gemini.logChunk P App.onLog chunk idx) (Gemini.logChunk P App.onLog chunk idx).
Proof.
  unfold Gemini.logChunk.
  destruct (web chunk) as [w|]; [|now apply Alike_ret].
  destruct (uri w) as [u|]; [|now apply Alike_ret].
  destruct (_ && _); [|now apply Alike_ret].
  destruct (hostname_of P u); [apply Alike_addLog | apply Alike_throw].
Qed.

Lemma Alike_forEach_logChunk P chunks idx :
  Alike (fun _ _ : unit => True)
    (forEach (Gemini.logChunk P App.onLog) chunks idx)
    (forEach (Gemini.logChunk P App.onLog) chunks idx).
Proof.
  revert idx. induction chunks as [|c chunks IH]; intros idx; simpl.
  - now apply Alike_ret.
  - eapply Alike_bind; [apply Alike_logChunk | intros _ _ _; apply IH].
Qed.

Lemma same_titles_grantsOf P u r u' r' items :
  same_titles (grantsOf P u r items) (grantsOf P u' r' items).
Proof. unfold same_titles. now rewrite !Repository.lowerTitle_grantsOf. Qed.

Lemma Alike_parseGrants P text :
  Alike same_titles (Gemini.parseGrants P App.onLog text)
    (Gemini.parseGrants P App.onLog text).
Proof.
  unfold Gemini.parseGrants. cbv zeta.
  destruct (_ || _); [intros h k; reflexivity|].
  destruct (Json.parse _ _) as [v|]; [|apply Alike_throw].
  eapply Alike_bind; [apply Alike_addLog | intros _ _ _].
  destruct v as [| b | n | s | items | ms]; try apply Alike_throw.
  intros h k.
  destruct (mapM_toGrant_run P items h) as (h' & ->).
  destruct (mapM_toGrant_run P items k) as (k' & ->).
  apply same_titles_grantsOf.
Qed.

Lemma Alike_afterResponse P response :
  Alike same_titles (afterResponse P response) (afterResponse P response).
Proof.
  unfold afterResponse.
  eapply Alike_bind; [apply Alike_addLog | intros _ _ _].
  eapply (Alike_bind (fun _ _ : unit => True)).
  - destruct (groundingChunks response) as [chunks|]; [|now apply Alike_ret].
    eapply Alike_bind; [apply Alike_addLog | intros _ _ _].
    apply Alike_forEach_logChunk.
  - intros _ _ _. destruct (text response) as [t|]; [|apply Alike_throw].
    destruct (truthy t); [apply Alike_parseGrants | apply Alike_throw].
Qed.

(** What a discovery returns or throws is decided by the platform, the
    provider and the configuration: run from two states it throws the
    same error, or returns Grants with the same titles. *)
Lemma Alike_discoverGrants P W config :
  Alike same_titles (Gemini.discoverGrants P W config App.onLog)
    (Gemini.discoverGrants P W config App.onLog).
Proof.
  rewrite discoverGrants_eq.
  eapply (Alike_bind (fun _ _ : unit => True)).
  { unfold Gemini.getClient.
    destruct (truthy_opt _); [now apply Alike_ret | apply Alike_throw]. }
  intros _ _ _.
  do 3 (eapply Alike_bind; [apply Alike_addLog | intros _ _ _]).
  apply Alike_try_catch.
  - eapply Alike_bind; [apply Alike_addLog | intros _ _ _].
    eapply (Alike_bind eq).
    + intros h k. rewrite !await_run. simpl.
      now destruct (generateContent W (Gemini.request config)).
    + intros response ? <-. apply Alike_afterResponse.
  - intros e. unfold onDiscoveryError.
    eapply Alike_bind; [apply Alike_addLog | intros _ _ _; apply Alike_throw].
Qed.

(** *** The three ways a started run ends *)

Lemma run_failed_discovery P W config h hd e :
  truthy_opt (API_KEY P) = true ->
  isScanning h = false ->
  Gemini.discoverGrants P W config App.onLog (started P h) = (hd, Throw e) ->
  grants (fst (App.handleRunDiscovery P W config h)) = grants h
  /\ dispatches (performed h (fst (App.handleRunDiscovery P W config h))) = [].
Proof.
  intros Hkey Hidle Hdisc.
  pose proof (Quiet_discoverGrants P W config (started P h)) as Hq.
  rewrite Hdisc in Hq. destruct Hq as [Hg _ (es & Hes & Hquiet)]. simpl in *.
  rewrite handleRunDiscovery_runs, closing_run by assumption.
  unfold App.runPhases. rewrite (bind_Throw _ _ _ _ _ Hdisc). cbn [fst snd].
  split; [exact Hg|].
  erewrite WholeRun.performed_app.
  2: { rewrite finalized_effects, failed_effects, Hes, <- app_assoc. reflexivity. }
  rewrite WholeRun.dispatches_app. now rewrite (WholeRun.dispatches_quiet _ Hquiet).
Qed.

Lemma run_failed_merge P W config h hd results :
  truthy_opt (API_KEY P) = true ->
  isScanning h = false ->
  Gemini.discoverGrants P W config App.onLog (started P h) = (hd, Return results) ->
  ~ (Forall (fun g => is_Some (App.lowerTitle g)) (grants h)
     /\ Forall (fun g => is_Some (App.lowerTitle g)) results) ->
  grants (fst (App.handleRunDiscovery P W config h)) = grants h
  /\ dispatches (performed h (fst (App.handleRunDiscovery P W config h))) = [].
Proof.
  intros Hkey Hidle Hdisc Hbad.
  pose proof (Quiet_discoverGrants P W config (started P h)) as Hq.
  rewrite Hdisc in Hq. destruct Hq as [Hg _ (es & Hes & Hquiet)]. simpl in *.
  destruct (App.setGrants_dedupe P results hd) as [h2 [newGrants|e]] eqn:Hd.
  { destruct (setGrants_dedupe_Return _ _ _ _ _ Hd) as (Hprev & Hres & _).
    rewrite Hg in Hprev. tauto. }
  pose proof (setGrants_dedupe_Throw _ _ _ _ _ Hd) as ->.
  rewrite handleRunDiscovery_runs, closing_run by assumption.
  unfold App.runPhases.
  rewrite (bind_Return _ _ _ _ _ Hdisc), (bind_Throw _ _ _ _ _ Hd). cbn [fst snd].
  split; [exact Hg|].
  erewrite WholeRun.performed_app.
  2: { rewrite finalized_effects, failed_effects, Hes, <- app_assoc. reflexivity. }
  rewrite WholeRun.dispatches_app. now rewrite (WholeRun.dispatches_quiet _ Hquiet).
Qed.

Lemma run_merged P W config h hd results :
  truthy_opt (API_KEY P) = true ->
  isScanning h = false ->
  Gemini.discoverGrants P W config App.onLog (started P h) = (hd, Return results) ->
  Forall (fun g => is_Some (App.lowerTitle g)) (grants h) ->
  Forall (fun g => is_Some (App.lowerTitle g)) results ->
  let u := List.filter (fun g => negb (known (existingTitlesOf (grants h)) g)) results in
  grants (fst (App.handleRunDiscovery P W config h)) = u ++ grants h
  /\ (u = [] ->
      dispatches (performed h (fst (App.handleRunDiscovery P W config h))) = []).
Proof.
  intros Hkey Hidle Hdisc Hprev Hres u.
  pose proof (Quiet_discoverGrants P W config (started P h)) as Hq.
  rewrite Hdisc in Hq. destruct Hq as [Hg _ _]. simpl in Hg.
  assert (Hd : exists h2, App.setGrants_dedupe P results hd = (h2, Return u)).
  { unfold App.setGrants_dedupe.
    pose proof (dedupe_titled P results (grants hd) hd) as E.
    rewrite Hg in E |- *. specialize (E Hprev Hres). cbv zeta in E. fold u in E.
    destruct (App.dedupe P results (grants h) hd) as [h2 o]. simpl in E. subst o.
    eexists. reflexivity. }
  destruct Hd as (h2 & Hd).
  destruct (WholeRun.run_reaches_notification P W config h hd h2 results u
              Hkey Hidle Hdisc Hd) as (-> & Hg2 & es & Hes & Hnone).
  cbn [fst]. rewrite finalized_grants.
  destruct (shouldNotify config u) eqn:Hc.
  - split.
    + rewrite notifyPhase_dispatch by assumption. cbn [fst snd].
      destruct (notify_error _); exact Hg2.
    + intros Hu. rewrite Hu in Hc. discriminate.
  - destruct (notifyPhase_skip P W config u h2 Hc) as (-> & He & Hg3).
    split; [now rewrite Hg3|]. intros _.
    rewrite (WholeRun.performed_app h _ es); [exact Hnone|].
    rewrite finalized_effects, He. exact Hes.
Qed.

(** X20. Running the same discovery again merges nothing and notifies
    nobody: after any run, a second run with the same provider and
    configuration leaves the repository as the first left it, and makes
    no call to the notification service, whether the first run merged
    Grants, failed, or was refused. *)
Theorem rerun_merges_nothing P W config h :
  let h1 := run P (W, config) h in
  let h2 := run P (W, config) h1 in
  grants h2 = grants h1 /\ dispatches (performed h1 h2) = [].
Proof.
  unfold run. cbn [fst snd].
  destruct (truthy_opt (API_KEY P)) eqn:Hkey.
  2: { unfold App.handleRunDiscovery. rewrite Hkey. cbn [negb].
       unfold performed. simpl. now rewrite drop_app_length. }
  destruct (isScanning h) eqn:Hscan.
  { assert (E : App.handleRunDiscovery P W config h = (h, Return tt)).
    { unfold App.handleRunDiscovery. rewrite Hkey. cbn [negb]. cbv beta.
      now rewrite Hscan. }
    rewrite E. cbn [fst]. rewrite E. cbn [fst].
    unfold performed. now rewrite drop_all. }
  set (h1 := fst (App.handleRunDiscovery P W config h)).
  assert (Hidle1 : isScanning h1 = false).
  { unfold h1. rewrite handleRunDiscovery_runs, closing_run by assumption.
    apply finalized_scanning. }
  pose proof (Alike_discoverGrants P W config (started P h) (started P h1)) as Hal.
  destruct (Gemini.discoverGrants P W config App.onLog (started P h))
    as [hd [results|e]] eqn:Hd1;
    destruct (Gemini.discoverGrants P W config App.onLog (started P h1))
      as [hd' [results'|e']] eqn:Hd2;
    simpl in Hal; try contradiction.
  2: { exact (run_failed_discovery P W config h1 hd' e' Hkey Hidle1 Hd2). }
  destruct (decide (Forall (fun g => is_Some (App.lowerTitle g)) (grants h)
                    /\ Forall (fun g => is_Some (App.lowerTitle g)) results))
    as [[Hprev Hres]|Hbad].
  - destruct (run_merged P W config h hd results Hkey Hscan Hd1 Hprev Hres) as [Hg1 _].
    fold h1 in Hg1.
    assert (Hsame : same_titles results' results) by (symmetry; exact Hal).
    destruct (run_merged P W config h1 hd' results' Hkey Hidle1 Hd2) as [Hg2 Hnone].
    + rewrite Hg1. now apply titled_merge.
    + now apply (titled_same results).
    + rewrite Hg1 in Hg2, Hnone.
      rewrite (filter_merged results results' (grants h) Hres Hsame) in Hg2, Hnone.
      split; [now rewrite Hg2, Hg1 | now apply Hnone].
  - destruct (run_failed_merge P W config h hd results Hkey Hscan Hd1 Hbad) as [Hg1 _].
    fold h1 in Hg1.
    apply (run_failed_merge P W config h1 hd' results' Hkey Hidle1 Hd2).
    rewrite Hg1. intros [Hprev Hres']. apply Hbad. split; [exact Hprev|].
    now apply (titled_same results').
Qed.

End RerunProps.


(** ** The keyword editor *)

Module SidebarProps.

Import JsString Sidebar.

Lemma dropWhile_idem {A} (p : A -> bool) (l : list A) :
  dropWhile p (dropWhile p l) = dropWhile p l.
Proof.
  induction l as [|x l IH]; simpl; [reflexivity|].
  destruct (p x) eqn:E; [exact IH | simpl; now rewrite E].
Qed.

Lemma dropWhile_stopped {A} (p : A -> bool) x (l : list A) :
  p x = false -> dropWhile p (x :: l) = x :: l.
Proof. intros E. simpl. now rewrite E. Qed.

Lemma dropWhile_head {A} (p : A -> bool) (l : list A) x r :
  dropWhile p l = x :: r -> p x = false.
Proof.
  induction l as [|y l IH]; simpl; [discriminate|].
  destruct (p y) eqn:E; [exact IH | now intros [= <- _]].
Qed.

Lemma dropWhile_nil_iff {A} (p : A -> bool) (l : list A) :
  dropWhile p l = [] <-> forallb p l = true.
Proof.
  induction l as [|x l IH]; simpl; [tauto|].
  destruct (p x); simpl; [exact IH|]. split; discriminate.
Qed.

(** Trimming leaves nothing exactly of a text of whitespace. *)
Lemma trim_nil_iff l : trim l = [] <-> forallb Chars.isWhiteSpace l = true.
Proof.
  unfold trim, trimEnd, trimStart. rewrite <- dropWhile_nil_iff.
  destruct (dropWhile Chars.isWhiteSpace l) as [|x m] eqn:E; [simpl; tauto|].
  pose proof (dropWhile_head _ _ _ _ E) as Hx. simpl (rev (x :: m)).
  rewrite TextFacts.dropWhile_app_stop by assumption.
  rewrite rev_app_distr. simpl. split; discriminate.
Qed.

(** Trimming a trimmed text changes nothing. *)
Lemma trim_idem l : trim (trim l) = trim l.
Proof.
  unfold trim, trimEnd, trimStart.
  destruct (dropWhile Chars.isWhiteSpace l) as [|x m] eqn:E; [reflexivity|].
  pose proof (dropWhile_head _ _ _ _ E) as Hx. simpl (rev (x :: m)).
  rewrite TextFacts.dropWhile_app_stop by assumption.
  rewrite rev_app_distr. simpl (rev [x] ++ _).
  rewrite dropWhile_stopped by assumption.
  change (x :: rev (dropWhile Chars.isWhiteSpace (rev m)))
    with (rev [x] ++ rev (dropWhile Chars.isWhiteSpace (rev m))).
  rewrite <- rev_app_distr, rev_involutive.
  rewrite TextFacts.dropWhile_app_stop by assumption.
  now rewrite dropWhile_idem.
Qed.

Lemma chars_str l : chars (str l) = l.
Proof. apply list_ascii_of_string_of_list_ascii. Qed.

Lemma str_nil_iff l : str l = EmptyString <-> l = [].
Proof. destruct l; simpl; split; congruence. Qed.

Lemma trimmed_idem s : trimmed (trimmed s) = trimmed s.
Proof. unfold trimmed. now rewrite chars_str, trim_idem. Qed.

Lemma truthy_trimmed s :
  truthy (trimmed s) = negb (forallb Chars.isWhiteSpace (chars s)).
Proof.
  unfold trimmed.
  destruct (forallb Chars.isWhiteSpace (chars s)) eqn:E.
  - apply trim_nil_iff in E. now rewrite E.
  - destruct (trim (chars s)) as [|x m] eqn:Et; [|reflexivity].
    apply trim_nil_iff in Et. congruence.
Qed.

(** X8. A keyword field that holds only whitespace, or nothing, adds no
    keyword: the add handler leaves the configuration and the field as
    they are. *)
Theorem blank_keyword_is_ignored st :
  forallb Chars.isWhiteSpace (chars (newKeyword st)) = true ->
  handleAddKeyword st = st.
Proof.
  intros H. unfold handleAddKeyword. now rewrite truthy_trimmed, H.
Qed.

Lemma blank_keyword_is_ignored_witness :
  handleAddKeyword {| config := Demo.config; newKeyword := "   " |}
  = {| config := Demo.config; newKeyword := "   " |}.
Proof.
  apply (blank_keyword_is_ignored {| config := Demo.config; newKeyword := "   " |}).
  reflexivity.
Defined.

Lemma clean_added st :
  forallb Chars.isWhiteSpace (chars (newKeyword st)) = false ->
  clean (trimmed (newKeyword st)).
Proof.
  intros H. split; [|apply trimmed_idem].
  intros E. pose proof (truthy_trimmed (newKeyword st)) as Ht.
  rewrite E, H in Ht. discriminate.
Qed.

Lemma act_clean a st :
  Forall clean (keywords (config st)) -> Forall clean (keywords (config (act a st))).
Proof.
  intros Hst. destruct a as [s| |k]; simpl; [exact Hst | |].
  - unfold handleAddKeyword. rewrite truthy_trimmed.
    destruct (forallb Chars.isWhiteSpace (chars (newKeyword st))) eqn:E; [exact Hst|].
    simpl. apply Forall_app. split; [exact Hst|]. constructor; [|constructor].
    now apply clean_added.
  - apply Forall_forall. intros k' Hk'. apply list_elem_of_In, filter_In in Hk'.
    rewrite Forall_forall in Hst. apply Hst, list_elem_of_In. tauto.
Qed.

(** X9. Whatever is typed, added and removed, every keyword of the
    configuration is non-empty and trimmed, once the keywords the
    editor started from are. *)
Theorem keywords_stay_clean (actions : list Action) st :
  Forall clean (keywords (config st)) ->
  Forall clean (keywords (config (fold_left (fun s a => act a s) actions st))).
Proof.
  revert st. induction actions as [|a actions IH]; intros st Hst; simpl; [exact Hst|].
  apply IH. now apply act_clean.
Qed.

Lemma keywords_stay_clean_witness :
  Forall clean
    (keywords (config (fold_left (fun s a => act a s)
                         [AddKeyword; TypeKeyword " "; AddKeyword; RemoveKeyword "grant"]
                         Cases.editor))).
Proof.
  apply (keywords_stay_clean
           [AddKeyword; TypeKeyword " "; AddKeyword; RemoveKeyword "grant"] Cases.editor).
  repeat constructor; discriminate.
Defined.

Lemma filter_fresh (k : string) (l : list string) :
  ~ In k l -> List.filter (fun kw => negb (String.eqb kw k)) (l ++ [k]) = l.
Proof.
  intros Hk. induction l as [|x l IH]; simpl.
  - now rewrite String.eqb_refl.
  - destruct (String.eqb_spec x k) as [->|Hne]; simpl.
    + exfalso. apply Hk. now left.
    + rewrite IH; [reflexivity|]. intros H. apply Hk. now right.
Qed.

(** X10. Adding a keyword that the configuration did not have and
    removing it again gives back the configuration; the added keyword
    is the trimmed text of the field, and the field is emptied. *)
Theorem added_keyword_can_be_removed st :
  forallb Chars.isWhiteSpace (chars (newKeyword st)) = false ->
  ~ In (trimmed (newKeyword st)) (keywords (config st)) ->
  keywords (config (handleAddKeyword st))
  = keywords (config st) ++ [trimmed (newKeyword st)]
  /\ newKeyword (handleAddKeyword st) = EmptyString
  /\ config (removeKeyword (trimmed (newKeyword st)) (handleAddKeyword st)) = config st.
Proof.
  intros Hw Hfresh. unfold handleAddKeyword. rewrite truthy_trimmed, Hw. simpl.
  split; [reflexivity|]. split; [reflexivity|].
  unfold with_keywords. simpl. rewrite filter_fresh by assumption.
  now destruct (config st).
Qed.

Lemma added_keyword_can_be_removed_witness :
  config (removeKeyword "climate" (handleAddKeyword Cases.editor)) = config Cases.editor.
Proof.
  refine (proj2 (proj2 (added_keyword_can_be_removed Cases.editor _ _))).
  - reflexivity.
  - vm_compute. intuition discriminate.
Defined.

(** X22. Adding does not look for the keyword among those already
    there: a keyword added a second time is listed twice, and since
    removal goes by value, removing it once takes both copies away. *)
Theorem repeated_keyword_is_listed_twice st :
  forallb Chars.isWhiteSpace (chars (newKeyword st)) = false ->
  In (trimmed (newKeyword st)) (keywords (config st)) ->
  ~ NoDup (keywords (config (handleAddKeyword st)))
  /\ ~ In (trimmed (newKeyword st))
        (keywords (config (removeKeyword (trimmed (newKeyword st))
                             (handleAddKeyword st)))).
Proof.
  intros Hw Hin. split.
  - unfold handleAddKeyword. rewrite truthy_trimmed, Hw. simpl.
    intros Hnd. apply NoDup_app in Hnd. destruct Hnd as (_ & Hdis & _).
    apply (Hdis (trimmed (newKeyword st))).
    + now apply list_elem_of_In.
    + apply list_elem_of_In. now left.
  - simpl. intros H. apply filter_In in H. destruct H as [_ H].
    now rewrite String.eqb_refl in H.
Qed.

Lemma repeated_keyword_is_listed_twice_witness :
  ~ NoDup (keywords (config (handleAddKeyword
                               {| config := Demo.config; newKeyword := " grant" |}))).
Proof.
  refine (proj1 (repeated_keyword_is_listed_twice
                   {| config := Demo.config; newKeyword := " grant" |} _ _)).
  - reflexivity.
  - vm_compute. now left.
Defined.

End SidebarProps.

(** ** The confidence a card shows *)

Module CardProps.

Lemma toFixed0_two_digits P (y : Q) :
  (90 <= y)%Q -> (y <= 99)%Q ->
  exists n : Z, (90 <= n <= 99)%Z /\ GrantCard.toFixed0 P y = pretty n.
Proof.
  intros Hlo Hhi. exists (Qfloor (y + (1 # 2))). split.
  - split.
    + change 90%Z with (Qfloor (90 + (1 # 2))). apply Qfloor_resp_le. lra.
    + change 99%Z with (Qfloor (99 + (1 # 2))). apply Qfloor_resp_le. lra.
  - unfold GrantCard.toFixed0.
    assert (E0 : Qle_bool 0 y = true) by (apply Qle_bool_iff; lra).
    assert (E1 : Qle_bool (10 ^ 21) y = false).
    { destruct (Qle_bool (10 ^ 21) y) eqn:E; [|reflexivity].
      apply Qle_bool_iff in E.
      assert (H : (10 ^ 21 <= 99)%Q) by (eapply Qle_trans; eassumption).
      vm_compute in H. now contradiction H. }
    rewrite E0. cbn [negb]. cbv zeta. now rewrite E1.
Qed.

(** X23. The card of a Grant the parse step built shows its
    confidence as a whole percentage from 90 to 99: the score lies in
    [0.9, 0.99) and is multiplied by 100 and rounded to the nearest
    integer. The integers 90, 99 and 100 are numbers of the format. *)
Theorem card_confidence_has_two_digits P r :
  Rounding (fl P) -> random_in_range P ->
  (9 # 10 <= Gemini.confidence_score (fl P) 0)%Q ->
  (Gemini.confidence_score (fl P) below_one < 99 # 100)%Q ->
  (fl P 100 == 100)%Q -> (fl P 90 == 90)%Q -> (fl P 99 == 99)%Q ->
  exists n : Z,
    (90 <= n <= 99)%Z
    /\ GrantCard.confidenceText P (Gemini.confidence_score (fl P) (random_nth P r))
       = "Confidence: " +:+ pretty n +:+ "%".
Proof.
  intros Hfl Hrand Hlo Hhi H100 H90 H99.
  destruct (GrantProps.score_in_range P r Hfl Hrand Hlo Hhi) as [Hq1 Hq2].
  set (q := Gemini.confidence_score (fl P) (random_nth P r)) in *.
  destruct (toFixed0_two_digits P (fl P (q * fl P 100))) as (n & Hn & E).
  - rewrite <- H90. apply (fl_monotone _ Hfl). rewrite H100. lra.
  - rewrite <- H99. apply (fl_monotone _ Hfl). rewrite H100. lra.
  - exists n. split; [exact Hn|]. unfold GrantCard.confidenceText. now rewrite E.
Qed.

Lemma card_confidence_has_two_digits_witness :
  exists n : Z,
    (90 <= n <= 99)%Z
    /\ GrantCard.confidenceText Demo.platform
         (Gemini.confidence_score (fl Demo.platform) (random_nth Demo.platform 0))
       = "Confidence: " +:+ pretty n +:+ "%".
Proof.
  apply (card_confidence_has_two_digits Demo.platform 0).
  - split; [intros x y Hxy; exact Hxy | reflexivity].
  - intros n. unfold below_one, Qle. simpl. lia.
  - unfold Qle. simpl. lia.
  - unfold Qlt. simpl. lia.
  - reflexivity.
  - reflexivity.
  - reflexivity.
Defined.

End CardProps.
